(** * A model of [vector.h]: [RawMemory<T>] and [Vector<T>]

    The header separates raw storage ([RawMemory]) from the objects that
    live in it ([Vector]).  The embedding keeps that separation:

    - the free store is a finite map from block identifiers to arrays of
      slots, a slot being either raw memory or a live object of type [T];
    - [Vector] objects live in an object store indexed by their address, so
      that [this] and references to other vectors can alias;
    - every function of the header is a computation in a state monad with
      two abnormal outcomes: a C++ exception in flight ([Throw]) and a
      failed [assert] or undefined behaviour ([Fault]);
    - which of the fallible steps (allocations, constructor calls and
      assignments of [T]) raise is decided by an oracle over the running
      count of such steps;
    - constructor and destructor calls of [T] are counted. *)

From stdpp Require Import base gmap list.
From Stdlib Require Import ZArith Lia.

(** ** Machine integers *)

(** Sizes, capacities and indices are natural numbers: each of them counts
    slots of one block, and the sums and differences the header forms of
    them ([size_ + 1], [size_ - i], [i + 1], ...) stay within the block or
    one past it.  The two products of the header, [size_ * 2] and
    [n * sizeof(T)], can exceed the range of [size_t] and are reduced
    modulo [2 ^ 64] as the machine does. *)
Module SizeT.

Definition modulus : N := 2 ^ 64.

(** [PTRDIFF_MAX]: no single object can be larger. *)
Definition ptrdiff_max : N := 2 ^ 63 - 1.

(** The value an unsigned 64-bit computation is reduced to. *)
Definition wrap (x : N) : N := (x mod modulus)%N.

(** [a * 2] on [size_t]. *)
Definition double (a : nat) : nat := N.to_nat (wrap (N.of_nat a * 2)).

End SizeT.

(** ** Addresses *)

(** A raw block of the free store is named by a number. *)
Definition block := nat.

(** The address of a [Vector] object. *)
Definition loc := nat.

(** A [T*]: [nullptr] or a block, with an offset counted in elements. *)
Definition ptr : Type := option block * nat.

Definition nullptr : ptr := (None, 0).

Definition ptr_add (p : ptr) (n : nat) : ptr := (p.1, p.2 + n).

Definition ptr_sub (p : ptr) (n : nat) : ptr := (p.1, p.2 - n).

(** [p - q] for two pointers into the same array. *)
Definition ptr_diff (p q : ptr) : nat := p.2 - q.2.

Definition ptr_eqb (p q : ptr) : bool :=
  bool_decide (p.1 = q.1) && (p.2 =? q.2).

(** Relational comparison is only meaningful inside one array. *)
Definition ptr_leb (p q : ptr) : bool :=
  bool_decide (p.1 = q.1) && (p.2 <=? q.2).

Definition ptr_ltb (p q : ptr) : bool :=
  bool_decide (p.1 = q.1) && (p.2 <? q.2).

(** ** The two classes as records *)

(** [T* buffer_] and [size_t capacity_]. *)
Record RawMemory := mkRawMemory {
  buffer_ : option block;
  capacity_ : nat
}.

(** [RawMemory<T> data_] and [size_t size_]. *)
Record Vector := mkVector {
  data_ : RawMemory;
  size_ : nat
}.

(** [RawMemory() = default] and [Vector() = default]. *)
Definition RawMemory_default : RawMemory := mkRawMemory None 0.
Definition Vector_default : Vector := mkVector RawMemory_default 0.

Definition GetAddress (m : RawMemory) : ptr := (buffer_ m, 0).
Definition RawMemory_Capacity (m : RawMemory) : nat := capacity_ m.

(** [RawMemory::Swap]. *)
Definition RawMemory_Swap (a b : RawMemory) : RawMemory * RawMemory := (b, a).

(** [Vector::Size], [Vector::Capacity], and [begin]/[cbegin] and
    [end]/[cend]: an iterator is a [T*]. *)
Definition Size (v : Vector) : nat := size_ v.
Definition Capacity (v : Vector) : nat := RawMemory_Capacity (data_ v).
Definition begin_ (v : Vector) : ptr := GetAddress (data_ v).
Definition end_ (v : Vector) : ptr := ptr_add (GetAddress (data_ v)) (size_ v).

(** ** Program state *)

(** The free store, the [Vector] objects, the number of fallible steps
    taken so far, and the numbers of constructor and destructor calls of
    the element type [T].  A slot of a block is [None] for raw memory and
    [Some v] for a live object of value [v]. *)
Record state (T : Type) := mkState {
  heap : gmap block (list (option T));
  vecs : gmap loc Vector;
  ticks : nat;
  ctors : nat;
  dtors : nat
}.
Arguments mkState {T} heap vecs ticks ctors dtors.
Arguments heap {T} s.
Arguments vecs {T} s.
Arguments ticks {T} s.
Arguments ctors {T} s.
Arguments dtors {T} s.

(** ** Inputs of the concrete runs *)

(** Elements are numbers of four bytes; a moved-from number is [0]. *)
Module Demo.

Definition moved (x : nat) : nat := 0.

(** No step raises. *)
Definition never (k : nat) : bool := false.

(** Exactly the step number [n] raises. *)
Definition at_step (n k : nat) : bool := k =? n.

Definition vec (b : block) (cap size : nat) : Vector :=
  mkVector (mkRawMemory (Some b) cap) size.

(** One vector at address [10], owning block [1] with the given slots;
    its [size] elements have been constructed, none destroyed. *)
Definition st (slots : list (option nat)) (cap size : nat) : state nat :=
  mkState {[1 := slots]} {[10 := vec 1 cap size]} 0 size 0.

(** Two vectors: the one of [st], and a second one at address [11], owning
    block [2]. *)
Definition st2 (slots : list (option nat)) (cap size : nat)
    (slots' : list (option nat)) (cap' size' : nat) : state nat :=
  mkState {[1 := slots; 2 := slots']}
          {[10 := vec 1 cap size; 11 := vec 2 cap' size']} 0 (size + size') 0.

End Demo.

Section WithElementType.

(** The element type, and what the header asks of it. *)
Context {T : Type}.

(** The value a moved-from object is left with. *)
Variable moved_from : T → T.

(** The value of [T()]. *)
Variable value_init : T.

(** [sizeof(T)]. *)
Variable sizeof_T : N.

(** [std::is_nothrow_move_constructible_v<T>],
    [std::is_copy_constructible_v<T>] and
    [std::is_nothrow_move_assignable_v<T>]. *)
Variable nothrow_move_constructible : bool.
Variable copy_constructible : bool.
Variable nothrow_move_assignable : bool.

(** [throws k]: the fallible step number [k] of the run raises. *)
Variable throws : nat → bool.

(** ** State updates *)

Local Abbreviation slot := (option T).
Local Abbreviation state := (state T).

Definition set_heap (h : gmap block (list slot)) (st : state) : state :=
  mkState h (vecs st) (ticks st) (ctors st) (dtors st).
Definition set_vecs (vs : gmap loc Vector) (st : state) : state :=
  mkState (heap st) vs (ticks st) (ctors st) (dtors st).
Definition set_ticks (n : nat) (st : state) : state :=
  mkState (heap st) (vecs st) n (ctors st) (dtors st).
Definition set_ctors (n : nat) (st : state) : state :=
  mkState (heap st) (vecs st) (ticks st) n (dtors st).
Definition set_dtors (n : nat) (st : state) : state :=
  mkState (heap st) (vecs st) (ticks st) (ctors st) n.

(** ** The monad *)

Inductive outcome (A : Type) : Type :=
| Ok (a : A) (st : state)
| Throw (st : state)
| Fault.
Global Arguments Ok {A} a st.
Global Arguments Throw {A} st.
Global Arguments Fault {A}.

Definition M (A : Type) : Type := state → outcome A.

Definition ret {A} (a : A) : M A := fun st => Ok a st.

Definition bind {A B} (m : M A) (f : A → M B) : M B :=
  fun st =>
    match m st with
    | Ok a st' => f a st'
    | Throw st' => Throw st'
    | Fault => Fault
    end.

Definition throw {A} : M A := fun st => Throw st.
Definition fault {A} : M A := fun _ => Fault.

(** [try { body } catch (...) { handler; throw; }], and the destructor
    calls of stack unwinding. *)
Definition on_unwind {A} (body : M A) (handler : M unit) : M A :=
  fun st =>
    match body st with
    | Throw st' =>
        match handler st' with
        | Ok _ st'' => Throw st''
        | Throw st'' => Throw st''
        | Fault => Fault
        end
    | o => o
    end.

(** [assert(c)]. *)
Definition assert (c : bool) : M unit := if c then ret tt else fault.

(** Sequencing, written as in the source: one statement after another. *)
Declare Scope vec_scope.
Delimit Scope vec_scope with V.
Notation "x ← y ; z" := (bind y (fun x => z))
  (at level 20, y at level 100, z at level 200, only parsing) : vec_scope.
Notation "x ;; z" := (bind x (fun _ => z))
  (at level 100, z at level 200, only parsing, right associativity) : vec_scope.
Local Open Scope vec_scope.

Definition modify (f : state → state) : M unit := fun st => Ok tt (f st).

(** A step that may raise: the oracle is asked once. *)
Definition fallible : M unit :=
  fun st =>
    let st' := set_ticks (S (ticks st)) st in
    if throws (ticks st) then Throw st' else Ok tt st'.

(** ** Raw memory and the objects in it *)

Definition load_slot (p : ptr) (st : state) : option slot :=
  match p.1 with
  | Some b =>
      match heap st !! b with
      | Some slots => slots !! p.2
      | None => None
      end
  | None => None
  end.

(** The value of the live object at [p]. *)
Definition read (p : ptr) : M T :=
  fun st =>
    match load_slot p st with
    | Some (Some v) => Ok v st
    | _ => Fault
    end.

(** Overwrite the slot at [p]; [p] must point into a block. *)
Definition write (p : ptr) (s : slot) : M unit :=
  fun st =>
    match p.1 with
    | Some b =>
        match heap st !! b with
        | Some slots =>
            if decide (p.2 < length slots)
            then Ok tt (set_heap (<[b := <[p.2 := s]> slots]> (heap st)) st)
            else Fault
        | None => Fault
        end
    | None => Fault
    end.

Definition count_ctor : M unit := modify (fun st => set_ctors (S (ctors st)) st).
Definition count_dtor : M unit := modify (fun st => set_dtors (S (dtors st)) st).

(** The operations of [T].  A constructor or an assignment asks the oracle
    before it changes anything, so one that raises leaves its operands as
    they were; a move that the traits declare [noexcept] does not ask.  A
    destructor never raises.  Reading raw memory as an object, and writing
    outside a block, are faults. *)

(** [new (p) T(args...)], the constructor producing the value [v]. *)
Definition construct_at (p : ptr) (v : T) : M unit :=
  fallible;; write p (Some v);; count_ctor.

(** [new (dst) T(x)] for the object [x] at [src]. *)
Definition copy_construct (dst src : ptr) : M unit :=
  v ← read src; construct_at dst v.

(** [new (dst) T(std::move(x))] for the object [x] at [src]. *)
Definition move_construct (dst src : ptr) : M unit :=
  v ← read src;
  (if nothrow_move_constructible then ret tt else fallible);;
  write dst (Some v);; count_ctor;;
  write src (Some (moved_from v)).

(** Copy assignment of the object at [src] to the one at [dst]. *)
Definition copy_assign_elem (dst src : ptr) : M unit :=
  v ← read src; _ ← read dst; fallible;; write dst (Some v).

(** Move assignment of the object at [src] to the one at [dst]. *)
Definition move_assign_elem (dst src : ptr) : M unit :=
  v ← read src; _ ← read dst;
  (if nothrow_move_assignable then ret tt else fallible);;
  write dst (Some v);;
  write src (Some (moved_from v)).

(** [std::destroy_at(p)], [p->~T()]. *)
Definition destroy_at (p : ptr) : M unit :=
  _ ← read p; write p None;; count_dtor.

(** ** The standard algorithms the header calls *)

(** [std::destroy_n(first, n)]. *)
Fixpoint destroy_n (first : ptr) (n : nat) : M unit :=
  match n with
  | 0 => ret tt
  | S n' => destroy_at first;; destroy_n (ptr_add first 1) n'
  end.

(** [std::destroy(first, last)]. *)
Definition destroy_range (first last : ptr) : M unit :=
  destroy_n first (ptr_diff last first).

(** The loop of [std::uninitialized_copy_n]: [cur] runs over the
    destination, and a raising constructor destroys [[d_first, cur)]. *)
Fixpoint uninitialized_copy_loop (first d_first cur : ptr) (n : nat) : M unit :=
  match n with
  | 0 => ret tt
  | S n' =>
      on_unwind (copy_construct cur first) (destroy_range d_first cur);;
      uninitialized_copy_loop (ptr_add first 1) d_first (ptr_add cur 1) n'
  end.

Definition uninitialized_copy_n (first : ptr) (n : nat) (d_first : ptr) : M unit :=
  uninitialized_copy_loop first d_first d_first n.

(** [std::uninitialized_move_n]: the same loop with move construction. *)
Fixpoint uninitialized_move_loop (first d_first cur : ptr) (n : nat) : M unit :=
  match n with
  | 0 => ret tt
  | S n' =>
      on_unwind (move_construct cur first) (destroy_range d_first cur);;
      uninitialized_move_loop (ptr_add first 1) d_first (ptr_add cur 1) n'
  end.

Definition uninitialized_move_n (first : ptr) (n : nat) (d_first : ptr) : M unit :=
  uninitialized_move_loop first d_first d_first n.

(** [std::uninitialized_value_construct_n]: the same loop with [T()]. *)
Fixpoint uninitialized_value_construct_loop (d_first cur : ptr) (n : nat) : M unit :=
  match n with
  | 0 => ret tt
  | S n' =>
      on_unwind (construct_at cur value_init) (destroy_range d_first cur);;
      uninitialized_value_construct_loop d_first (ptr_add cur 1) n'
  end.

Definition uninitialized_value_construct_n (first : ptr) (n : nat) : M unit :=
  uninitialized_value_construct_loop first first n.

(** [std::copy(first, first + n, d_first)]: copy assignment, front to back. *)
Fixpoint std_copy_n (first : ptr) (n : nat) (d_first : ptr) : M unit :=
  match n with
  | 0 => ret tt
  | S n' =>
      copy_assign_elem d_first first;;
      std_copy_n (ptr_add first 1) n' (ptr_add d_first 1)
  end.

Definition std_copy (first last d_first : ptr) : M unit :=
  std_copy_n first (ptr_diff last first) d_first.

(** [std::move(first, first + n, d_first)]: move assignment, front to back. *)
Fixpoint std_move_n (first : ptr) (n : nat) (d_first : ptr) : M unit :=
  match n with
  | 0 => ret tt
  | S n' =>
      move_assign_elem d_first first;;
      std_move_n (ptr_add first 1) n' (ptr_add d_first 1)
  end.

Definition std_move (first last d_first : ptr) : M unit :=
  std_move_n first (ptr_diff last first) d_first.

(** [std::move_backward(last - n, last, d_last)]: move assignment, back to
    front, both cursors decremented before each assignment. *)
Fixpoint std_move_backward_n (last : ptr) (n : nat) (d_last : ptr) : M unit :=
  match n with
  | 0 => ret tt
  | S n' =>
      move_assign_elem (ptr_sub d_last 1) (ptr_sub last 1);;
      std_move_backward_n (ptr_sub last 1) n' (ptr_sub d_last 1)
  end.

Definition std_move_backward (first last d_last : ptr) : M unit :=
  std_move_backward_n last (ptr_diff last first) d_last.

(** ** [RawMemory<T>] *)

(** [operator new(bytes)]: a request above [PTRDIFF_MAX] is always refused,
    any other may be; a block of [bytes] bytes has room for
    [bytes / sizeof(T)] objects. *)
Definition operator_new (bytes : N) : M block :=
  if (SizeT.ptrdiff_max <? bytes)%N then throw
  else
    fallible;;
    fun st =>
      let b := fresh (dom (heap st)) in
      let slots := replicate (N.to_nat (bytes / sizeof_T)) None in
      Ok b (set_heap (<[b := slots]> (heap st)) st).

(** [operator delete(buf)]. *)
Definition operator_delete (buf : option block) : M unit :=
  match buf with
  | None => ret tt
  | Some b =>
      fun st =>
        match heap st !! b with
        | Some _ => Ok tt (set_heap (delete b (heap st)) st)
        | None => Fault
        end
  end.

(** [RawMemory::Allocate]; the product is computed on [size_t]. *)
Definition Allocate (n : nat) : M (option block) :=
  if n =? 0 then ret None
  else b ← operator_new (SizeT.wrap (N.of_nat n * sizeof_T)); ret (Some b).

Definition Deallocate (buf : option block) : M unit := operator_delete buf.

(** [RawMemory(size_t capacity)]. *)
Definition RawMemory_ctor (capacity : nat) : M RawMemory :=
  buf ← Allocate capacity; ret (mkRawMemory buf capacity).

(** [~RawMemory()]. *)
Definition RawMemory_dtor (m : RawMemory) : M unit := Deallocate (buffer_ m).

(** [RawMemory::operator+]. *)
Definition RawMemory_plus (m : RawMemory) (offset : nat) : M ptr :=
  assert (offset <=? capacity_ m);; ret (ptr_add (GetAddress m) offset).

(** [RawMemory::operator[]]; the reference is the address of the slot. *)
Definition RawMemory_at (m : RawMemory) (index : nat) : M ptr :=
  assert (index <? capacity_ m);; ret (ptr_add (GetAddress m) index).

(** ** [Vector<T>] *)

(** Reading and writing the members of the object at [this]; there must be
    a [Vector] at that address.  [drop_vec] ends the object's lifetime. *)
Definition get_vec (this : loc) : M Vector :=
  fun st =>
    match vecs st !! this with
    | Some V => Ok V st
    | None => Fault
    end.

Definition put_vec (this : loc) (V : Vector) : M unit :=
  modify (fun st => set_vecs (<[this := V]> (vecs st)) st).

Definition drop_vec (this : loc) : M unit :=
  modify (fun st => set_vecs (delete this (vecs st)) st).

(** The condition of the [if constexpr] that selects how objects are
    relocated. *)
Definition relocate_by_move : bool :=
  nothrow_move_constructible || negb copy_constructible.

(** The new capacity of a full vector. *)
Definition grown_capacity (size : nat) : nat :=
  if size =? 0 then 1 else SizeT.double size.

(** [Vector::MoveOrCopy]. *)
Definition MoveOrCopy (from_vec : ptr) (size : nat) (target_vec : ptr) : M unit :=
  (if relocate_by_move
   then uninitialized_move_n from_vec size target_vec
   else uninitialized_copy_n from_vec size target_vec);;
  destroy_n from_vec size.

(** The private helpers [Vector::Destroy], [Vector::CopyConstruct] and
    [Vector::DestroyN]; no member function calls them. *)
Definition Destroy (buf : ptr) : M unit := destroy_at buf.

Definition CopyConstruct (buf : ptr) (elem : T) : M unit := construct_at buf elem.

Fixpoint DestroyN_from (buf : ptr) (i n : nat) : M unit :=
  match n with
  | 0 => ret tt
  | S n' => Destroy (ptr_add buf i);; DestroyN_from buf (S i) n'
  end.

Definition DestroyN (buf : ptr) (n : nat) : M unit := DestroyN_from buf 0 n.

(** [Vector::Swap]: [data_.Swap(other.data_)], then
    [std::swap(size_, other.size_)]. *)
Definition Swap (this other : loc) : M unit :=
  A ← get_vec this;
  B ← get_vec other;
  put_vec this (mkVector (data_ B) (size_ A));;
  put_vec other (mkVector (data_ A) (size_ B));;
  A' ← get_vec this;
  B' ← get_vec other;
  put_vec this (mkVector (data_ A') (size_ B'));;
  put_vec other (mkVector (data_ B') (size_ A')).

(** [Vector()]. *)
Definition Vector_ctor (this : loc) : M unit := put_vec this Vector_default.

(** [Vector(size_t size)]. *)
Definition Vector_size_ctor (this : loc) (size : nat) : M unit :=
  data ← RawMemory_ctor size;
  on_unwind
    (uninitialized_value_construct_n (GetAddress data) size)
    (RawMemory_dtor data);;
  put_vec this (mkVector data size).

(** [Vector(const Vector& other)]. *)
Definition Vector_copy_ctor (this other : loc) : M unit :=
  O ← get_vec other;
  data ← RawMemory_ctor (size_ O);
  on_unwind
    (uninitialized_copy_n (GetAddress (data_ O)) (size_ O) (GetAddress data))
    (RawMemory_dtor data);;
  put_vec this (mkVector data (size_ O)).

(** [Vector(Vector&& other)]. *)
Definition Vector_move_ctor (this other : loc) : M unit :=
  put_vec this Vector_default;;
  Swap this other.

(** [~Vector()], followed by the destructor of the member [data_]. *)
Definition Vector_dtor (this : loc) : M unit :=
  V ← get_vec this;
  destroy_n (GetAddress (data_ V)) (size_ V);;
  RawMemory_dtor (data_ V);;
  drop_vec this.

(** [Vector::operator[]]. *)
Definition Vector_at (this : loc) (index : nat) : M ptr :=
  V ← get_vec this;
  assert (index <? size_ V);;
  RawMemory_at (data_ V) index.

(** [Vector::PopBack]. *)
Definition PopBack (this : loc) : M unit :=
  V ← get_vec this;
  if 0 <? size_ V then
    destroy_at (ptr_sub (ptr_add (GetAddress (data_ V)) (size_ V)) 1);;
    put_vec this (mkVector (data_ V) (size_ V - 1))
  else ret tt.

(** [Vector::Reserve]. *)
Definition Reserve (this : loc) (new_capacity : nat) : M unit :=
  V ← get_vec this;
  if new_capacity <=? capacity_ (data_ V) then ret tt
  else
    temp_data ← RawMemory_ctor new_capacity;
    on_unwind
      ((if relocate_by_move
        then uninitialized_move_n (GetAddress (data_ V)) (size_ V) (GetAddress temp_data)
        else uninitialized_copy_n (GetAddress (data_ V)) (size_ V) (GetAddress temp_data));;
       destroy_n (GetAddress (data_ V)) (size_ V))
      (RawMemory_dtor temp_data);;
    let '(data', temp_data') := RawMemory_Swap (data_ V) temp_data in
    put_vec this (mkVector data' (size_ V));;
    RawMemory_dtor temp_data'.

(** [Vector::Resize]. *)
Definition Resize (this : loc) (new_size : nat) : M unit :=
  V ← get_vec this;
  if size_ V =? new_size then ret tt
  else if new_size <? size_ V then
    destroy_n (ptr_add (GetAddress (data_ V)) new_size) (size_ V - new_size);;
    put_vec this (mkVector (data_ V) new_size)
  else
    Reserve this new_size;;
    V' ← get_vec this;
    uninitialized_value_construct_n
      (ptr_add (GetAddress (data_ V')) (size_ V')) (new_size - size_ V');;
    put_vec this (mkVector (data_ V') new_size).

(** [Vector::EmplaceBack]; [v] is the value the constructor call
    [T(std::forward<N>(arg)...)] yields.  The result is the address of the
    new element. *)
Definition EmplaceBack (this : loc) (v : T) : M ptr :=
  V ← get_vec this;
  t ← (if size_ V =? Capacity V then
         temp_data ← RawMemory_ctor (grown_capacity (size_ V));
         t ← on_unwind
               (t ← RawMemory_plus temp_data (size_ V);
                construct_at t v;;
                (if relocate_by_move
                 then uninitialized_move_n
                        (GetAddress (data_ V)) (size_ V) (GetAddress temp_data)
                 else uninitialized_copy_n
                        (GetAddress (data_ V)) (size_ V) (GetAddress temp_data));;
                destroy_n (GetAddress (data_ V)) (size_ V);;
                ret t)
               (RawMemory_dtor temp_data);
         let '(data', temp_data') := RawMemory_Swap (data_ V) temp_data in
         put_vec this (mkVector data' (size_ V));;
         RawMemory_dtor temp_data';;
         ret t
       else
         t ← RawMemory_plus (data_ V) (size_ V);
         construct_at t v;;
         ret t);
  V' ← get_vec this;
  put_vec this (mkVector (data_ V') (S (size_ V')));;
  ret t.

(** [Vector::PushBack], both overloads. *)
Definition PushBack (this : loc) (value : T) : M unit :=
  _ ← EmplaceBack this value; ret tt.

(** Move assignment of a local object of value [v] to the one at [dst]. *)
Definition move_assign_local (dst : ptr) (v : T) : M unit :=
  _ ← read dst;
  (if nothrow_move_assignable then ret tt else fallible);;
  write dst (Some v).

(** [Vector::Emplace]. *)
Definition Emplace (this : loc) (pos : ptr) (v : T) : M ptr :=
  V ← get_vec this;
  assert (ptr_leb (begin_ V) pos && ptr_leb pos (end_ V));;
  if ptr_eqb pos (end_ V) then EmplaceBack this v
  else if size_ V =? Capacity V then
    let i := ptr_diff pos (begin_ V) in
    temp_vec ← RawMemory_ctor (grown_capacity (size_ V));
    on_unwind
      (p ← RawMemory_plus temp_vec i;
       construct_at p v;;
       on_unwind
         (MoveOrCopy (GetAddress (data_ V)) i (GetAddress temp_vec))
         (q ← RawMemory_at temp_vec i; destroy_at q);;
       on_unwind
         (src ← RawMemory_plus (data_ V) i;
          dst ← RawMemory_plus temp_vec (i + 1);
          MoveOrCopy src (size_ V - i) dst)
         (destroy_n (GetAddress temp_vec) (i + 1)))
      (RawMemory_dtor temp_vec);;
    let '(data', temp_vec') := RawMemory_Swap (data_ V) temp_vec in
    put_vec this (mkVector data' (size_ V));;
    V' ← get_vec this;
    put_vec this (mkVector (data_ V') (S (size_ V')));;
    V'' ← get_vec this;
    RawMemory_dtor temp_vec';;
    ret (ptr_add (begin_ V'') i)
  else
    let i := ptr_diff pos (begin_ V) in
    (* the local [temp] *)
    fallible;; count_ctor;;
    r ← on_unwind
          (last ← RawMemory_at (data_ V) (size_ V - 1);
           move_construct (end_ V) last;;
           std_move_backward (ptr_add (begin_ V) i) (ptr_sub (end_ V) 1) (end_ V);;
           slot_i ← RawMemory_at (data_ V) i;
           move_assign_local slot_i v;;
           put_vec this (mkVector (data_ V) (S (size_ V)));;
           V' ← get_vec this;
           ret (ptr_add (begin_ V') i))
          count_dtor;
    count_dtor;;
    ret r.

(** [Vector::Insert], both overloads. *)
Definition Insert (this : loc) (pos : ptr) (value : T) : M ptr :=
  Emplace this pos value.

(** [Vector::Erase]. *)
Definition Erase (this : loc) (pos : ptr) : M ptr :=
  V ← get_vec this;
  assert (ptr_leb (begin_ V) pos && ptr_ltb pos (end_ V));;
  let space := ptr_diff pos (begin_ V) in
  std_move (ptr_add (ptr_add (begin_ V) space) 1) (end_ V) (ptr_add (begin_ V) space);;
  PopBack this;;
  V' ← get_vec this;
  ret (ptr_add (begin_ V') space).

(** [Vector::operator=(const Vector&)]. *)
Definition copy_assign (this rhs : loc) : M unit :=
  if decide (this ≠ rhs) then
    V ← get_vec this;
    R ← get_vec rhs;
    if capacity_ (data_ V) <? size_ R then
      fun st =>
        let rhs_copy := fresh (dom (vecs st)) in
        (Vector_copy_ctor rhs_copy rhs;;
         Swap this rhs_copy;;
         Vector_dtor rhs_copy) st
    else
      (if size_ R <? size_ V then
         std_copy (GetAddress (data_ R)) (ptr_add (GetAddress (data_ R)) (size_ R))
                  (GetAddress (data_ V));;
         destroy_n (ptr_add (GetAddress (data_ V)) (size_ R)) (size_ V - size_ R)
       else
         std_copy (GetAddress (data_ R)) (ptr_add (GetAddress (data_ R)) (size_ V))
                  (GetAddress (data_ V));;
         uninitialized_copy_n (ptr_add (GetAddress (data_ R)) (size_ V))
                              (size_ R - size_ V)
                              (ptr_add (GetAddress (data_ V)) (size_ V)));;
      put_vec this (mkVector (data_ V) (size_ R))
  else ret tt.

(** [Vector::operator=(Vector&&)]. *)
Definition move_assign (this rhs : loc) : M unit :=
  if decide (this ≠ rhs) then Swap this rhs else ret tt.

(** ** Reasoning about runs *)

(** What the proofs assume of [sizeof(T)]: an object type has a positive
    size and no object is larger than [PTRDIFF_MAX]. *)
Hypothesis sizeof_T_pos : (0 < sizeof_T)%N.
Hypothesis sizeof_T_max : (sizeof_T ≤ SizeT.ptrdiff_max)%N.

(** From [st] on, no fallible step raises. *)
Definition quiet (st : state) : Prop := ∀ k, ticks st ≤ k → throws k = false.

(** [runs X m st Q]: a run of [m] from [st] that returns normally ends in a
    state satisfying [Q]; and it does return normally when no fallible step
    raises and [X] holds ([X] says that the requests for memory are not
    above [PTRDIFF_MAX]). *)
Definition runs {A} (X : Prop) (m : M A) (st : state) (Q : A → state → Prop) : Prop :=
  match m st with
  | Ok a st' => Q a st' ∧ ticks st ≤ ticks st'
  | _ => ¬ (X ∧ quiet st)
  end.

(** [wp F m st Q E]: the run of [m] from [st] returns normally in a state
    satisfying [Q], or raises in a state satisfying [E], or faults and [F]
    holds.  [wp False] excludes faults, [wp True] ignores them. *)
Definition wp {A} (F : Prop) (m : M A) (st : state)
    (Q : A → state → Prop) (E : state → Prop) : Prop :=
  match m st with
  | Ok a st' => Q a st'
  | Throw st' => E st'
  | Fault => F
  end.

(** ** The representation invariant *)

(** [valid st V els]: in [st] the vector [V] holds exactly the values [els]:
    its block has [capacity_] slots, the first [size_] of them live objects
    with the values [els], the others raw memory. *)
Definition valid (st : state) (V : Vector) (els : list T) : Prop :=
  length els = size_ V ∧
  size_ V ≤ capacity_ (data_ V) ∧
  (N.of_nat (capacity_ (data_ V)) * sizeof_T ≤ SizeT.ptrdiff_max)%N ∧
  match buffer_ (data_ V) with
  | Some b =>
      heap st !! b =
        Some (map Some els ++ replicate (capacity_ (data_ V) - size_ V) None)
  | None => capacity_ (data_ V) = 0
  end.

(** [keeps_vecs m]: [m] works on the free store only; however it ends, the
    [Vector] objects are as before. *)
Definition keeps_vecs {A} (m : M A) : Prop :=
  ∀ st, wp True m st (fun _ st' => vecs st' = vecs st) (fun st' => vecs st' = vecs st).

(** The vector at [this] has a capacity of at least [c]. *)
Definition capacity_at_least (this : loc) (c : nat) (st : state) : Prop :=
  ∃ V, vecs st !! this = Some V ∧ c ≤ Capacity V.

(** The operations that work on one vector in place. *)
Inductive operation : Type :=
| OpEmplaceBack (v : T)
| OpPushBack (v : T)
| OpPopBack
| OpEmplace (pos : ptr) (v : T)
| OpInsert (pos : ptr) (v : T)
| OpErase (pos : ptr)
| OpResize (new_size : nat)
| OpReserve (new_capacity : nat)
| OpCopyAssign (rhs : loc).

Definition perform (this : loc) (op : operation) : M unit :=
  match op with
  | OpEmplaceBack v => _ ← EmplaceBack this v; ret tt
  | OpPushBack v => PushBack this v
  | OpPopBack => PopBack this
  | OpEmplace pos v => _ ← Emplace this pos v; ret tt
  | OpInsert pos v => _ ← Insert this pos v; ret tt
  | OpErase pos => _ ← Erase this pos; ret tt
  | OpResize n => Resize this n
  | OpReserve n => Reserve this n
  | OpCopyAssign rhs => copy_assign this rhs
  end.

(** What a completed copy construction of [A] at [this] leaves behind. *)
Definition copy_constructed (this : loc) (A : Vector) (els : list T)
    (st st' : state) : Prop :=
  ∃ B, vecs st' = <[this := B]> (vecs st) ∧
    Capacity B = size_ A ∧ size_ B = size_ A ∧
    valid st' B els ∧ valid st' A els ∧
    (∀ blk l, heap st !! blk = Some l → heap st' !! blk = Some l) ∧
    ctors st' = ctors st + size_ A ∧ dtors st' = dtors st ∧
    (∀ bA l, buffer_ (data_ A) = Some bA →
       valid (set_heap (<[bA := l]> (heap st')) st') B els).

(** What a copy construction that raised leaves behind: nothing. *)
Definition copy_abandoned (st st' : state) : Prop :=
  heap st' = heap st ∧ vecs st' = vecs st ∧
  ∃ k, ctors st' = ctors st + k ∧ dtors st' = dtors st + k.

(** ** Machine integers without wrap-around *)

Lemma wrap_small x : (x < SizeT.modulus)%N → SizeT.wrap x = x.
Proof. intros H. unfold SizeT.wrap. by rewrite N.mod_small. Qed.

Lemma double_small a :
  (N.of_nat a ≤ SizeT.ptrdiff_max)%N → SizeT.double a = 2 * a.
Proof.
  intros H. unfold SizeT.double. rewrite wrap_small; [lia|].
  unfold SizeT.ptrdiff_max, SizeT.modulus in *. lia.
Qed.

(** ** Rules for [runs] and [wp] *)

Lemma quiet_mono st st' : ticks st ≤ ticks st' → quiet st → quiet st'.
Proof. intros Hle Hq k Hk. apply Hq. lia. Qed.

Lemma runs_ok {A} X (m : M A) st Q a st' :
  runs X m st Q → m st = Ok a st' → Q a st'.
Proof. unfold runs. intros H E. rewrite E in H. by destruct H. Qed.

Lemma runs_quiet {A} (X : Prop) (m : M A) st Q :
  runs X m st Q → X → quiet st → ∃ a st', m st = Ok a st' ∧ Q a st' ∧ quiet st'.
Proof.
  unfold runs. intros H HX Hq. destruct (m st) as [a st'| |].
  - destruct H as [HQ Hle]. exists a, st'. eauto using quiet_mono.
  - destruct H. by split.
  - destruct H. by split.
Qed.

Lemma runs_mono {A} X (m : M A) st (Q Q' : A → state → Prop) :
  runs X m st Q → (∀ a st', Q a st' → Q' a st') → runs X m st Q'.
Proof.
  unfold runs. destruct (m st); [|by intros H _|by intros H _].
  intros [HQ Hle] HI. split; auto.
Qed.

Lemma runs_ret {A} X (a : A) st (Q : A → state → Prop) :
  Q a st → runs X (ret a) st Q.
Proof. unfold runs, ret. auto. Qed.

Lemma runs_bind {A B} X (m : M A) (f : A → M B) st (Q : B → state → Prop) :
  runs X m st (fun a st' => runs X (f a) st' Q) → runs X (bind m f) st Q.
Proof.
  unfold runs, bind. destruct (m st) as [a st'| |]; [|done|done].
  intros [H Hle]. destruct (f a st') as [b st''| |].
  - destruct H as [HQ Hle']. split; [exact HQ | lia].
  - intros [HX Hq]. apply H. split; [exact HX|]. by apply (quiet_mono st).
  - intros [HX Hq]. apply H. split; [exact HX|]. by apply (quiet_mono st).
Qed.

Lemma runs_on_unwind {A} X (body : M A) (h : M unit) st (Q : A → state → Prop) :
  runs X body st Q → runs X (on_unwind body h) st Q.
Proof.
  unfold runs, on_unwind. destruct (body st) as [a st'|st'|]; [done| |done].
  by destruct (h st').
Qed.

Lemma runs_eq {A} X (m : M A) st a st' (Q : A → state → Prop) :
  m st = Ok a st' → ticks st ≤ ticks st' → Q a st' → runs X m st Q.
Proof. unfold runs. by intros ->. Qed.

Lemma runs_modify X f st (Q : unit → state → Prop) :
  ticks st ≤ ticks (f st) → Q tt (f st) → runs X (modify f) st Q.
Proof. unfold runs, modify. auto. Qed.

Lemma runs_assert X c st (Q : unit → state → Prop) :
  c = true → Q tt st → runs X (assert c) st Q.
Proof. intros -> HQ. by apply runs_ret. Qed.

Lemma runs_fallible X st (Q : unit → state → Prop) :
  Q tt (set_ticks (S (ticks st)) st) → runs X fallible st Q.
Proof.
  unfold runs, fallible. intros HQ. destruct (throws (ticks st)) eqn:E.
  - intros [_ Hq]. specialize (Hq (ticks st)). rewrite E in Hq.
    assert (true = false) by (apply Hq; lia). discriminate.
  - simpl. split; [done | lia].
Qed.

Lemma wp_mono {A} F (m : M A) st (Q Q' : A → state → Prop) (E E' : state → Prop) :
  wp F m st Q E → (∀ a st', Q a st' → Q' a st') → (∀ st', E st' → E' st') →
  wp F m st Q' E'.
Proof. unfold wp. destruct (m st); auto. Qed.

Lemma wp_ret {A} F (a : A) st (Q : A → state → Prop) E :
  Q a st → wp F (ret a) st Q E.
Proof. done. Qed.

Lemma wp_bind {A B} F (m : M A) (f : A → M B) st (Q : B → state → Prop) E :
  wp F m st (fun a st' => wp F (f a) st' Q E) E → wp F (bind m f) st Q E.
Proof. unfold wp, bind. by destruct (m st). Qed.

Lemma wp_seq {A B} F (m : M A) (f : A → M B) st
    (R : A → state → Prop) (Q : B → state → Prop) E :
  wp F m st R E → (∀ a st', R a st' → wp F (f a) st' Q E) →
  wp F (bind m f) st Q E.
Proof.
  intros Hm Hf. apply wp_bind. eapply wp_mono; [exact Hm | exact Hf | done].
Qed.

Lemma wp_on_unwind {A} F (body : M A) (h : M unit) st (Q : A → state → Prop) E :
  wp F body st Q (fun st' => wp F h st' (fun _ => E) E) →
  wp F (on_unwind body h) st Q E.
Proof.
  unfold wp, on_unwind. destruct (body st) as [a st'|st'|]; try done.
  by destruct (h st').
Qed.

Lemma wp_eq {A} F (m : M A) st a st' (Q : A → state → Prop) E :
  m st = Ok a st' → Q a st' → wp F m st Q E.
Proof. unfold wp. by intros ->. Qed.

Lemma wp_modify F f st (Q : unit → state → Prop) E :
  Q tt (f st) → wp F (modify f) st Q E.
Proof. done. Qed.

Lemma wp_assert c st (Q : unit → state → Prop) E :
  (c = true → Q tt st) → wp True (assert c) st Q E.
Proof. destruct c; intros H; [by apply H | exact I]. Qed.

Lemma wp_fallible F st (Q : unit → state → Prop) (E : state → Prop) :
  (throws (ticks st) = false → Q tt (set_ticks (S (ticks st)) st)) →
  (throws (ticks st) = true → E (set_ticks (S (ticks st)) st)) →
  wp F fallible st Q E.
Proof. unfold wp, fallible. destruct (throws (ticks st)); auto. Qed.

(** A fault-free run described up to its exceptions is in particular a
    [runs] one. *)
Lemma wp_runs {A} X (m : M A) st (Q : A → state → Prop) :
  wp False m st (fun a st' => Q a st' ∧ ticks st ≤ ticks st')
     (fun _ => ¬ quiet st) →
  runs X m st Q.
Proof.
  unfold wp, runs. destruct (m st); [done| |done].
  intros Hnq [_ Hq]. by apply Hnq.
Qed.

(** *** Slots *)

Lemma read_eq b i l v st :
  heap st !! b = Some l → l !! i = Some (Some v) →
  read (Some b, i) st = Ok v st.
Proof. intros Hb Hi. unfold read, load_slot. simpl. by rewrite Hb, Hi. Qed.

Lemma write_eq b i l s st :
  heap st !! b = Some l → i < length l →
  write (Some b, i) s st = Ok tt (set_heap (<[b := <[i := s]> l]> (heap st)) st).
Proof.
  intros Hb Hi. unfold write. simpl. rewrite Hb. by rewrite decide_True.
Qed.

Lemma insert_middle {A} (pre post : list A) (x y : A) i :
  length pre = i → <[i := y]> (pre ++ x :: post) = pre ++ y :: post.
Proof.
  intros <-. rewrite insert_app_r_alt by lia. by rewrite Nat.sub_diag.
Qed.

Lemma insert2_insert2 {A} (h : gmap block A) b1 b2 x1 x2 y1 y2 :
  b1 ≠ b2 →
  <[b1 := x1]> (<[b2 := x2]> (<[b1 := y1]> (<[b2 := y2]> h))) =
  <[b1 := x1]> (<[b2 := x2]> h).
Proof.
  intros Hne. rewrite (insert_insert_ne _ b2 b1) by done.
  by rewrite !insert_insert_eq.
Qed.

Lemma insert_middle2 {A} (pre mid post : list A) (x y : A) i :
  length pre + length mid = i →
  <[i := y]> (pre ++ mid ++ x :: post) = pre ++ mid ++ y :: post.
Proof.
  intros Hi. rewrite !(app_assoc pre mid).
  apply insert_middle. by rewrite length_app.
Qed.

Lemma lookup_middle2 {A} (pre mid post : list A) (x : A) i :
  length pre + length mid = i → (pre ++ mid ++ x :: post) !! i = Some x.
Proof.
  intros Hi. rewrite (app_assoc pre mid).
  apply list_lookup_middle. rewrite length_app. lia.
Qed.

Lemma lookup_map_Some {A} (l : list A) i :
  map Some l !! i = Some <$> l !! i.
Proof.
  revert i. induction l as [|x l IH]; intros [|i]; simpl; done.
Qed.

Lemma insert_middle_next {A} (pre post : list A) (a b z : A) i :
  length pre = i → <[i + 1 := z]> (pre ++ a :: b :: post) = pre ++ a :: z :: post.
Proof. intros Hi. apply (insert_middle2 pre [a]). simpl. lia. Qed.

Lemma lookup_middle2_next {A} (pre mid post : list A) (a b : A) i :
  length pre + length mid = i → (pre ++ mid ++ a :: b :: post) !! S i = Some b.
Proof.
  intros Hi.
  replace (pre ++ mid ++ a :: b :: post) with ((pre ++ mid ++ [a]) ++ b :: post)
    by (by rewrite <- !app_assoc).
  apply list_lookup_middle. rewrite !length_app. simpl. lia.
Qed.

Lemma insert_middle2_next {A} (pre mid post : list A) (a b z : A) i :
  length pre + length mid = i →
  <[S i := z]> (pre ++ mid ++ a :: b :: post) = pre ++ mid ++ a :: z :: post.
Proof.
  intros Hi.
  replace (pre ++ mid ++ a :: b :: post) with ((pre ++ mid ++ [a]) ++ b :: post)
    by (by rewrite <- !app_assoc).
  rewrite insert_middle by (rewrite !length_app; simpl; lia).
  by rewrite <- !app_assoc.
Qed.

Lemma lookup_middle {A} (pre post : list A) (x : A) i :
  length pre = i → (pre ++ x :: post) !! i = Some x.
Proof. intros <-. by apply list_lookup_middle. Qed.

Lemma length_middle {A} (pre post : list A) (x : A) i :
  length pre = i → i < length (pre ++ x :: post).
Proof. intros <-. rewrite length_app. simpl. lia. Qed.

(** *** Destruction *)

Lemma destroy_at_eq b i l v st :
  heap st !! b = Some l → l !! i = Some (Some v) →
  destroy_at (Some b, i) st =
    Ok tt (mkState (<[b := <[i := None]> l]> (heap st)) (vecs st)
                   (ticks st) (ctors st) (S (dtors st))).
Proof.
  intros Hb Hi. unfold destroy_at, bind.
  rewrite (read_eq b i l v) by done.
  rewrite (write_eq b i l) by eauto using lookup_lt_Some.
  reflexivity.
Qed.

Lemma destroy_n_eq b xs : ∀ pre post i st,
  heap st !! b = Some (pre ++ map Some xs ++ post) → length pre = i →
  destroy_n (Some b, i) (length xs) st =
    Ok tt (mkState (<[b := pre ++ replicate (length xs) None ++ post]> (heap st))
                   (vecs st) (ticks st) (ctors st) (dtors st + length xs)).
Proof.
  induction xs as [|x xs IH]; intros pre post i st Hb Hi; simpl in *.
  - unfold ret. destruct st as [h vs t c d]. simpl in *.
    rewrite insert_id by done. by rewrite Nat.add_0_r.
  - unfold bind.
    rewrite (destroy_at_eq b i _ x) by (done || by apply lookup_middle).
    rewrite insert_middle by done.
    unfold ptr_add. simpl.
    rewrite (IH (pre ++ [None]) post (i + 1)); simpl.
    + rewrite insert_insert_eq. rewrite <- app_assoc. simpl.
      f_equal. f_equal. lia.
    + rewrite lookup_insert_eq. by rewrite <- app_assoc.
    + rewrite length_app. simpl. lia.
Qed.

(** *** Construction *)

Ltac st_simpl :=
  unfold set_heap, set_vecs, set_ticks, set_ctors, set_dtors; simpl.

Lemma state_cast (P : state → Prop) st st' : P st → st = st' → P st'.
Proof. by intros H <-. Qed.

Lemma throws_not_quiet st : throws (ticks st) = true → ¬ quiet st.
Proof.
  intros E Hq. specialize (Hq (ticks st)). rewrite E in Hq.
  assert (true = false) by (apply Hq; lia). discriminate.
Qed.

Lemma construct_at_wp F b i l v st (Q : unit → state → Prop) (E : state → Prop) :
  heap st !! b = Some l → i < length l →
  (throws (ticks st) = false →
   Q tt (mkState (<[b := <[i := Some v]> l]> (heap st)) (vecs st)
                 (S (ticks st)) (S (ctors st)) (dtors st))) →
  (throws (ticks st) = true → E (set_ticks (S (ticks st)) st)) →
  wp F (construct_at (Some b, i) v) st Q E.
Proof.
  intros Hb Hi HQ HE. unfold construct_at.
  apply wp_bind, wp_fallible; [|done].
  intros Hok. apply wp_bind.
  eapply wp_eq; [by apply (write_eq b i l)|].
  by apply wp_modify, HQ.
Qed.

Lemma construct_at_runs X b i l v st (Q : unit → state → Prop) :
  heap st !! b = Some l → i < length l →
  Q tt (mkState (<[b := <[i := Some v]> l]> (heap st)) (vecs st)
                (S (ticks st)) (S (ctors st)) (dtors st)) →
  runs X (construct_at (Some b, i) v) st Q.
Proof.
  intros Hb Hi HQ. apply wp_runs.
  apply (construct_at_wp _ b i l); try done.
  - intros _. simpl. split; [done | lia].
  - intros Hthrow. by apply throws_not_quiet.
Qed.

Lemma copy_construct_wp F bs i ls bd j ld v st (Q : unit → state → Prop) E :
  heap st !! bs = Some ls → ls !! i = Some (Some v) →
  heap st !! bd = Some ld → j < length ld →
  (throws (ticks st) = false →
   Q tt (mkState (<[bd := <[j := Some v]> ld]> (heap st)) (vecs st)
                 (S (ticks st)) (S (ctors st)) (dtors st))) →
  (throws (ticks st) = true → E (set_ticks (S (ticks st)) st)) →
  wp F (copy_construct (Some bd, j) (Some bs, i)) st Q E.
Proof.
  intros Hs Hi Hd Hj HQ HE. unfold copy_construct. apply wp_bind.
  eapply wp_eq; [by apply (read_eq bs i ls v)|].
  by apply (construct_at_wp _ bd j ld).
Qed.

(** [std::uninitialized_copy_n] from one block into raw slots of another:
    either all objects are copied, or the copy number [k] raises and the
    objects constructed before it are destroyed again. *)
Lemma uninitialized_copy_loop_wp bs bd xs (Hne : bs ≠ bd) :
  ∀ spre spost dpre done dpost i j st (Q : unit → state → Prop) (E : state → Prop),
  heap st !! bs = Some (spre ++ map Some xs ++ spost) → length spre = i →
  heap st !! bd =
    Some (dpre ++ map Some done ++ replicate (length xs) None ++ dpost) →
  length dpre = j →
  ((∀ k, k < length xs → throws (ticks st + k) = false) →
   Q tt (mkState (<[bd := dpre ++ map Some (done ++ xs) ++ dpost]> (heap st))
                 (vecs st) (ticks st + length xs) (ctors st + length xs)
                 (dtors st))) →
  (∀ k, k < length xs → throws (ticks st + k) = true →
   (∀ k', k' < k → throws (ticks st + k') = false) →
   E (mkState (<[bd := dpre ++ replicate (length done + length xs) None ++ dpost]>
                 (heap st))
              (vecs st) (ticks st + S k) (ctors st + k)
              (dtors st + (length done + k)))) →
  wp False (uninitialized_copy_loop (Some bs, i) (Some bd, j)
              (Some bd, j + length done) (length xs)) st Q E.
Proof.
  induction xs as [|x xs IH];
    intros spre spost dpre done dpost i j st Q E Hs Hi Hd Hj HQ HE; simpl in *.
  - apply wp_ret. destruct st as [h vs t c d]. simpl in *.
    rewrite app_nil_r, !Nat.add_0_r in HQ.
    rewrite insert_id in HQ by done. apply HQ. intros k Hk. lia.
  - apply wp_bind, wp_on_unwind.
    apply (copy_construct_wp _ bs i (spre ++ Some x :: map Some xs ++ spost)
             bd (j + length done)
             (dpre ++ map Some done ++ None :: replicate (length xs) None ++ dpost) x);
      try done.
    + by apply lookup_middle.
    + rewrite !length_app, length_map. simpl. lia.
    + intros Hok.
      replace (<[j + length done := Some x]>
                 (dpre ++ map Some done ++ None :: replicate (length xs) None ++ dpost))
        with (dpre ++ map Some (done ++ [x]) ++ replicate (length xs) None ++ dpost).
      2:{ rewrite insert_middle2 by (rewrite length_map; lia).
          rewrite map_app, <- !app_assoc. reflexivity. }
      unfold ptr_add. simpl.
      replace (j + length done + 1) with (j + length (done ++ [x]))
        by (rewrite length_app; simpl; lia).
      apply (IH (spre ++ [Some x]) spost dpre (done ++ [x]) dpost (i + 1) j); simpl.
      * rewrite lookup_insert_ne by done. by rewrite <- app_assoc.
      * rewrite length_app. simpl. lia.
      * by rewrite lookup_insert_eq.
      * done.
      * intros Hall. eapply state_cast.
        { apply HQ. intros [|k] Hk.
          - by rewrite Nat.add_0_r.
          - replace (ticks st + S k) with (S (ticks st) + k) by lia.
            apply Hall. lia. }
        simpl. rewrite insert_insert_eq, <- app_assoc. simpl.
        f_equal; lia.
      * intros k Hk Hthrow Hbefore. eapply state_cast.
        { apply (HE (S k)); [lia| |].
          - replace (ticks st + S k) with (S (ticks st) + k) by lia. done.
          - intros [|k'] Hk'.
            + by rewrite Nat.add_0_r.
            + replace (ticks st + S k') with (S (ticks st) + k') by lia.
              apply Hbefore. lia. }
        simpl. rewrite insert_insert_eq, length_app. simpl.
        replace (length done + 1 + length xs)
          with (length done + S (length xs)) by lia.
        f_equal; lia.
    + intros Hthrow. unfold destroy_range, ptr_diff. simpl.
      replace (j + length done - j) with (length done) by lia.
      eapply wp_eq.
      { apply (destroy_n_eq bd done dpre
                 (None :: replicate (length xs) None ++ dpost) j); simpl; done. }
      simpl. eapply state_cast.
      { apply (HE 0); [lia| |].
        - by rewrite Nat.add_0_r.
        - intros k' Hk'. lia. }
      f_equal; try lia.
      rewrite replicate_add. simpl. by rewrite <- app_assoc.
Qed.

Lemma uninitialized_copy_n_wp bs bd xs spre spost dpre dpost i j st
    (Q : unit → state → Prop) (E : state → Prop) :
  bs ≠ bd →
  heap st !! bs = Some (spre ++ map Some xs ++ spost) → length spre = i →
  heap st !! bd = Some (dpre ++ replicate (length xs) None ++ dpost) →
  length dpre = j →
  ((∀ k, k < length xs → throws (ticks st + k) = false) →
   Q tt (mkState (<[bd := dpre ++ map Some xs ++ dpost]> (heap st))
                 (vecs st) (ticks st + length xs) (ctors st + length xs)
                 (dtors st))) →
  (∀ k, k < length xs → throws (ticks st + k) = true →
   (∀ k', k' < k → throws (ticks st + k') = false) →
   E (mkState (heap st) (vecs st) (ticks st + S k) (ctors st + k) (dtors st + k))) →
  wp False (uninitialized_copy_n (Some bs, i) (length xs) (Some bd, j)) st Q E.
Proof.
  intros Hne Hs Hi Hd Hj HQ HE. unfold uninitialized_copy_n.
  replace (Some bd, j) with (Some bd, j + length (@nil T)) at 2
    by (simpl; f_equal; lia).
  apply (uninitialized_copy_loop_wp bs bd xs Hne spre spost dpre [] dpost);
    try done.
  intros k Hk Hthrow Hbefore. simpl. rewrite insert_id by done.
  destruct st; by apply HE.
Qed.

Lemma uninitialized_copy_n_runs X bs bd xs spre spost dpre dpost i j st
    (Q : unit → state → Prop) :
  bs ≠ bd →
  heap st !! bs = Some (spre ++ map Some xs ++ spost) → length spre = i →
  heap st !! bd = Some (dpre ++ replicate (length xs) None ++ dpost) →
  length dpre = j →
  (∀ t', Q tt (mkState (<[bd := dpre ++ map Some xs ++ dpost]> (heap st))
                 (vecs st) t' (ctors st + length xs) (dtors st))) →
  runs X (uninitialized_copy_n (Some bs, i) (length xs) (Some bd, j)) st Q.
Proof.
  intros Hne Hs Hi Hd Hj HQ. apply wp_runs.
  apply (uninitialized_copy_n_wp bs bd xs spre spost dpre dpost); try done.
  - intros _. simpl. split; [done | lia].
  - intros k Hk Hthrow _ Hq. specialize (Hq (ticks st + k)).
    rewrite Hthrow in Hq. assert (true = false) by (apply Hq; lia). done.
Qed.

(** *** Slot-level rules for [runs] *)

Lemma runs_read X b i l v st (Q : T → state → Prop) :
  heap st !! b = Some l → l !! i = Some (Some v) → Q v st →
  runs X (read (Some b, i)) st Q.
Proof. intros Hb Hi HQ. by eapply runs_eq; [by apply (read_eq b i l v)| |]. Qed.

Lemma runs_write X b i l s st (Q : unit → state → Prop) :
  heap st !! b = Some l → i < length l →
  Q tt (set_heap (<[b := <[i := s]> l]> (heap st)) st) →
  runs X (write (Some b, i) s) st Q.
Proof. intros Hb Hi HQ. by eapply runs_eq; [by apply (write_eq b i l)| |]. Qed.

Lemma runs_maybe_fallible X (c : bool) st (Q : unit → state → Prop) :
  (∀ t', Q tt (set_ticks t' st)) →
  runs X (if c then ret tt else fallible) st Q.
Proof.
  intros HQ. destruct c.
  - apply runs_ret. specialize (HQ (ticks st)). by destruct st.
  - apply runs_fallible, HQ.
Qed.

Lemma runs_destroy_n X b xs pre post i st (Q : unit → state → Prop) :
  heap st !! b = Some (pre ++ map Some xs ++ post) → length pre = i →
  Q tt (mkState (<[b := pre ++ replicate (length xs) None ++ post]> (heap st))
                (vecs st) (ticks st) (ctors st) (dtors st + length xs)) →
  runs X (destroy_n (Some b, i) (length xs)) st Q.
Proof.
  intros Hb Hi HQ. by eapply runs_eq; [by apply destroy_n_eq| |].
Qed.

(** *** Moves between two blocks *)

Lemma move_construct_runs X bs i ls bd j ld v st (Q : unit → state → Prop) :
  bs ≠ bd →
  heap st !! bs = Some ls → ls !! i = Some (Some v) →
  heap st !! bd = Some ld → j < length ld →
  (∀ t', Q tt (mkState (<[bs := <[i := Some (moved_from v)]> ls]>
                          (<[bd := <[j := Some v]> ld]> (heap st)))
                 (vecs st) t' (S (ctors st)) (dtors st))) →
  runs X (move_construct (Some bd, j) (Some bs, i)) st Q.
Proof.
  intros Hne Hs Hi Hd Hj HQ. unfold move_construct.
  apply runs_bind, (runs_read _ bs i ls v); try done.
  apply runs_bind, runs_maybe_fallible. intros t'.
  apply runs_bind, (runs_write _ bd j ld); try done.
  apply runs_bind, runs_modify; [done|].
  apply (runs_write _ bs i ls); simpl.
  - by rewrite lookup_insert_ne.
  - eauto using lookup_lt_Some.
  - apply HQ.
Qed.

Lemma uninitialized_move_loop_runs X bs bd xs d_first (Hne : bs ≠ bd) :
  ∀ spre spost dpre dmid dpost i j st (Q : unit → state → Prop),
  heap st !! bs = Some (spre ++ map Some xs ++ spost) → length spre = i →
  heap st !! bd = Some (dpre ++ dmid ++ dpost) →
  length dpre = j → length dmid = length xs →
  (∀ t', Q tt (mkState (<[bs := spre ++ map Some (map moved_from xs) ++ spost]>
                          (<[bd := dpre ++ map Some xs ++ dpost]> (heap st)))
                 (vecs st) t' (ctors st + length xs) (dtors st))) →
  runs X (uninitialized_move_loop (Some bs, i) d_first (Some bd, j) (length xs)) st Q.
Proof.
  induction xs as [|x xs IH];
    intros spre spost dpre dmid dpost i j st Q Hs Hi Hd Hj Hm HQ; simpl in *.
  - apply runs_ret. destruct dmid; [|done]. simpl in *.
    specialize (HQ (ticks st)). rewrite Nat.add_0_r in HQ.
    rewrite !insert_id in HQ; try done.
    + by destruct st.
    + by rewrite lookup_insert_ne.
  - destruct dmid as [|m dmid]; [done|]. simpl in Hm.
    apply runs_bind, runs_on_unwind.
    eapply (move_construct_runs _ bs i _ bd j _ x _ _ Hne Hs).
    + by apply lookup_middle.
    + exact Hd.
    + by apply length_middle.
    + intros t'. simpl.
      rewrite (insert_middle spre), (insert_middle dpre) by done.
      unfold ptr_add. simpl.
      apply (IH (spre ++ [Some (moved_from x)]) spost (dpre ++ [Some x]) dmid dpost);
        simpl.
      * rewrite lookup_insert_eq. by rewrite <- app_assoc.
      * rewrite length_app. simpl. lia.
      * rewrite lookup_insert_ne by done. rewrite lookup_insert_eq.
        by rewrite <- app_assoc.
      * rewrite length_app. simpl. lia.
      * lia.
      * intros t''. eapply state_cast; [apply (HQ t'')|].
        rewrite insert2_insert2 by done.
        rewrite <- !app_assoc. simpl. f_equal. lia.
Qed.

Lemma uninitialized_move_n_runs X bs bd xs spre spost dpre dmid dpost i j st
    (Q : unit → state → Prop) :
  bs ≠ bd →
  heap st !! bs = Some (spre ++ map Some xs ++ spost) → length spre = i →
  heap st !! bd = Some (dpre ++ dmid ++ dpost) →
  length dpre = j → length dmid = length xs →
  (∀ t', Q tt (mkState (<[bs := spre ++ map Some (map moved_from xs) ++ spost]>
                          (<[bd := dpre ++ map Some xs ++ dpost]> (heap st)))
                 (vecs st) t' (ctors st + length xs) (dtors st))) →
  runs X (uninitialized_move_n (Some bs, i) (length xs) (Some bd, j)) st Q.
Proof.
  intros. by eapply uninitialized_move_loop_runs.
Qed.

Lemma runs_destroy_n' X b xs pre post i n st (Q : unit → state → Prop) :
  heap st !! b = Some (pre ++ map Some xs ++ post) → length pre = i →
  length xs = n →
  Q tt (mkState (<[b := pre ++ replicate n None ++ post]> (heap st))
                (vecs st) (ticks st) (ctors st) (dtors st + n)) →
  runs X (destroy_n (Some b, i) n) st Q.
Proof. intros Hb Hi <-. by apply runs_destroy_n. Qed.

(** The relocation selected by the [if constexpr]: the destination receives
    the values, the source keeps live objects (the originals or what the
    moves left of them). *)
Lemma relocate_runs X bs bd xs spre spost dpre dpost i j n st
    (Q : unit → state → Prop) :
  bs ≠ bd →
  heap st !! bs = Some (spre ++ map Some xs ++ spost) → length spre = i →
  heap st !! bd = Some (dpre ++ replicate n None ++ dpost) →
  length dpre = j → length xs = n →
  (∀ t' ys, length ys = n →
     Q tt (mkState (<[bs := spre ++ map Some ys ++ spost]>
                      (<[bd := dpre ++ map Some xs ++ dpost]> (heap st)))
                   (vecs st) t' (ctors st + n) (dtors st))) →
  runs X (if relocate_by_move
          then uninitialized_move_n (Some bs, i) n (Some bd, j)
          else uninitialized_copy_n (Some bs, i) n (Some bd, j)) st Q.
Proof.
  intros Hne Hs Hi Hd Hj <- HQ. destruct relocate_by_move.
  - apply (uninitialized_move_n_runs _ bs bd xs spre spost dpre
             (replicate (length xs) None) dpost); try done.
    + by rewrite length_replicate.
    + intros t'. apply HQ. by rewrite length_map.
  - apply (uninitialized_copy_n_runs _ bs bd xs spre spost dpre dpost); try done.
    intros t'. eapply state_cast; [apply (HQ t' xs); done|].
    f_equal. apply insert_id. by rewrite lookup_insert_ne.
Qed.

Lemma MoveOrCopy_runs X bs bd xs spre spost dpre dpost i j n st
    (Q : unit → state → Prop) :
  bs ≠ bd →
  heap st !! bs = Some (spre ++ map Some xs ++ spost) → length spre = i →
  heap st !! bd = Some (dpre ++ replicate n None ++ dpost) →
  length dpre = j → length xs = n →
  (∀ t', Q tt (mkState (<[bs := spre ++ replicate n None ++ spost]>
                          (<[bd := dpre ++ map Some xs ++ dpost]> (heap st)))
                 (vecs st) t' (ctors st + n) (dtors st + n))) →
  runs X (MoveOrCopy (Some bs, i) n (Some bd, j)) st Q.
Proof.
  intros Hne Hs Hi Hd Hj Hn HQ. unfold MoveOrCopy.
  apply runs_bind, (relocate_runs _ bs bd xs spre spost dpre dpost); try done.
  intros t' ys Hys.
  apply (runs_destroy_n' _ bs ys spre spost); simpl; try done.
  - by rewrite lookup_insert_eq.
  - rewrite insert_insert_eq. apply HQ.
Qed.

(** Relocating no object touches nothing, whatever the pointers. *)
Lemma relocate_nil_runs X p q st (Q : unit → state → Prop) :
  Q tt st →
  runs X (if relocate_by_move
          then uninitialized_move_n p 0 q
          else uninitialized_copy_n p 0 q) st Q.
Proof. intros HQ. by destruct relocate_by_move; apply runs_ret. Qed.

(** *** Allocation *)

Lemma slots_of_bytes n :
  (N.of_nat n * sizeof_T < SizeT.modulus)%N →
  N.to_nat (SizeT.wrap (N.of_nat n * sizeof_T) / sizeof_T) = n.
Proof.
  intros H. rewrite wrap_small by done.
  rewrite N.div_mul by lia. lia.
Qed.

Lemma fresh_block_unused (h : gmap block (list slot)) : h !! fresh (dom h) = None.
Proof. apply not_elem_of_dom, is_fresh. Qed.

Lemma RawMemory_ctor_runs (X : Prop) n st (Q : RawMemory → state → Prop) :
  (X → (N.of_nat n * sizeof_T ≤ SizeT.ptrdiff_max)%N) →
  (N.of_nat n * sizeof_T < SizeT.modulus)%N →
  (n = 0 → Q (mkRawMemory None 0) st) →
  (n ≠ 0 → (N.of_nat n * sizeof_T ≤ SizeT.ptrdiff_max)%N →
   ∀ b, heap st !! b = None →
     Q (mkRawMemory (Some b) n)
       (mkState (<[b := replicate n None]> (heap st)) (vecs st)
                (S (ticks st)) (ctors st) (dtors st))) →
  runs X (RawMemory_ctor n) st Q.
Proof.
  intros HX Hwrap H0 HS. unfold RawMemory_ctor, Allocate.
  destruct (Nat.eqb_spec n 0) as [->|Hn].
  - apply runs_bind, runs_ret, runs_ret. by apply H0.
  - apply runs_bind, runs_bind. unfold operator_new.
    destruct (N.ltb_spec SizeT.ptrdiff_max (SizeT.wrap (N.of_nat n * sizeof_T)))
      as [Hbig|Hfit]; rewrite wrap_small in * by done.
    + unfold runs, throw. intros [HX' _]. apply HX in HX'. lia.
    + apply runs_bind, runs_fallible.
      eapply runs_eq; [reflexivity| simpl; lia |].
      apply runs_ret, runs_ret. simpl.
      rewrite N.div_mul by lia. rewrite Nat2N.id.
      apply HS; try done. apply fresh_block_unused.
Qed.

Lemma runs_RawMemory_dtor X b n l st (Q : unit → state → Prop) :
  heap st !! b = Some l →
  Q tt (set_heap (delete b (heap st)) st) →
  runs X (RawMemory_dtor (mkRawMemory (Some b) n)) st Q.
Proof.
  intros Hb HQ.
  apply (runs_eq _ _ _ tt (set_heap (delete b (heap st)) st)); [|done|done].
  unfold RawMemory_dtor, Deallocate. simpl. by rewrite Hb.
Qed.

Lemma runs_get_vec X this V st (Q : Vector → state → Prop) :
  vecs st !! this = Some V → Q V st → runs X (get_vec this) st Q.
Proof.
  intros HV HQ. apply (runs_eq _ _ _ V st); [|done|done].
  unfold get_vec. by rewrite HV.
Qed.

Lemma runs_put_vec X this V st (Q : unit → state → Prop) :
  Q tt (set_vecs (<[this := V]> (vecs st)) st) → runs X (put_vec this V) st Q.
Proof. intros HQ. by apply runs_modify. Qed.

Lemma capacity_bound n :
  (N.of_nat n * sizeof_T ≤ SizeT.ptrdiff_max)%N → (N.of_nat n ≤ SizeT.ptrdiff_max)%N.
Proof. intros H. nia. Qed.

Lemma grown_capacity_spec n :
  (N.of_nat n * sizeof_T ≤ SizeT.ptrdiff_max)%N →
  grown_capacity n = Nat.max 1 (2 * n).
Proof.
  intros H. unfold grown_capacity. destruct (Nat.eqb_spec n 0) as [->|Hn].
  - reflexivity.
  - rewrite double_small by by apply capacity_bound. lia.
Qed.

Lemma grown_capacity_word n :
  (N.of_nat n * sizeof_T ≤ SizeT.ptrdiff_max)%N →
  (N.of_nat (grown_capacity n) * sizeof_T < SizeT.modulus)%N.
Proof.
  intros H. rewrite grown_capacity_spec by done.
  unfold SizeT.ptrdiff_max, SizeT.modulus in *.
  destruct (decide (n = 0)) as [->|Hn].
  - simpl. lia.
  - replace (Nat.max 1 (2 * n)) with (2 * n) by lia. lia.
Qed.

Lemma insert_replicate_split {A} (x y : A) i n :
  i < n → <[i := x]> (replicate n y) = replicate i y ++ x :: replicate (n - S i) y.
Proof.
  intros Hi. replace n with (i + S (n - S i)) at 1 by lia.
  rewrite replicate_add. simpl. apply insert_middle, length_replicate.
Qed.

(** ** [EmplaceBack] *)

Lemma EmplaceBack_runs this V els v st :
  vecs st !! this = Some V → valid st V els →
  runs (N.of_nat (grown_capacity (size_ V)) * sizeof_T ≤ SizeT.ptrdiff_max)%N
    (EmplaceBack this v) st
    (fun t st' => ∃ V',
       vecs st' = <[this := V']> (vecs st) ∧
       valid st' V' (els ++ [v]) ∧
       t = (buffer_ (data_ V'), size_ V) ∧
       capacity_ (data_ V') =
         (if size_ V =? capacity_ (data_ V) then grown_capacity (size_ V)
          else capacity_ (data_ V))).
Proof.
  intros HV (Hlen & Hsz & Hcap & Hbuf).
  destruct V as [[buf cap] size]. simpl in *.
  unfold EmplaceBack.
  apply runs_bind, (runs_get_vec _ this _ _ _ HV).
  apply runs_bind. unfold Capacity, RawMemory_Capacity. simpl.
  destruct (Nat.eqb_spec size cap) as [->|Hroom].
  - (* the vector is full *)
    pose proof (grown_capacity_spec cap Hcap) as Hgrow.
    apply runs_bind, RawMemory_ctor_runs.
    { done. }
    { by apply grown_capacity_word. }
    { lia. }
    intros _ Hfit b' Hb'.
    apply runs_bind, runs_on_unwind, runs_bind.
    unfold RawMemory_plus. simpl.
    apply runs_bind, runs_assert; [apply Nat.leb_le; lia|].
    apply runs_ret. unfold ptr_add, GetAddress. simpl.
    apply runs_bind,
      (construct_at_runs _ b' cap (replicate (grown_capacity cap) None)); simpl.
    { by rewrite lookup_insert_eq. }
    { rewrite length_replicate. lia. }
    rewrite insert_insert_eq, insert_replicate_split by lia.
    apply runs_bind.
    destruct buf as [b|].
    + assert (b ≠ b') as Hne by (intros ->; congruence).
      rewrite Nat.sub_diag in Hbuf.
      apply (relocate_runs _ b b' els [] (replicate 0 None) []
               (Some v :: replicate (grown_capacity cap - S cap) None) 0 0 cap);
        simpl; try done.
      { by rewrite lookup_insert_ne. }
      { by rewrite lookup_insert_eq. }
      intros t' ys Hys.
      apply runs_bind, (runs_destroy_n' _ b ys [] [] 0 cap); simpl; try done.
      { by rewrite lookup_insert_eq. }
      rewrite insert_insert_eq. apply runs_ret.
      apply runs_bind, runs_put_vec. st_simpl.
      apply runs_bind, (runs_RawMemory_dtor _ b cap (replicate cap None ++ [])); st_simpl.
      { by rewrite lookup_insert_eq. }
      apply runs_ret.
      apply runs_bind.
      eapply (runs_get_vec _ this); [simpl; by rewrite lookup_insert_eq|].
      simpl.
      apply runs_bind, runs_put_vec. st_simpl. apply runs_ret.
      eexists. split; [simpl; rewrite insert_insert_eq; reflexivity|]. unfold valid. simpl.
      repeat split; try done.
      * rewrite length_app. simpl. lia.
      * lia.
      * rewrite delete_insert_eq, lookup_delete_ne, lookup_insert_eq by done.
        by rewrite map_app, <- app_assoc.
    + (* an empty vector without a block *)
      subst cap. destruct els; [|done]. simpl.
      apply relocate_nil_runs.
      apply runs_bind, runs_ret, runs_ret.
      apply runs_bind, runs_put_vec. st_simpl.
      apply runs_bind, runs_ret, runs_ret.
      apply runs_bind.
      eapply (runs_get_vec _ this); [simpl; by rewrite lookup_insert_eq|].
      simpl.
      apply runs_bind, runs_put_vec. st_simpl. apply runs_ret.
      eexists. split; [simpl; rewrite insert_insert_eq; reflexivity|]. unfold valid. simpl.
      repeat split; try done.
      by rewrite lookup_insert_eq.
  - (* there is room *)
    destruct buf as [b|]; [|lia].
    apply runs_bind. unfold RawMemory_plus. simpl.
    apply runs_bind, runs_assert; [apply Nat.leb_le; lia|].
    apply runs_ret. unfold ptr_add, GetAddress. simpl.
    apply runs_bind, (construct_at_runs _ b size _ _ _ _ Hbuf).
    { rewrite length_app, length_map, length_replicate. lia. }
    apply runs_ret.
    apply runs_bind, (runs_get_vec _ this (mkVector (mkRawMemory (Some b) cap) size));
      [exact HV|].
    apply runs_bind, runs_put_vec. st_simpl. apply runs_ret.
    eexists. split; [done|]. unfold valid. simpl.
    repeat split; try done.
    + rewrite length_app. simpl. lia.
    + lia.
    + rewrite lookup_insert_eq. f_equal.
      replace (cap - size) with (S (cap - S size)) by lia. simpl.
      rewrite insert_middle by by rewrite length_map.
      by rewrite map_app, <- app_assoc.
Qed.

(** ** Moves inside one block *)

Lemma move_assign_elem_runs X b i j l v w st (Q : unit → state → Prop) :
  heap st !! b = Some l → l !! i = Some (Some v) → l !! j = Some (Some w) →
  (∀ t', Q tt (mkState (<[b := <[i := Some (moved_from v)]> (<[j := Some v]> l)]>
                          (heap st))
                 (vecs st) t' (ctors st) (dtors st))) →
  runs X (move_assign_elem (Some b, j) (Some b, i)) st Q.
Proof.
  intros Hb Hi Hj HQ. unfold move_assign_elem.
  apply runs_bind, (runs_read _ b i l v); try done.
  apply runs_bind, (runs_read _ b j l w); try done.
  apply runs_bind, runs_maybe_fallible. intros t'.
  apply runs_bind, (runs_write _ b j l); try done.
  { eauto using lookup_lt_Some. }
  apply (runs_write _ b i (<[j := Some v]> l)); st_simpl.
  - by rewrite lookup_insert_eq.
  - rewrite length_insert. eauto using lookup_lt_Some.
  - rewrite insert_insert_eq. apply HQ.
Qed.

Lemma move_construct_same_runs X b i j l v st (Q : unit → state → Prop) :
  heap st !! b = Some l → l !! i = Some (Some v) → j < length l →
  (∀ t', Q tt (mkState (<[b := <[i := Some (moved_from v)]> (<[j := Some v]> l)]>
                          (heap st))
                 (vecs st) t' (S (ctors st)) (dtors st))) →
  runs X (move_construct (Some b, j) (Some b, i)) st Q.
Proof.
  intros Hb Hi Hj HQ. unfold move_construct.
  apply runs_bind, (runs_read _ b i l v); try done.
  apply runs_bind, runs_maybe_fallible. intros t'.
  apply runs_bind, (runs_write _ b j l); try done.
  apply runs_bind, runs_modify; [done|].
  apply (runs_write _ b i (<[j := Some v]> l)); st_simpl.
  - by rewrite lookup_insert_eq.
  - rewrite length_insert. eauto using lookup_lt_Some.
  - rewrite insert_insert_eq. apply HQ.
Qed.

Lemma move_assign_local_runs X b j l v w st (Q : unit → state → Prop) :
  heap st !! b = Some l → l !! j = Some (Some w) →
  (∀ t', Q tt (mkState (<[b := <[j := Some v]> l]> (heap st))
                 (vecs st) t' (ctors st) (dtors st))) →
  runs X (move_assign_local (Some b, j) v) st Q.
Proof.
  intros Hb Hj HQ. unfold move_assign_local.
  apply runs_bind, (runs_read _ b j l w); try done.
  apply runs_bind, runs_maybe_fallible. intros t'.
  apply (runs_write _ b j l); try done.
  { eauto using lookup_lt_Some. }
  apply HQ.
Qed.

(** [std::move] of the objects after slot [i] one slot to the front: the
    slot behind the last of them keeps a live, moved-from object. *)
Lemma std_move_n_runs X b ys :
  ∀ pre x post i st (Q : unit → state → Prop),
  heap st !! b = Some (pre ++ Some x :: map Some ys ++ post) → length pre = i →
  (∀ t' z, Q tt (mkState (<[b := pre ++ map Some ys ++ Some z :: post]> (heap st))
                   (vecs st) t' (ctors st) (dtors st))) →
  runs X (std_move_n (Some b, i + 1) (length ys) (Some b, i)) st Q.
Proof.
  induction ys as [|y ys IH]; intros pre x post i st Q Hb Hi HQ; simpl in *.
  - apply runs_ret. specialize (HQ (ticks st) x).
    rewrite insert_id in HQ by done. by destruct st.
  - apply runs_bind.
    eapply (move_assign_elem_runs _ b (i + 1) i _ y x); [exact Hb| | |].
    { apply (lookup_middle2 pre [Some x]). simpl. lia. }
    { by apply lookup_middle. }
    intros t'. rewrite (insert_middle pre) by done.
    rewrite insert_middle_next by done.
    unfold ptr_add. simpl.
    apply (IH (pre ++ [Some y]) (moved_from y) post (i + 1)); simpl.
    + rewrite lookup_insert_eq. by rewrite <- app_assoc.
    + rewrite length_app. simpl. lia.
    + intros t'' z. rewrite insert_insert_eq, <- app_assoc. apply HQ.
Qed.

(** [std::move_backward] of the objects from slot [i] on one slot to the
    back, into a slot holding a live object: slot [i] keeps a live,
    moved-from object. *)
Lemma std_move_backward_n_runs X b xs :
  ∀ pre y post i st (Q : unit → state → Prop),
  heap st !! b = Some (pre ++ map Some xs ++ Some y :: post) → length pre = i →
  (∀ t' z, Q tt (mkState (<[b := pre ++ Some z :: map Some xs ++ post]> (heap st))
                   (vecs st) t' (ctors st) (dtors st))) →
  runs X (std_move_backward_n (Some b, i + length xs) (length xs)
            (Some b, i + length xs + 1)) st Q.
Proof.
  induction xs as [|x xs IH] using rev_ind; intros pre y post i st Q Hb Hi HQ.
  - simpl in *. apply runs_ret. specialize (HQ (ticks st) y).
    rewrite insert_id in HQ by done. by destruct st.
  - rewrite length_app. simpl.
    replace (length xs + 1) with (S (length xs)) by lia. simpl.
    apply runs_bind. unfold ptr_sub. simpl.
    rewrite map_app, <- app_assoc in Hb. simpl in Hb.
    replace (i + S (length xs) + 1 - 1) with (S (i + length xs)) by lia.
    replace (i + S (length xs) - 1) with (i + length xs) by lia.
    eapply (move_assign_elem_runs _ b (i + length xs) (S (i + length xs)) _ x y);
      [exact Hb| | |].
    { apply lookup_middle2. rewrite length_map. lia. }
    { apply lookup_middle2_next. rewrite length_map. lia. }
    intros t'.
    rewrite insert_middle2_next by (rewrite length_map; lia).
    rewrite insert_middle2 by (rewrite length_map; lia).
    replace (S (i + length xs)) with (i + length xs + 1) by lia.
    apply (IH pre (moved_from x) (Some x :: post) i); simpl.
    + by rewrite lookup_insert_eq.
    + done.
    + intros t'' z. rewrite insert_insert_eq.
      eapply state_cast; [apply (HQ t'' z)|].
      by rewrite map_app, <- app_assoc.
Qed.

(** ** [PopBack] and [Erase] *)

Lemma valid_nonempty_block st V els :
  valid st V els → 0 < capacity_ (data_ V) → ∃ b, buffer_ (data_ V) = Some b.
Proof.
  intros (_ & _ & _ & Hbuf) Hcap. destruct (buffer_ (data_ V)); [eauto | lia].
Qed.

Lemma PopBack_eq this b cap size els x st :
  vecs st !! this = Some (mkVector (mkRawMemory (Some b) cap) size) →
  valid st (mkVector (mkRawMemory (Some b) cap) size) (els ++ [x]) →
  PopBack this st =
    Ok tt (mkState
             (<[b := <[size - 1 := None]>
                       (map Some (els ++ [x]) ++ replicate (cap - size) None)]>
                (heap st))
             (<[this := mkVector (mkRawMemory (Some b) cap) (size - 1)]> (vecs st))
             (ticks st) (ctors st) (S (dtors st))).
Proof.
  intros HV (Hlen & Hsz & Hcap & Hbuf). simpl in *.
  rewrite length_app in Hlen. simpl in Hlen.
  unfold PopBack, bind, get_vec. rewrite HV. simpl.
  destruct (Nat.ltb_spec 0 size) as [_|]; [|lia].
  unfold ptr_sub, ptr_add, GetAddress. simpl.
  rewrite (destroy_at_eq b (size - 1) _ x _ Hbuf).
  - reflexivity.
  - rewrite map_app, <- app_assoc. simpl.
    apply lookup_middle. rewrite length_map. lia.
Qed.

Lemma PopBack_valid this b cap size els x st :
  valid st (mkVector (mkRawMemory (Some b) cap) size) (els ++ [x]) →
  valid (mkState
           (<[b := <[size - 1 := None]>
                     (map Some (els ++ [x]) ++ replicate (cap - size) None)]>
              (heap st))
           (<[this := mkVector (mkRawMemory (Some b) cap) (size - 1)]> (vecs st))
           (ticks st) (ctors st) (S (dtors st)))
        (mkVector (mkRawMemory (Some b) cap) (size - 1)) els.
Proof.
  intros (Hlen & Hsz & Hcap & Hbuf). simpl in *.
  rewrite length_app in Hlen. simpl in Hlen.
  unfold valid. simpl. repeat split; try lia.
  rewrite lookup_insert_eq. f_equal.
  rewrite map_app, <- app_assoc. simpl.
  rewrite insert_middle by (rewrite length_map; lia).
  replace (cap - (size - 1)) with (S (cap - size)) by lia. done.
Qed.

Lemma Erase_runs X this V front x back st :
  vecs st !! this = Some V → valid st V (front ++ x :: back) →
  runs X (Erase this (ptr_add (begin_ V) (length front))) st
    (fun q st' => ∃ V',
       vecs st' = <[this := V']> (vecs st) ∧
       valid st' V' (front ++ back) ∧
       data_ V' = data_ V ∧
       q = ptr_add (begin_ V') (length front)).
Proof.
  intros HV Hvalid.
  destruct V as [[buf cap] size].
  destruct (valid_nonempty_block _ _ _ Hvalid) as [b Hb].
  { destruct Hvalid as (Hlen & Hsz & _). simpl in *.
    rewrite length_app in Hlen. simpl in Hlen. lia. }
  simpl in Hb. subst buf.
  pose proof Hvalid as (Hlen & Hsz & Hcap & Hbuf). simpl in *.
  rewrite length_app in Hlen. simpl in Hlen.
  unfold Erase.
  apply runs_bind, (runs_get_vec _ this _ _ _ HV).
  unfold begin_, end_, GetAddress, ptr_add, ptr_diff. simpl.
  apply runs_bind, runs_assert.
  { unfold ptr_leb, ptr_ltb. simpl. rewrite bool_decide_eq_true_2 by done. simpl.
    apply Nat.ltb_lt. lia. }
  rewrite Nat.sub_0_r.
  apply runs_bind. unfold std_move, ptr_diff. simpl.
  replace (size - (length front + 1)) with (length back) by lia.
  rewrite map_app in Hbuf. simpl in Hbuf. rewrite <- !app_assoc in Hbuf.
  simpl in Hbuf.
  apply (std_move_n_runs _ b back (map Some front) x
           (replicate (cap - size) None) (length front)); try done.
  { by rewrite length_map. }
  intros t' z.
  set (st1 := mkState _ _ _ _ _).
  assert (valid st1 (mkVector (mkRawMemory (Some b) cap) size)
            ((front ++ back) ++ [z])) as Hvalid1.
  { unfold valid, st1. simpl. repeat split; try done.
    - rewrite !length_app. simpl. lia.
    - rewrite lookup_insert_eq. f_equal.
      rewrite !map_app, <- !app_assoc. done. }
  apply runs_bind.
  eapply runs_eq; [by apply (PopBack_eq this b cap size (front ++ back) z)|done|].
  apply runs_bind.
  eapply (runs_get_vec _ this); [simpl; by rewrite lookup_insert_eq|].
  apply runs_ret. eexists. split; [|split; [|split]].
  - simpl. reflexivity.
  - by apply PopBack_valid.
  - done.
  - done.
Qed.

(** ** [Emplace] *)

Lemma Emplace_runs this V front back v st :
  vecs st !! this = Some V → valid st V (front ++ back) →
  runs (N.of_nat (grown_capacity (size_ V)) * sizeof_T ≤ SizeT.ptrdiff_max)%N
    (Emplace this (ptr_add (begin_ V) (length front)) v) st
    (fun p st' => ∃ V',
       vecs st' = <[this := V']> (vecs st) ∧
       valid st' V' (front ++ v :: back) ∧
       p = ptr_add (begin_ V') (length front)).
Proof.
  intros HV Hvalid.
  pose proof Hvalid as (Hlen & Hsz & Hcap & Hbuf).
  rewrite length_app in Hlen.
  unfold Emplace.
  apply runs_bind, (runs_get_vec _ this _ _ _ HV).
  apply runs_bind, runs_assert.
  { unfold ptr_leb, begin_, end_, ptr_add, GetAddress. simpl.
    rewrite !bool_decide_eq_true_2 by done. simpl. apply Nat.leb_le. lia. }
  unfold ptr_eqb, begin_, end_, ptr_add, GetAddress, ptr_diff. simpl.
  rewrite bool_decide_eq_true_2 by done. simpl.
  destruct (Nat.eqb_spec (length front) (size_ V)) as [Hend|Hmid].
  { (* at the end: [EmplaceBack] *)
    destruct back; [|simpl in Hlen; lia].
    rewrite app_nil_r in Hvalid.
    eapply runs_mono; [by apply (EmplaceBack_runs this V front)|].
    intros p st' (V' & Hvecs & Hvalid' & -> & _).
    exists V'. split; [done|]. split; [done|].
    unfold ptr_add, begin_, GetAddress. simpl. by rewrite Hend. }
  destruct V as [[buf cap] size]. simpl in *.
  destruct (valid_nonempty_block _ _ _ Hvalid) as [b Hb]; [simpl; lia|].
  simpl in Hb. subst buf. rewrite Nat.sub_0_r.
  unfold Capacity, RawMemory_Capacity. simpl.
  destruct (Nat.eqb_spec size cap) as [->|Hroom].
  - (* the vector is full: a new block *)
    pose proof (grown_capacity_spec cap Hcap) as Hgrow.
    rewrite Nat.sub_diag in Hbuf.
    apply runs_bind, RawMemory_ctor_runs.
    { done. }
    { by apply grown_capacity_word. }
    { lia. }
    intros _ Hfit b' Hb'.
    assert (b ≠ b') as Hne by (intros ->; congruence).
    apply runs_bind, runs_on_unwind, runs_bind.
    unfold RawMemory_plus. simpl.
    apply runs_bind, runs_assert; [apply Nat.leb_le; lia|].
    apply runs_ret. unfold ptr_add, GetAddress. simpl.
    apply runs_bind,
      (construct_at_runs _ b' (length front) (replicate (grown_capacity cap) None));
      simpl.
    { by rewrite lookup_insert_eq. }
    { rewrite length_replicate. lia. }
    rewrite insert_insert_eq, insert_replicate_split by lia.
    apply runs_bind, runs_on_unwind.
    apply (MoveOrCopy_runs _ b b' front [] (map Some back ++ replicate 0 None) []
             (Some v :: replicate (grown_capacity cap - S (length front)) None)
             0 0 (length front)); simpl; try done.
    { rewrite lookup_insert_ne by done. by rewrite Hbuf, map_app, <- app_assoc. }
    { by rewrite lookup_insert_eq. }
    intros t1.
    apply runs_on_unwind, runs_bind.
    apply runs_bind, runs_assert; [apply Nat.leb_le; lia|].
    apply runs_ret, runs_bind.
    apply runs_bind, runs_assert; [apply Nat.leb_le; lia|].
    apply runs_ret. simpl.
    apply (MoveOrCopy_runs _ b b' back (replicate (length front) None) []
             (map Some front ++ [Some v])
             (replicate (grown_capacity cap - S cap) None)
             (length front) (length front + 1) (cap - length front)); simpl.
    { done. }
    { rewrite lookup_insert_eq. by rewrite app_nil_r. }
    { by rewrite length_replicate. }
    { rewrite lookup_insert_ne, lookup_insert_eq by done. f_equal.
      rewrite <- app_assoc. simpl. do 2 f_equal.
      rewrite <- replicate_add. f_equal. lia. }
    { rewrite length_app, length_map. simpl. lia. }
    { lia. }
    intros t2. rewrite insert2_insert2 by done.
    apply runs_bind, runs_put_vec. st_simpl.
    apply runs_bind.
    eapply (runs_get_vec _ this); [simpl; by rewrite lookup_insert_eq|].
    apply runs_bind, runs_put_vec. st_simpl.
    apply runs_bind.
    eapply (runs_get_vec _ this); [simpl; by rewrite lookup_insert_eq|].
    apply runs_bind, (runs_RawMemory_dtor _ b cap
                        (replicate (length front) None ++
                         replicate (cap - length front) None ++ [])); st_simpl.
    { by rewrite lookup_insert_eq. }
    apply runs_ret. eexists.
    split; [simpl; rewrite !insert_insert_eq; reflexivity|].
    unfold valid. simpl. repeat split; try done.
    + rewrite length_app. simpl. lia.
    + lia.
    + rewrite delete_insert_eq, lookup_delete_ne, lookup_insert_eq by done.
      f_equal. rewrite map_app, <- !app_assoc. done.
  - (* there is room: shift in place *)
    destruct (exists_last (l := back)) as (mid & lastv & ->).
    { intros ->. simpl in Hlen. lia. }
    rewrite length_app in Hlen. simpl in Hlen.
    assert (size = S (length front + length mid)) as -> by lia.
    set (k := length front + length mid) in *.
    apply runs_bind, runs_fallible.
    apply runs_bind, runs_modify; [done|]. st_simpl.
    apply runs_bind, runs_on_unwind.
    apply runs_bind. unfold RawMemory_at. simpl.
    apply runs_bind, runs_assert; [apply Nat.ltb_lt; lia|].
    apply runs_ret. unfold ptr_add, GetAddress. simpl.
    rewrite !Nat.sub_0_r.
    assert (map Some (front ++ mid ++ [lastv]) ++ replicate (cap - S k) None =
            map Some front ++ map Some mid ++
              Some lastv :: None :: replicate (cap - S (S k)) None) as Hblock.
    { rewrite !map_app, <- !app_assoc. simpl.
      replace (cap - S k) with (S (cap - S (S k))) by lia. done. }
    rewrite Hblock in Hbuf.
    apply runs_bind.
    eapply (move_construct_same_runs _ b k (S k) _ lastv); simpl.
    { exact Hbuf. }
    { apply lookup_middle2. rewrite !length_map. done. }
    { rewrite !length_app, !length_map. simpl. lia. }
    intros t1.
    rewrite insert_middle2_next by (rewrite !length_map; done).
    rewrite insert_middle2 by (rewrite !length_map; done).
    apply runs_bind. unfold std_move_backward, ptr_sub, ptr_diff. simpl.
    rewrite !Nat.sub_0_r.
    replace (k - length front) with (length mid) by (unfold k; lia).
    replace (Some b, S k) with (Some b, length front + length mid + 1)
      by (f_equal; unfold k; lia).
    replace (Some b, k) with (Some b, length front + length mid) by done.
    apply (std_move_backward_n_runs _ b mid (map Some front) (moved_from lastv)
             (Some lastv :: replicate (cap - S (S k)) None) (length front)); simpl.
    { by rewrite lookup_insert_eq. }
    { by rewrite length_map. }
    intros t2 z. rewrite insert_insert_eq.
    apply runs_bind. apply runs_bind, runs_assert; [apply Nat.ltb_lt; lia|].
    apply runs_ret. simpl.
    apply runs_bind.
    eapply (move_assign_local_runs _ b (length front) _ v z); simpl.
    { by rewrite lookup_insert_eq. }
    { apply lookup_middle. by rewrite length_map. }
    intros t3. rewrite insert_insert_eq, insert_middle by by rewrite length_map.
    apply runs_bind, runs_put_vec. st_simpl.
    apply runs_bind.
    eapply (runs_get_vec _ this); [simpl; by rewrite lookup_insert_eq|].
    apply runs_ret.
    apply runs_bind, runs_modify; [done|]. st_simpl.
    apply runs_ret. eexists.
    split; [simpl; reflexivity|].
    unfold valid. simpl. repeat split; try done.
    + rewrite !length_app. simpl. rewrite length_app. simpl. lia.
    + lia.
    + rewrite lookup_insert_eq. f_equal.
      rewrite !map_app. simpl. rewrite !map_app, <- !app_assoc. simpl.
      rewrite <- !app_assoc. done.
Qed.

(** ** The claims *)

(** C9.  When [size_ < Capacity()], [EmplaceBack] (and [PushBack], which only
    forwards to it) constructs the new element in place in slot [size_] of
    the vector's own block: on normal return that slot is the only one
    written, so the elements at [[0, size_)] keep their values; no other
    object is constructed or destroyed; the block and the capacity are the
    same and the size is one more.  If the constructor raises, nothing has
    changed.  It returns normally when the constructor does not raise. *)
Theorem EmplaceBack_in_place this V els v st :
  vecs st !! this = Some V → valid st V els → size_ V < Capacity V →
  ∃ b, buffer_ (data_ V) = Some b ∧
    match EmplaceBack this v st with
    | Ok t st' =>
        t = (Some b, size_ V) ∧
        heap st' =
          <[b := <[size_ V := Some v]>
                   (map Some els ++ replicate (Capacity V - size_ V) None)]>
            (heap st) ∧
        (∀ i, i < size_ V → load_slot (Some b, i) st' = load_slot (Some b, i) st) ∧
        vecs st' = <[this := mkVector (data_ V) (S (size_ V))]> (vecs st) ∧
        ctors st' = S (ctors st) ∧ dtors st' = dtors st ∧
        valid st' (mkVector (data_ V) (S (size_ V))) (els ++ [v])
    | Throw st' =>
        heap st' = heap st ∧ vecs st' = vecs st ∧
        ctors st' = ctors st ∧ dtors st' = dtors st
    | Fault => False
    end ∧
    (throws (ticks st) = false → ∃ t st', EmplaceBack this v st = Ok t st') ∧
    PushBack this v st =
      match EmplaceBack this v st with
      | Ok _ st' => Ok tt st'
      | Throw st' => Throw st'
      | Fault => Fault
      end.
Proof.
  intros HV Hvalid Hroom.
  destruct V as [[buf cap] size]. unfold Capacity, RawMemory_Capacity in *.
  simpl in *.
  destruct (valid_nonempty_block _ _ _ Hvalid) as [b Hb]; [simpl; lia|].
  simpl in Hb. subst buf. exists b. split; [done|].
  destruct Hvalid as (Hlen & Hsz & Hcap & Hbuf). simpl in *.
  assert (size < length (map Some els ++ replicate (cap - size) None)) as Hin.
  { rewrite length_app, length_map, length_replicate. lia. }
  split; [|split; [|done]].
  - unfold EmplaceBack, bind, get_vec. rewrite HV. simpl.
    unfold Capacity, RawMemory_Capacity. simpl.
    destruct (Nat.eqb_spec size cap) as [|_]; [lia|].
    unfold RawMemory_plus, bind, assert. simpl.
    destruct (Nat.leb_spec size cap) as [_|]; [|lia]. simpl.
    unfold construct_at, bind, fallible.
    destruct (throws (ticks st)); [done|].
    unfold ptr_add, GetAddress. simpl.
    rewrite (write_eq b size _ (Some v) (set_ticks (S (ticks st)) st) Hbuf Hin).
    simpl.
    rewrite HV. simpl. repeat split; try done.
    + intros i Hi. unfold load_slot. simpl.
      rewrite lookup_insert_eq, Hbuf.
      apply list_lookup_insert_ne. lia.
    + rewrite length_app. simpl. lia.
    + simpl. rewrite lookup_insert_eq. f_equal.
      replace (cap - size) with (S (cap - S size)) by lia. simpl.
      rewrite insert_middle by by rewrite length_map.
      by rewrite map_app, <- app_assoc.
  - intros Hok.
    unfold EmplaceBack, bind, get_vec. rewrite HV. simpl.
    unfold Capacity, RawMemory_Capacity. simpl.
    destruct (Nat.eqb_spec size cap) as [|_]; [lia|].
    unfold RawMemory_plus, bind, assert. simpl.
    destruct (Nat.leb_spec size cap) as [_|]; [|lia]. simpl.
    unfold construct_at, bind, fallible. rewrite Hok.
    unfold ptr_add, GetAddress. simpl.
    rewrite (write_eq b size _ (Some v) (set_ticks (S (ticks st)) st) Hbuf Hin).
    simpl.
    rewrite HV. simpl. eauto.
Qed.

(** C8.  [PopBack] never raises.  On a vector with elements it destroys the
    object in slot [size_ - 1], the only slot it touches, and decrements the
    size; on an empty vector it changes nothing at all.  The capacity and
    the other elements are as before. *)
Theorem PopBack_spec this V els st :
  vecs st !! this = Some V → valid st V els →
  (∀ st0 st1, PopBack this st0 ≠ Throw st1) ∧
  ∃ st', PopBack this st = Ok tt st' ∧
    (size_ V = 0 → st' = st) ∧
    (0 < size_ V →
     ∃ b, buffer_ (data_ V) = Some b ∧
       heap st' =
         <[b := <[size_ V - 1 := None]>
                  (map Some els ++ replicate (Capacity V - size_ V) None)]>
           (heap st) ∧
       vecs st' = <[this := mkVector (data_ V) (size_ V - 1)]> (vecs st) ∧
       ticks st' = ticks st ∧ ctors st' = ctors st ∧ dtors st' = S (dtors st) ∧
       valid st' (mkVector (data_ V) (size_ V - 1)) (removelast els)).
Proof.
  intros HV Hvalid. split.
  - intros st0 st1. unfold PopBack, bind, get_vec.
    destruct (vecs st0 !! this) as [V0|]; [|done].
    destruct (0 <? size_ V0); [|done].
    unfold destroy_at, bind, read.
    destruct (load_slot _ st0) as [[?|]|]; try done.
    unfold write. simpl. destruct (buffer_ (data_ V0)); [|done].
    destruct (heap st0 !! b); [|done]. by destruct (decide _).
  - destruct V as [[buf cap] size]. unfold Capacity, RawMemory_Capacity. simpl.
    destruct (decide (size = 0)) as [->|Hpos].
    + exists st. split; [|split; [done|lia]].
      unfold PopBack, bind, get_vec. by rewrite HV.
    + destruct (valid_nonempty_block _ _ _ Hvalid) as [b Hb].
      { destruct Hvalid as (_ & Hsz & _). simpl in *. lia. }
      simpl in Hb. subst buf.
      destruct (exists_last (l := els)) as (front & x & ->).
      { intros ->. destruct Hvalid as (Hlen & _). simpl in Hlen. lia. }
      eexists. split; [by apply (PopBack_eq this b cap size front x)|].
      split; [lia|]. intros _. exists b. simpl. split_and!; try done.
      rewrite removelast_last. by apply PopBack_valid.
Qed.

(** C7.  Self-assignment [a = a] leaves the whole state as it was: the
    elements, the size and the capacity of the vector, and everything else. *)
Theorem copy_assign_self this st :
  copy_assign this this st = Ok tt st.
Proof. unfold copy_assign. by rewrite decide_False by (intros H; by apply H). Qed.

(** C3, as the code has it.  Move-constructing [B] (at [this]) from [A] (at
    [other]) never raises, does not touch the free store and constructs or
    destroys no object: [B] takes over [A]'s block, and with it [A]'s
    elements in their order, [A]'s size and [A]'s capacity; [A] is left as a
    default-constructed vector, with size 0, no block and capacity 0. *)
Theorem Vector_move_ctor_spec this other A els st :
  vecs st !! other = Some A → this ≠ other → valid st A els →
  ∃ st', Vector_move_ctor this other st = Ok tt st' ∧
    heap st' = heap st ∧ ticks st' = ticks st ∧
    ctors st' = ctors st ∧ dtors st' = dtors st ∧
    vecs st' !! this = Some A ∧ valid st' A els ∧
    vecs st' !! other = Some Vector_default ∧ valid st' Vector_default [] ∧
    Size Vector_default = 0 ∧ Capacity Vector_default = 0 ∧
    (∀ l, l ≠ this → l ≠ other → vecs st' !! l = vecs st !! l).
Proof.
  intros HA Hne Hvalid.
  unfold Vector_move_ctor, Swap, bind, put_vec, get_vec, modify. st_simpl.
  repeat (first [rewrite lookup_insert_eq
                | rewrite lookup_insert_ne by done
                | rewrite HA]; simpl).
  eexists. split; [reflexivity|]. simpl.
  destruct A as [dataA sizeA]. simpl.
  do 4 (split; [reflexivity|]).
  split; [rewrite lookup_insert_ne by done; by rewrite lookup_insert_eq|].
  split; [exact Hvalid|].
  split; [by rewrite lookup_insert_eq|].
  split; [unfold valid; simpl; split_and!; (done || lia)|].
  do 2 (split; [reflexivity|]).
  intros l Hl1 Hl2. by rewrite !lookup_insert_ne by done.
Qed.

(** C10.  [Erase(p)] for [p] at index [i] of a live element returns the
    pointer to slot [i] of the same block, that is [p] itself: after the
    call that slot holds the element that followed the erased one, or is the
    new [end()] when the last element was erased.  The call returns normally
    when no move assignment raises. *)
Theorem Erase_returns_position this V els i st :
  vecs st !! this = Some V → valid st V els → i < size_ V →
  (∀ q st', Erase this (ptr_add (begin_ V) i) st = Ok q st' →
     q = ptr_add (begin_ V) i ∧
     ∃ V', vecs st' !! this = Some V' ∧
       q = ptr_add (begin_ V') i ∧
       size_ V' = size_ V - 1 ∧
       (S i < size_ V →
        ∃ y, els !! S i = Some y ∧ load_slot q st' = Some (Some y)) ∧
       (S i = size_ V → q = end_ V')) ∧
  (quiet st → ∃ q st', Erase this (ptr_add (begin_ V) i) st = Ok q st').
Proof.
  intros HV Hvalid Hi.
  pose proof Hvalid as (Hlen & _).
  destruct (lookup_lt_is_Some_2 els i) as [x Hx]; [lia|].
  pose proof (take_drop_middle els i x Hx) as Hsplit.
  assert (length (take i els) = i) as Hfront by (rewrite length_take; lia).
  rewrite <- Hsplit in Hvalid.
  pose proof (Erase_runs True this V (take i els) x (drop (S i) els) st HV Hvalid)
    as Hruns.
  rewrite Hfront in Hruns. split.
  - intros q st' Hok.
    destruct (runs_ok _ _ _ _ _ _ Hruns Hok)
      as (V' & Hvecs & Hvalid' & Hdata & ->).
    unfold begin_. rewrite Hdata. split; [done|].
    exists V'. split; [by rewrite Hvecs, lookup_insert_eq|].
    destruct Hvalid' as (Hlen' & Hsz' & _ & Hbuf').
    rewrite length_app, length_drop, Hfront in Hlen'.
    split; [by rewrite Hdata|]. split; [lia|]. split.
    + intros Hnext.
      destruct (lookup_lt_is_Some_2 els (S i)) as [y Hy]; [lia|].
      exists y. split; [done|].
      unfold load_slot, ptr_add, GetAddress. simpl.
      rewrite <- Hdata.
      destruct (buffer_ (data_ V')) as [b|]; [|lia].
      rewrite Hbuf'. rewrite lookup_app_l.
      2:{ rewrite length_map, length_app, length_drop, Hfront. lia. }
      rewrite lookup_map_Some.
      rewrite lookup_app_r by lia. rewrite Hfront, Nat.sub_diag.
      rewrite lookup_drop, Nat.add_0_r. by rewrite Hy.
    + intros Hlast. unfold end_, ptr_add. simpl.
      f_equal; [by rewrite Hdata | lia].
  - intros Hq. destruct (runs_quiet _ _ _ _ Hruns I Hq) as (q & st' & Hok & _).
    eauto.
Qed.

(** C6.  [Insert(p, v)] with [p] at index [i] in [[begin(), end()]]: on
    normal return the vector holds the old elements before index [i], then
    [v], then the old elements from index [i] on; the size is one more and
    the result points to slot [i].  [Erase] at the returned position then
    gives back the original sequence of elements and the original size.
    Both calls return normally when no fallible step raises (for [Insert]
    into a full vector, when the doubled capacity can be allocated). *)
Theorem Insert_Erase_round_trip this V els i v st :
  vecs st !! this = Some V → valid st V els → i ≤ size_ V →
  (∀ p st1, Insert this (ptr_add (begin_ V) i) v st = Ok p st1 →
     ∃ V1, vecs st1 !! this = Some V1 ∧
       valid st1 V1 (take i els ++ v :: drop i els) ∧
       size_ V1 = S (size_ V) ∧
       p = ptr_add (begin_ V1) i ∧
       (∀ q st2, Erase this p st1 = Ok q st2 →
          ∃ V2, vecs st2 !! this = Some V2 ∧
            valid st2 V2 els ∧ size_ V2 = size_ V) ∧
       (quiet st1 → ∃ q st2, Erase this p st1 = Ok q st2)) ∧
  ((N.of_nat (grown_capacity (size_ V)) * sizeof_T ≤ SizeT.ptrdiff_max)%N →
   quiet st →
   ∃ p st1, Insert this (ptr_add (begin_ V) i) v st = Ok p st1).
Proof.
  intros HV Hvalid Hi.
  pose proof Hvalid as (Hlen & _).
  assert (length (take i els) = i) as Hfront by (rewrite length_take; lia).
  rewrite <- (take_drop i els) in Hvalid.
  pose proof (Emplace_runs this V (take i els) (drop i els) v st HV Hvalid)
    as Hruns.
  rewrite Hfront in Hruns. unfold Insert. split.
  - intros p st1 Hok.
    destruct (runs_ok _ _ _ _ _ _ Hruns Hok) as (V1 & Hvecs & Hvalid1 & ->).
    assert (vecs st1 !! this = Some V1) as HV1
      by (by rewrite Hvecs, lookup_insert_eq).
    pose proof Hvalid1 as (Hlen1 & _).
    rewrite length_app in Hlen1. simpl in Hlen1.
    rewrite length_drop, Hfront in Hlen1.
    exists V1. split; [done|]. split; [done|]. split; [lia|]. split; [done|].
    pose proof (Erase_runs True this V1 (take i els) v (drop i els) st1 HV1 Hvalid1)
      as Hruns2.
    rewrite Hfront in Hruns2. split.
    + intros q st2 Hok2.
      destruct (runs_ok _ _ _ _ _ _ Hruns2 Hok2)
        as (V2 & Hvecs2 & Hvalid2 & _ & _).
      rewrite take_drop in Hvalid2.
      exists V2. split; [by rewrite Hvecs2, lookup_insert_eq|].
      split; [done|]. destruct Hvalid2 as (<- & _). done.
    + intros Hq.
      destruct (runs_quiet _ _ _ _ Hruns2 I Hq) as (q & st2 & Hok2 & _). eauto.
  - intros Hfits Hq.
    destruct (runs_quiet _ _ _ _ Hruns Hfits Hq) as (p & st1 & Hok & _). eauto.
Qed.

(** ** What the operations do to the capacity *)

Lemma keeps_ret {A} (a : A) : keeps_vecs (ret a).
Proof. by intros st. Qed.

Lemma keeps_bind {A B} (m : M A) (f : A → M B) :
  keeps_vecs m → (∀ a, keeps_vecs (f a)) → keeps_vecs (bind m f).
Proof.
  intros Hm Hf st. specialize (Hm st). unfold wp, bind in *.
  destruct (m st) as [a st1|st1|]; try done.
  specialize (Hf a st1). unfold wp in Hf.
  destruct (f a st1); congruence.
Qed.

Lemma keeps_on_unwind {A} (body : M A) (h : M unit) :
  keeps_vecs body → keeps_vecs h → keeps_vecs (on_unwind body h).
Proof.
  intros Hb Hh st. specialize (Hb st). unfold wp, on_unwind in *.
  destruct (body st) as [a st1|st1|]; try done.
  specialize (Hh st1). unfold wp in Hh.
  destruct (h st1); congruence.
Qed.

Lemma keeps_assert c : keeps_vecs (assert c).
Proof. intros st. by destruct c. Qed.

Lemma keeps_throw {A} : keeps_vecs (@throw A).
Proof. by intros st. Qed.

Lemma keeps_fallible : keeps_vecs fallible.
Proof. intros st. unfold wp, fallible. by destruct (throws (ticks st)). Qed.

Lemma keeps_read p : keeps_vecs (read p).
Proof. intros st. unfold wp, read. by destruct (load_slot p st) as [[?|]|]. Qed.

Lemma keeps_write p s : keeps_vecs (write p s).
Proof.
  intros st. unfold wp, write. destruct (p.1); [|done].
  destruct (heap st !! b); [|done]. by destruct (decide _).
Qed.

Lemma keeps_count_ctor : keeps_vecs count_ctor.
Proof. by intros st. Qed.

Lemma keeps_count_dtor : keeps_vecs count_dtor.
Proof. by intros st. Qed.

Create HintDb keeps.
#[local] Hint Resolve keeps_ret keeps_assert keeps_throw keeps_fallible keeps_read
  keeps_write keeps_count_ctor keeps_count_dtor : keeps.

Ltac keeps_step :=
  match goal with
  | |- keeps_vecs (bind _ _) => apply keeps_bind; [|intros ?]
  | |- keeps_vecs (on_unwind _ _) => apply keeps_on_unwind
  | |- keeps_vecs (if ?c then _ else _) => destruct c
  | |- keeps_vecs _ => solve [eauto with keeps]
  end.
Ltac keeps := repeat keeps_step.

Lemma keeps_construct_at p v : keeps_vecs (construct_at p v).
Proof. unfold construct_at. keeps. Qed.

Lemma keeps_copy_construct p q : keeps_vecs (copy_construct p q).
Proof. unfold copy_construct. keeps. apply keeps_construct_at. Qed.

Lemma keeps_move_construct p q : keeps_vecs (move_construct p q).
Proof. unfold move_construct. keeps. Qed.

Lemma keeps_copy_assign_elem p q : keeps_vecs (copy_assign_elem p q).
Proof. unfold copy_assign_elem. keeps. Qed.

Lemma keeps_move_assign_elem p q : keeps_vecs (move_assign_elem p q).
Proof. unfold move_assign_elem. keeps. Qed.

Lemma keeps_move_assign_local p v : keeps_vecs (move_assign_local p v).
Proof. unfold move_assign_local. keeps. Qed.

Lemma keeps_destroy_at p : keeps_vecs (destroy_at p).
Proof. unfold destroy_at. keeps. Qed.

#[local] Hint Resolve keeps_construct_at keeps_copy_construct keeps_move_construct
  keeps_copy_assign_elem keeps_move_assign_elem keeps_move_assign_local
  keeps_destroy_at : keeps.

Lemma keeps_destroy_n n : ∀ p, keeps_vecs (destroy_n p n).
Proof. induction n as [|n IH]; intros p; simpl; keeps. Qed.

#[local] Hint Resolve keeps_destroy_n : keeps.

Lemma keeps_destroy_range p q : keeps_vecs (destroy_range p q).
Proof. unfold destroy_range. keeps. Qed.

#[local] Hint Resolve keeps_destroy_range : keeps.

Lemma keeps_uninitialized_copy_n p n q : keeps_vecs (uninitialized_copy_n p n q).
Proof.
  unfold uninitialized_copy_n. generalize q at 2. revert p.
  induction n as [|n IH]; intros p cur; simpl; keeps.
Qed.

Lemma keeps_uninitialized_move_n p n q : keeps_vecs (uninitialized_move_n p n q).
Proof.
  unfold uninitialized_move_n. generalize q at 2. revert p.
  induction n as [|n IH]; intros p cur; simpl; keeps.
Qed.

Lemma keeps_uninitialized_value_construct_n p n :
  keeps_vecs (uninitialized_value_construct_n p n).
Proof.
  unfold uninitialized_value_construct_n. generalize p at 2.
  induction n as [|n IH]; intros cur; simpl; keeps.
Qed.

Lemma keeps_std_copy p q r : keeps_vecs (std_copy p q r).
Proof.
  unfold std_copy. generalize (ptr_diff q p) as n. intros n. revert p r.
  induction n as [|n IH]; intros p r; simpl; keeps.
Qed.

Lemma keeps_std_move p q r : keeps_vecs (std_move p q r).
Proof.
  unfold std_move. generalize (ptr_diff q p) as n. intros n. revert p r.
  induction n as [|n IH]; intros p r; simpl; keeps.
Qed.

Lemma keeps_std_move_backward p q r : keeps_vecs (std_move_backward p q r).
Proof.
  unfold std_move_backward. generalize (ptr_diff q p) as n. intros n. revert q r.
  induction n as [|n IH]; intros q r; simpl; keeps.
Qed.

#[local] Hint Resolve keeps_uninitialized_copy_n keeps_uninitialized_move_n
  keeps_uninitialized_value_construct_n keeps_std_copy keeps_std_move
  keeps_std_move_backward : keeps.

Lemma keeps_MoveOrCopy p n q : keeps_vecs (MoveOrCopy p n q).
Proof. unfold MoveOrCopy. keeps. Qed.

Lemma keeps_RawMemory_dtor m : keeps_vecs (RawMemory_dtor m).
Proof.
  intros st. unfold wp, RawMemory_dtor, Deallocate, operator_delete.
  destruct (buffer_ m) as [b|]; [|done]. by destruct (heap st !! b).
Qed.

Lemma keeps_RawMemory_plus m n : keeps_vecs (RawMemory_plus m n).
Proof. unfold RawMemory_plus. keeps. Qed.

Lemma keeps_RawMemory_at m n : keeps_vecs (RawMemory_at m n).
Proof. unfold RawMemory_at. keeps. Qed.

#[local] Hint Resolve keeps_MoveOrCopy keeps_RawMemory_dtor keeps_RawMemory_plus
  keeps_RawMemory_at : keeps.

(** A [RawMemory] constructed for [n] slots records the capacity [n]. *)
Lemma RawMemory_ctor_capacity n st :
  wp True (RawMemory_ctor n) st
    (fun m st' => capacity_ m = n ∧ vecs st' = vecs st)
    (fun st' => vecs st' = vecs st).
Proof.
  unfold wp, RawMemory_ctor, Allocate, bind, operator_new.
  destruct (n =? 0); [done|].
  destruct (_ <? _)%N; [done|].
  unfold bind, fallible. by destruct (throws (ticks st)).
Qed.

Lemma capacity_at_least_vecs this c st st' :
  vecs st' = vecs st → capacity_at_least this c st → capacity_at_least this c st'.
Proof. intros Hvs (V & HV & Hc). exists V. by rewrite Hvs. Qed.

Lemma wp_keeps {A} (m : M A) st (Q : A → state → Prop) (E : state → Prop) :
  keeps_vecs m →
  (∀ a st', vecs st' = vecs st → Q a st') →
  (∀ st', vecs st' = vecs st → E st') →
  wp True m st Q E.
Proof.
  intros Hm HQ HE. specialize (Hm st). unfold wp in *.
  destruct (m st); auto.
Qed.

Lemma wp_keeps_bind {A B} (m : M A) (f : A → M B) st
    (Q : B → state → Prop) (E : state → Prop) :
  keeps_vecs m →
  (∀ a st', vecs st' = vecs st → wp True (f a) st' Q E) →
  (∀ st', vecs st' = vecs st → E st') →
  wp True (bind m f) st Q E.
Proof. intros Hm Hf HE. by apply wp_bind, wp_keeps. Qed.

Lemma wp_get_vec this st (Q : Vector → state → Prop) (E : state → Prop) :
  (∀ V, vecs st !! this = Some V → Q V st) → wp True (get_vec this) st Q E.
Proof. intros HQ. unfold wp, get_vec. destruct (vecs st !! this); auto. Qed.

Lemma wp_put_vec F this V st (Q : unit → state → Prop) (E : state → Prop) :
  Q tt (set_vecs (<[this := V]> (vecs st)) st) → wp F (put_vec this V) st Q E.
Proof. intros HQ. by apply wp_modify. Qed.

Lemma capacity_at_least_put this c V st :
  c ≤ Capacity V →
  capacity_at_least this c (set_vecs (<[this := V]> (vecs st)) st).
Proof. intros Hc. exists V. simpl. by rewrite lookup_insert_eq. Qed.

Ltac cal_frame :=
  cbv beta in *;
  match goal with
  | H : vecs ?st' = vecs ?st |- capacity_at_least _ _ ?st' =>
      apply (capacity_at_least_vecs _ _ st st' H); try assumption
  end.

Lemma grown_capacity_ge n :
  (N.of_nat n * sizeof_T ≤ SizeT.ptrdiff_max)%N → n ≤ grown_capacity n.
Proof. intros H. rewrite grown_capacity_spec by done. lia. Qed.

Lemma EmplaceBack_capacity this V v st :
  vecs st !! this = Some V →
  (N.of_nat (Capacity V) * sizeof_T ≤ SizeT.ptrdiff_max)%N →
  wp True (EmplaceBack this v) st
    (fun _ => capacity_at_least this (Capacity V))
    (capacity_at_least this (Capacity V)).
Proof.
  intros HV Hbound.
  assert (capacity_at_least this (Capacity V) st) as Hcal by (by exists V).
  unfold EmplaceBack.
  apply wp_bind, wp_get_vec. intros V0 HV0.
  assert (V0 = V) as -> by congruence. clear HV0.
  apply wp_seq with (R := fun _ => capacity_at_least this (Capacity V)).
  destruct (Nat.eqb_spec (size_ V) (Capacity V)) as [Hfull|_].
  - apply wp_bind.
    eapply wp_mono; [apply RawMemory_ctor_capacity| |].
    2:{ intros st1 Hvs. cal_frame. }
    intros temp st1 [Htemp Hvs1]. simpl.
    apply wp_keeps_bind; [keeps | | intros st2 Hvs2; cal_frame; cal_frame].
    intros t st2 Hvs2. unfold RawMemory_Swap. cbv beta iota.
    apply wp_bind, wp_put_vec.
    apply wp_keeps_bind; [keeps | |].
    + intros _ st3 Hvs3. apply wp_ret.
      eapply capacity_at_least_vecs; [exact Hvs3|].
      apply capacity_at_least_put. unfold Capacity, RawMemory_Capacity. simpl.
      rewrite Htemp, Hfull. by apply grown_capacity_ge.
    + intros st3 Hvs3.
      eapply capacity_at_least_vecs; [exact Hvs3|].
      apply capacity_at_least_put. unfold Capacity, RawMemory_Capacity. simpl.
      rewrite Htemp, Hfull. by apply grown_capacity_ge.
  - apply wp_keeps; [keeps | |].
    + intros t st1 Hvs. cal_frame.
    + intros st1 Hvs. cal_frame.
  - intros t st1 (V1 & HV1 & Hc1).
    apply wp_bind, wp_get_vec. intros V2 HV2.
    assert (V2 = V1) as -> by congruence.
    apply wp_bind, wp_put_vec, wp_ret.
    by apply capacity_at_least_put.
Qed.

Lemma PopBack_capacity this V st :
  vecs st !! this = Some V →
  wp True (PopBack this) st
    (fun _ => capacity_at_least this (Capacity V))
    (capacity_at_least this (Capacity V)).
Proof.
  intros HV.
  assert (capacity_at_least this (Capacity V) st) as Hcal by (by exists V).
  unfold PopBack.
  apply wp_bind, wp_get_vec. intros V0 HV0.
  assert (V0 = V) as -> by congruence. clear HV0.
  destruct (0 <? size_ V); [|by apply wp_ret].
  apply wp_keeps_bind; [keeps | | intros st1 Hvs; cal_frame].
  intros _ st1 Hvs. apply wp_put_vec. by apply capacity_at_least_put.
Qed.

Lemma Erase_capacity this V pos st :
  vecs st !! this = Some V →
  wp True (Erase this pos) st
    (fun _ => capacity_at_least this (Capacity V))
    (capacity_at_least this (Capacity V)).
Proof.
  intros HV.
  assert (capacity_at_least this (Capacity V) st) as Hcal by (by exists V).
  unfold Erase.
  apply wp_bind, wp_get_vec. intros V0 HV0.
  assert (V0 = V) as -> by congruence. clear HV0.
  apply wp_keeps_bind; [keeps | | intros st1 Hvs; cal_frame].
  intros _ st1 Hvs1.
  apply wp_keeps_bind; [keeps | | intros st2 Hvs2; cal_frame; cal_frame].
  intros _ st2 Hvs2.
  apply wp_seq with (R := fun _ => capacity_at_least this (Capacity V)).
  - apply PopBack_capacity. congruence.
  - intros _ st3 Hcal3.
    apply wp_bind, wp_get_vec. intros V3 HV3. by apply wp_ret.
Qed.

Lemma Reserve_capacity this V n st :
  vecs st !! this = Some V →
  wp True (Reserve this n) st
    (fun _ => capacity_at_least this (Nat.max n (Capacity V)))
    (capacity_at_least this (Capacity V)).
Proof.
  intros HV.
  assert (capacity_at_least this (Capacity V) st) as Hcal by (by exists V).
  unfold Reserve.
  apply wp_bind, wp_get_vec. intros V0 HV0.
  assert (V0 = V) as -> by congruence. clear HV0.
  destruct (Nat.leb_spec n (capacity_ (data_ V))) as [Hle|Hgt].
  { apply wp_ret. exists V. split; [done|].
    unfold Capacity, RawMemory_Capacity. lia. }
  apply wp_bind.
  eapply wp_mono; [apply RawMemory_ctor_capacity| |].
  2:{ intros st1 Hvs. cal_frame. }
  intros temp st1 [Htemp Hvs1]. simpl.
  apply wp_keeps_bind; [keeps | | intros st2 Hvs2; cal_frame; cal_frame].
  intros _ st2 Hvs2. unfold RawMemory_Swap. cbv beta iota.
  apply wp_bind, wp_put_vec.
  apply wp_keeps; [keeps | |].
  - intros _ st3 Hvs3.
    eapply capacity_at_least_vecs; [exact Hvs3|].
    apply capacity_at_least_put. unfold Capacity, RawMemory_Capacity in *. simpl.
    lia.
  - intros st3 Hvs3.
    eapply capacity_at_least_vecs; [exact Hvs3|].
    apply capacity_at_least_put. unfold Capacity, RawMemory_Capacity in *. simpl.
    lia.
Qed.

Lemma capacity_at_least_le this c c' st :
  c ≤ c' → capacity_at_least this c' st → capacity_at_least this c st.
Proof. intros Hle (V & HV & Hc). exists V. split; [done | lia]. Qed.

Lemma Resize_capacity this V n st :
  vecs st !! this = Some V →
  wp True (Resize this n) st
    (fun _ => capacity_at_least this (Capacity V))
    (capacity_at_least this (Capacity V)).
Proof.
  intros HV.
  assert (capacity_at_least this (Capacity V) st) as Hcal by (by exists V).
  unfold Resize.
  apply wp_bind, wp_get_vec. intros V0 HV0.
  assert (V0 = V) as -> by congruence. clear HV0.
  destruct (size_ V =? n); [by apply wp_ret|].
  destruct (n <? size_ V).
  - apply wp_keeps_bind; [keeps | | intros st1 Hvs; cal_frame].
    intros _ st1 Hvs. apply wp_put_vec. by apply capacity_at_least_put.
  - apply wp_seq with (R := fun _ => capacity_at_least this (Capacity V)).
    + eapply wp_mono; [by apply Reserve_capacity| |done].
      intros ? st1. apply capacity_at_least_le. lia.
    + intros _ st1 (V1 & HV1 & Hc1).
      apply wp_bind, wp_get_vec. intros V2 HV2.
      assert (V2 = V1) as -> by congruence.
      apply wp_keeps_bind; [keeps | |].
      * intros _ st2 Hvs2. apply wp_put_vec. by apply capacity_at_least_put.
      * intros st2 Hvs2. exists V1. by rewrite Hvs2.
Qed.

Lemma Emplace_capacity this V pos v st :
  vecs st !! this = Some V →
  (N.of_nat (Capacity V) * sizeof_T ≤ SizeT.ptrdiff_max)%N →
  wp True (Emplace this pos v) st
    (fun _ => capacity_at_least this (Capacity V))
    (capacity_at_least this (Capacity V)).
Proof.
  intros HV Hbound.
  assert (capacity_at_least this (Capacity V) st) as Hcal by (by exists V).
  unfold Emplace.
  apply wp_bind, wp_get_vec. intros V0 HV0.
  assert (V0 = V) as -> by congruence. clear HV0.
  apply wp_keeps_bind; [keeps | | intros st1 Hvs; cal_frame].
  intros _ st1 Hvs1.
  destruct (ptr_eqb pos (end_ V)).
  { apply EmplaceBack_capacity; [congruence | done]. }
  destruct (Nat.eqb_spec (size_ V) (Capacity V)) as [Hfull|_].
  - apply wp_bind.
    eapply wp_mono; [apply RawMemory_ctor_capacity| |].
    2:{ intros st2 Hvs2. cal_frame. cal_frame. }
    intros temp st2 [Htemp Hvs2]. simpl.
    assert (Capacity V ≤ Capacity (mkVector temp (size_ V))) as Hge.
    { unfold Capacity at 2. unfold RawMemory_Capacity. simpl.
      rewrite Htemp, Hfull. by apply grown_capacity_ge. }
    apply wp_keeps_bind;
      [keeps | | intros st3 Hvs3; cal_frame; cal_frame; cal_frame].
    intros _ st3 Hvs3. unfold RawMemory_Swap. cbv beta iota.
    apply wp_bind, wp_put_vec.
    apply wp_bind, wp_get_vec. intros V1 HV1. simpl in HV1.
    rewrite lookup_insert_eq in HV1. injection HV1 as HV1. subst V1.
    apply wp_bind, wp_put_vec.
    apply wp_bind, wp_get_vec. intros V2 HV2. simpl in HV2.
    rewrite lookup_insert_eq in HV2. injection HV2 as HV2. subst V2.
    apply wp_keeps_bind; [keeps | |].
    + intros _ st4 Hvs4. apply wp_ret.
      eapply capacity_at_least_vecs; [exact Hvs4|].
      by apply capacity_at_least_put.
    + intros st4 Hvs4.
      eapply capacity_at_least_vecs; [exact Hvs4|].
      by apply capacity_at_least_put.
  - apply wp_keeps_bind; [keeps | | intros st2 Hvs2; cal_frame; cal_frame].
    intros _ st2 Hvs2.
    apply wp_keeps_bind; [keeps | | intros st3 Hvs3; cal_frame; cal_frame; cal_frame].
    intros _ st3 Hvs3.
    apply wp_seq with (R := fun _ => capacity_at_least this (Capacity V)).
    2:{ intros r st4 Hcal4.
        apply wp_keeps_bind; [keeps | | intros st5 Hvs5; cal_frame].
        intros _ st5 Hvs5. apply wp_ret. cal_frame. }
    apply wp_on_unwind.
    apply wp_keeps_bind; [keeps | |].
    2:{ intros st4 Hvs4. apply wp_keeps; [keeps | |].
        - intros _ st5 Hvs5. cal_frame. cal_frame. cal_frame. cal_frame. cal_frame.
        - intros st5 Hvs5. cal_frame. cal_frame. cal_frame. cal_frame. cal_frame. }
    intros last st4 Hvs4.
    assert (∀ st', capacity_at_least this (Capacity V) st' →
              wp True count_dtor st' (fun _ => capacity_at_least this (Capacity V))
                 (capacity_at_least this (Capacity V))) as Hunwind.
    { intros st' Hcal'. apply wp_keeps; [keeps | |].
      - intros _ st'' Hvs''. cal_frame.
      - intros st'' Hvs''. cal_frame. }
    assert (capacity_at_least this (Capacity V) st4) as Hcal4
      by (do 4 cal_frame).
    apply wp_keeps_bind; [keeps | |].
    2:{ intros st5 Hvs5. apply Hunwind. cal_frame. }
    intros _ st5 Hvs5.
    apply wp_keeps_bind; [keeps | |].
    2:{ intros st6 Hvs6. apply Hunwind. do 2 cal_frame. }
    intros _ st6 Hvs6.
    apply wp_keeps_bind; [keeps | |].
    2:{ intros st7 Hvs7. apply Hunwind. do 3 cal_frame. }
    intros slot_i st7 Hvs7.
    apply wp_keeps_bind; [keeps | |].
    2:{ intros st8 Hvs8. apply Hunwind. do 4 cal_frame. }
    intros _ st8 Hvs8.
    apply wp_bind, wp_put_vec.
    apply wp_bind, wp_get_vec. intros V1 HV1.
    apply wp_ret. by apply capacity_at_least_put.
Qed.

Lemma wp_with_state {A} F (k : state → M A) st (Q : A → state → Prop) E :
  wp F (k st) st Q E → wp F (fun s => k s s) st Q E.
Proof. done. Qed.

Lemma Vector_copy_ctor_vecs l other st :
  wp True (Vector_copy_ctor l other) st
    (fun _ st' => ∃ O data,
       vecs st !! other = Some O ∧ capacity_ data = size_ O ∧
       vecs st' = <[l := mkVector data (size_ O)]> (vecs st))
    (fun st' => vecs st' = vecs st).
Proof.
  unfold Vector_copy_ctor.
  apply wp_bind, wp_get_vec. intros O HO.
  apply wp_bind.
  eapply wp_mono; [apply RawMemory_ctor_capacity| |done].
  intros data st1 [Hdata Hvs1]. simpl.
  apply wp_keeps_bind; [keeps | | intros st2 Hvs2; congruence].
  intros _ st2 Hvs2. apply wp_put_vec.
  exists O, data. simpl. split_and!; try done. congruence.
Qed.

Lemma Swap_eq a b A B st :
  a ≠ b → vecs st !! a = Some A → vecs st !! b = Some B →
  ∃ st', Swap a b st = Ok tt st' ∧
    vecs st' !! a = Some B ∧ vecs st' !! b = Some A ∧
    (∀ l, l ≠ a → l ≠ b → vecs st' !! l = vecs st !! l).
Proof.
  intros Hne HA HB.
  unfold Swap, bind, put_vec, get_vec, modify. st_simpl.
  rewrite HA, HB. simpl.
  repeat (first [rewrite lookup_insert_eq
                | rewrite lookup_insert_ne by done]; simpl).
  eexists. split; [reflexivity|]. simpl.
  destruct A, B. simpl. split_and!.
  - rewrite lookup_insert_ne by done. by rewrite lookup_insert_eq.
  - by rewrite lookup_insert_eq.
  - intros l Hl1 Hl2. by rewrite !lookup_insert_ne by done.
Qed.

Lemma fresh_loc_ne (vs : gmap loc Vector) this V :
  vs !! this = Some V → fresh (dom vs) ≠ this.
Proof.
  intros HV Heq. apply (is_fresh (dom vs)). rewrite Heq.
  apply elem_of_dom. eauto.
Qed.

Lemma copy_assign_capacity this rhs V st :
  vecs st !! this = Some V →
  wp True (copy_assign this rhs) st
    (fun _ => capacity_at_least this (Capacity V))
    (capacity_at_least this (Capacity V)).
Proof.
  intros HV.
  assert (capacity_at_least this (Capacity V) st) as Hcal by (by exists V).
  unfold copy_assign. destruct (decide (this ≠ rhs)); [|by apply wp_ret].
  apply wp_bind, wp_get_vec. intros V0 HV0.
  assert (V0 = V) as -> by congruence. clear HV0.
  apply wp_bind, wp_get_vec. intros R HR.
  destruct (Nat.ltb_spec (capacity_ (data_ V)) (size_ R)) as [Hlt|Hge].
  - apply (wp_with_state True (fun s =>
       bind (Vector_copy_ctor (fresh (dom (vecs s))) rhs)
         (fun _ => bind (Swap this (fresh (dom (vecs s))))
                     (fun _ => Vector_dtor (fresh (dom (vecs s))))))).
    pose proof (fresh_loc_ne _ _ _ HV) as Hfresh.
    set (rc := fresh (dom (vecs st))) in *.
    apply wp_bind.
    eapply wp_mono; [apply Vector_copy_ctor_vecs| |].
    2:{ intros st1 Hvs1. cal_frame. }
    intros _ st1 (O & data & HO & Hdata & Hvs1). simpl.
    assert (O = R) as -> by congruence.
    destruct (Swap_eq this rc V (mkVector data (size_ R)) st1)
      as (st2 & Hswap & Hthis & Hrc & _).
    { done. }
    { rewrite Hvs1. by rewrite lookup_insert_ne. }
    { rewrite Hvs1. by rewrite lookup_insert_eq. }
    apply wp_bind. eapply wp_eq; [exact Hswap|].
    assert (capacity_at_least this (Capacity V) st2) as Hcal2.
    { eexists. split; [exact Hthis|].
      unfold Capacity, RawMemory_Capacity in *. simpl. lia. }
    unfold Vector_dtor.
    apply wp_bind, wp_get_vec. intros V2 HV2.
    apply wp_keeps_bind; [keeps | | intros st3 Hvs3; cal_frame].
    intros _ st3 Hvs3.
    apply wp_keeps_bind; [keeps | | intros st4 Hvs4; cal_frame; cal_frame].
    intros _ st4 Hvs4. apply wp_modify.
    destruct Hcal2 as (V3 & HV3 & Hc3). exists V3. simpl.
    rewrite lookup_delete_ne by done. split; [congruence | done].
  - apply wp_keeps_bind; [keeps | | intros st1 Hvs1; cal_frame].
    intros _ st1 Hvs1. apply wp_put_vec. by apply capacity_at_least_put.
Qed.

Lemma perform_capacity this V op st :
  vecs st !! this = Some V →
  (N.of_nat (Capacity V) * sizeof_T ≤ SizeT.ptrdiff_max)%N →
  wp True (perform this op) st
    (fun _ => capacity_at_least this (Capacity V))
    (capacity_at_least this (Capacity V)).
Proof.
  intros HV Hbound.
  assert (∀ (A : Type) (m : M A),
            wp True m st (fun _ => capacity_at_least this (Capacity V))
               (capacity_at_least this (Capacity V)) →
            wp True (bind m (fun _ => ret tt)) st
               (fun _ => capacity_at_least this (Capacity V))
               (capacity_at_least this (Capacity V))) as Hdrop.
  { intros A m Hm. eapply wp_seq; [exact Hm|]. intros a st' Hcal.
    by apply wp_ret. }
  destruct op; simpl.
  - by apply Hdrop, EmplaceBack_capacity.
  - by apply Hdrop, EmplaceBack_capacity.
  - by apply PopBack_capacity.
  - by apply Hdrop, Emplace_capacity.
  - by apply Hdrop, Emplace_capacity.
  - by apply Hdrop, Erase_capacity.
  - by apply Resize_capacity.
  - eapply wp_mono; [by apply Reserve_capacity| |done].
    intros ? st1. apply capacity_at_least_le. lia.
  - by apply copy_assign_capacity.
Qed.

(** C4.  A full vector that is appended to takes a block of capacity
    [max(1, 2 * capacity)]: every [EmplaceBack] or [PushBack] that returns
    normally leaves that capacity, and both do return normally, with that
    capacity, when no fallible step raises and the new block fits in
    [PTRDIFF_MAX] bytes.  [Reserve(n)] with [n] not above the capacity
    does nothing at all; and none of the operations that work on one vector
    in place leaves it with a smaller capacity, whether it returns normally
    or raises.  The only other operations that change a vector, [Swap] and
    move assignment, are the explicit exchange: the two vectors trade their
    blocks, and with them their sizes and capacities. *)
Theorem capacity_policy this V els st :
  vecs st !! this = Some V → valid st V els →
  (size_ V = Capacity V → ∀ v,
     (∀ t st', EmplaceBack this v st = Ok t st' →
        ∃ V', vecs st' !! this = Some V' ∧
          Capacity V' = Nat.max 1 (2 * Capacity V)) ∧
     (∀ st', PushBack this v st = Ok tt st' →
        ∃ V', vecs st' !! this = Some V' ∧
          Capacity V' = Nat.max 1 (2 * Capacity V)) ∧
     ((N.of_nat (Nat.max 1 (2 * Capacity V)) * sizeof_T ≤ SizeT.ptrdiff_max)%N →
      quiet st → ∃ t st', EmplaceBack this v st = Ok t st') ∧
     ((N.of_nat (Nat.max 1 (2 * Capacity V)) * sizeof_T ≤ SizeT.ptrdiff_max)%N →
      quiet st →
      ∃ st' V', PushBack this v st = Ok tt st' ∧
        vecs st' !! this = Some V' ∧
        Capacity V' = Nat.max 1 (2 * Capacity V))) ∧
  (∀ n, n ≤ Capacity V → Reserve this n st = Ok tt st) ∧
  (∀ op,
     match perform this op st with
     | Ok _ st' | Throw st' =>
         ∃ V', vecs st' !! this = Some V' ∧ Capacity V ≤ Capacity V'
     | Fault => True
     end) ∧
  (∀ other B, this ≠ other → vecs st !! other = Some B →
     ∃ st', Swap this other st = Ok tt st' ∧
       move_assign this other st = Ok tt st' ∧
       vecs st' !! this = Some B ∧ vecs st' !! other = Some V).
Proof.
  intros HV Hvalid.
  pose proof Hvalid as (Hlen & Hsz & Hcap & Hbuf).
  split; [|split; [|split]].
  - intros Hfull v.
    pose proof (EmplaceBack_runs this V els v st HV Hvalid) as Hruns.
    pose proof (grown_capacity_spec (size_ V)) as Hgrow.
    unfold Capacity, RawMemory_Capacity in *. rewrite Hfull in Hgrow.
    specialize (Hgrow Hcap).
    assert (∀ t st', EmplaceBack this v st = Ok t st' →
              ∃ V', vecs st' !! this = Some V' ∧
                capacity_ (data_ V') = Nat.max 1 (2 * capacity_ (data_ V)))
      as Hok.
    { intros t st' Hrun.
      destruct (runs_ok _ _ _ _ _ _ Hruns Hrun) as (V' & Hvecs & _ & _ & Hc).
      exists V'. split; [by rewrite Hvecs, lookup_insert_eq|].
      rewrite Hc, Hfull, Nat.eqb_refl. done. }
    split; [exact Hok|]. split.
    + intros st' Hrun. unfold PushBack, bind in Hrun.
      destruct (EmplaceBack this v st) as [t st1| |] eqn:Heb; try done.
      injection Hrun as <-. eauto.
    + assert ((N.of_nat (Nat.max 1 (2 * capacity_ (data_ V))) * sizeof_T
                 ≤ SizeT.ptrdiff_max)%N →
              quiet st → ∃ t st', EmplaceBack this v st = Ok t st') as Hreturns.
      { intros Hfits Hq. rewrite Hfull, Hgrow in Hruns.
        destruct (runs_quiet _ _ _ _ Hruns Hfits Hq) as (t & st' & Hrun & _).
        eauto. }
      split; [exact Hreturns|].
      intros Hfits Hq. destruct (Hreturns Hfits Hq) as (t & st' & Hrun).
      destruct (Hok t st' Hrun) as (V' & HV' & Hc).
      exists st', V'. split; [|done].
      unfold PushBack, bind. by rewrite Hrun.
  - intros n Hn. unfold Reserve, bind, get_vec. rewrite HV.
    unfold Capacity, RawMemory_Capacity in Hn.
    destruct (Nat.leb_spec n (capacity_ (data_ V))); [done | lia].
  - intros op.
    pose proof (perform_capacity this V op st HV Hcap) as Hwp.
    unfold wp, capacity_at_least in Hwp.
    by destruct (perform this op st).
  - intros other B Hne HB.
    destruct (Swap_eq this other V B st Hne HV HB) as (st' & Hswap & HB' & HV' & _).
    exists st'. unfold move_assign. rewrite decide_True by done. done.
Qed.

(** ** Copy construction *)

Lemma RawMemory_ctor_wp n st (Q : RawMemory → state → Prop) (E : state → Prop) :
  (N.of_nat n * sizeof_T ≤ SizeT.ptrdiff_max)%N →
  (n = 0 → Q (mkRawMemory None 0) st) →
  (n ≠ 0 → throws (ticks st) = false → ∀ b, heap st !! b = None →
     Q (mkRawMemory (Some b) n)
       (mkState (<[b := replicate n None]> (heap st)) (vecs st)
                (S (ticks st)) (ctors st) (dtors st))) →
  (n ≠ 0 → throws (ticks st) = true → E (set_ticks (S (ticks st)) st)) →
  wp False (RawMemory_ctor n) st Q E.
Proof.
  intros Hfit H0 HS HE. unfold RawMemory_ctor, Allocate.
  destruct (Nat.eqb_spec n 0) as [->|Hn].
  - apply wp_bind, wp_ret, wp_ret. by apply H0.
  - apply wp_bind, wp_bind. unfold operator_new.
    assert (N.of_nat n * sizeof_T < SizeT.modulus)%N as Hword
      by (unfold SizeT.ptrdiff_max, SizeT.modulus in *; lia).
    rewrite wrap_small by done.
    destruct (N.ltb_spec SizeT.ptrdiff_max (N.of_nat n * sizeof_T)); [lia|].
    apply wp_bind, wp_fallible; [|by apply HE].
    intros Hok. eapply wp_eq; [reflexivity|].
    apply wp_ret, wp_ret. simpl.
    rewrite N.div_mul by lia. rewrite Nat2N.id.
    apply HS; try done. apply fresh_block_unused.
Qed.

Lemma throws_later_not_quiet st k : throws (ticks st + k) = true → ¬ quiet st.
Proof.
  intros E Hq. specialize (Hq (ticks st + k)). rewrite E in Hq.
  assert (true = false) by (apply Hq; lia). discriminate.
Qed.

Lemma Vector_copy_ctor_wp this other A els st :
  vecs st !! other = Some A → valid st A els →
  wp False (Vector_copy_ctor this other) st
    (fun _ st' => copy_constructed this A els st st')
    (fun st' => copy_abandoned st st' ∧ ¬ quiet st).
Proof.
  intros HA Hvalid.
  pose proof Hvalid as (Hlen & Hsz & Hcap & Hbuf).
  unfold Vector_copy_ctor.
  apply wp_bind. eapply wp_eq; [unfold get_vec; by rewrite HA|].
  apply wp_bind, RawMemory_ctor_wp.
  { nia. }
  - (* an empty source: no block is allocated *)
    intros Hsize. rewrite Hsize. simpl.
    apply wp_bind, wp_on_unwind, wp_ret. apply wp_put_vec.
    eexists. split; [reflexivity|]. unfold valid. st_simpl.
    destruct els; [|simpl in Hlen; lia].
    split_and!; try done; try lia.
  - (* a block of [size_] slots *)
    intros Hsize Hok b' Hb'.
    destruct (valid_nonempty_block _ _ _ Hvalid) as [bA HbA]; [lia|].
    rewrite HbA in Hbuf.
    assert (bA ≠ b') as Hne by (intros ->; congruence).
    unfold GetAddress. rewrite HbA. simpl. rewrite <- Hlen.
    apply wp_bind, wp_on_unwind.
    apply (uninitialized_copy_n_wp bA b' els []
             (replicate (capacity_ (data_ A) - size_ A) None) [] [] 0 0);
      simpl; try done.
    { by rewrite lookup_insert_ne. }
    { rewrite lookup_insert_eq. by rewrite app_nil_r. }
    + intros Hall. rewrite insert_insert_eq, app_nil_r.
      apply wp_put_vec. st_simpl.
      eexists. split; [reflexivity|]. unfold valid, Capacity, RawMemory_Capacity.
      simpl. rewrite HbA.
      split_and!; try done; try lia.
      * nia.
      * rewrite lookup_insert_eq, Nat.sub_diag. simpl. by rewrite app_nil_r.
      * by rewrite lookup_insert_ne.
      * intros blk l Hl. rewrite lookup_insert_ne; [done|]. congruence.
      * intros bA' l [= <-]. split_and!; try done; try nia.
        rewrite lookup_insert_ne by done. rewrite lookup_insert_eq.
        rewrite Nat.sub_diag. simpl. by rewrite app_nil_r.
    + intros k Hk Hthrow _.
      eapply wp_eq.
      { unfold RawMemory_dtor, Deallocate, operator_delete. simpl.
        by rewrite lookup_insert_eq. }
      st_simpl. rewrite (delete_insert_id _ _ _ Hb').
      split;
        [|apply (throws_later_not_quiet st (S k)); rewrite <- Hthrow; f_equal; lia].
      split_and!; try done. by exists k.
  - intros Hsize Hthrow. split; [|by apply throws_not_quiet].
    split_and!; try done. exists 0. simpl. lia.
Qed.

(** C5.  Copy-constructing [B] (at the new address [this]) from [A]: on
    normal return [B] has a block of its own of capacity exactly [A]'s
    size, holding copies of [A]'s elements in order, one constructor call
    each; [A] and every block that existed before are as they were; and
    whatever is later written to [A]'s block, [B] keeps its elements.  If a
    step raises, every object constructed so far has been destroyed again,
    the block is released, and the state is as before the call.  The call
    returns normally when no fallible step raises. *)
Theorem Vector_copy_ctor_spec this other A els st :
  vecs st !! other = Some A → valid st A els → vecs st !! this = None →
  match Vector_copy_ctor this other st with
  | Ok _ st' =>
      ∃ B, vecs st' !! this = Some B ∧ vecs st' !! other = Some A ∧
        Capacity B = size_ A ∧ Size B = Size A ∧
        valid st' B els ∧ valid st' A els ∧
        (∀ blk l, heap st !! blk = Some l → heap st' !! blk = Some l) ∧
        ctors st' = ctors st + size_ A ∧ dtors st' = dtors st ∧
        (∀ bA l, buffer_ (data_ A) = Some bA →
           valid (set_heap (<[bA := l]> (heap st')) st') B els)
  | Throw st' =>
      heap st' = heap st ∧ vecs st' = vecs st ∧
      ∃ k, ctors st' = ctors st + k ∧ dtors st' = dtors st + k
  | Fault => False
  end ∧
  (quiet st → ∃ st', Vector_copy_ctor this other st = Ok tt st').
Proof.
  intros HA Hvalid Hnew.
  pose proof (Vector_copy_ctor_wp this other A els st HA Hvalid) as Hwp.
  unfold wp in Hwp.
  destruct (Vector_copy_ctor this other st) as [[] st'|st'|]; [| |done].
  2:{ destruct Hwp as [Hab Hnq]. split; [exact Hab|].
      intros Hq. by destruct (Hnq Hq). }
  split; [|eauto].
  destruct Hwp as (B & Hvecs & Hc & Hs & HvB & HvA & Hframe & Hct & Hdt & Hind).
  exists B. rewrite Hvecs, lookup_insert_eq.
  rewrite lookup_insert_ne by congruence.
  split_and!; done.
Qed.

(** ** Failures during relocation *)

Lemma wp_assert_true F c st (Q : unit → state → Prop) E :
  c = true → Q tt st → wp F (assert c) st Q E.
Proof. by intros -> HQ. Qed.

Lemma first_throw_unique (t k k' : nat) :
  (∀ j, j < k → throws (t + j) = false) → throws (t + k) = true →
  (∀ j, j < k' → throws (t + j) = false) → throws (t + k') = true →
  k' = k.
Proof.
  intros Hbefore Hk Hbefore' Hk'.
  destruct (Nat.lt_trichotomy k' k) as [Hlt|[->|Hgt]]; [|done|].
  - rewrite Hbefore in Hk' by done. done.
  - rewrite Hbefore' in Hk by done. done.
Qed.

(** C1 fails in the code.  Take a full vector whose elements are relocated
    by copying, and let the allocation and the construction of the new
    element succeed and the copy number [k] raise.  [EmplaceBack] then
    raises with the vector and the free store as before the call, so the size,
    the capacity and the elements are unchanged; but of the [k + 1] objects
    constructed in the new block only the [k] copies were destroyed: the
    new element's destructor never runs before its block is released. *)
Theorem EmplaceBack_relocation_failure_leaks this V els v k st :
  vecs st !! this = Some V → valid st V els → size_ V = Capacity V →
  relocate_by_move = false →
  (N.of_nat (grown_capacity (size_ V)) * sizeof_T ≤ SizeT.ptrdiff_max)%N →
  k < size_ V →
  (∀ j, j < 2 + k → throws (ticks st + j) = false) →
  throws (ticks st + (2 + k)) = true →
  ∃ st', EmplaceBack this v st = Throw st' ∧
    heap st' = heap st ∧ vecs st' = vecs st ∧
    ctors st' = ctors st + (k + 1) ∧ dtors st' = dtors st + k.
Proof.
  intros HV Hvalid Hfull Hcopy Hfits Hk Hbefore Hthrow.
  pose proof Hvalid as (Hlen & Hsz & Hcap & Hbuf).
  destruct (valid_nonempty_block _ _ _ Hvalid) as [b Hb].
  { unfold Capacity, RawMemory_Capacity in Hfull. lia. }
  rewrite Hb in Hbuf.
  pose proof (grown_capacity_spec _ Hcap) as Hgrow.
  unfold Capacity, RawMemory_Capacity in Hfull. rewrite <- Hfull in Hgrow.
  assert (throws (ticks st) = false) as Hok0.
  { rewrite <- (Nat.add_0_r (ticks st)). apply Hbefore. lia. }
  assert (throws (S (ticks st)) = false) as Hok1.
  { replace (S (ticks st)) with (ticks st + 1) by lia. apply Hbefore. lia. }
  assert (wp False (EmplaceBack this v) st (fun _ _ => False)
            (fun st' => heap st' = heap st ∧ vecs st' = vecs st ∧
               ctors st' = ctors st + (k + 1) ∧ dtors st' = dtors st + k))
    as Hwp.
  { unfold EmplaceBack.
    apply wp_bind. eapply wp_eq; [unfold get_vec; by rewrite HV|].
    unfold Capacity, RawMemory_Capacity. rewrite <- Hfull, Nat.eqb_refl.
    apply wp_bind, wp_bind, RawMemory_ctor_wp; try done.
    { lia. }
    2:{ intros _ Hbad. congruence. }
    intros _ _ b' Hb'.
    assert (b ≠ b') as Hne by (intros ->; congruence).
    apply wp_bind, wp_on_unwind, wp_bind.
    unfold RawMemory_plus. simpl.
    apply wp_bind, wp_assert_true; [apply Nat.leb_le; lia|].
    apply wp_ret. unfold ptr_add, GetAddress. simpl.
    apply wp_bind,
      (construct_at_wp _ b' (size_ V) (replicate (grown_capacity (size_ V)) None));
      simpl.
    { by rewrite lookup_insert_eq. }
    { rewrite length_replicate. lia. }
    2:{ intros Hbad. congruence. }
    intros _. rewrite insert_insert_eq, insert_replicate_split by lia.
    rewrite Hcopy, Hb. apply wp_bind.
    rewrite <- Hfull, Nat.sub_diag in Hbuf. rewrite <- Hlen.
    apply (uninitialized_copy_n_wp b b' els [] (replicate 0 None) []
             (Some v :: replicate (grown_capacity (size_ V) - S (size_ V)) None)
             0 0); simpl; try done.
    { by rewrite lookup_insert_ne. }
    { rewrite lookup_insert_eq. by rewrite Hlen. }
    - intros Hall. specialize (Hall k). rewrite Hlen in Hall.
      specialize (Hall Hk).
      enough (true = false) by done.
      rewrite <- Hthrow, <- Hall. f_equal. lia.
    - intros k' Hk' Hthrow' Hbefore'.
      assert (k' = k) as ->.
      { apply (first_throw_unique (ticks st + 2)).
        - intros j Hj. rewrite <- Nat.add_assoc. apply Hbefore. lia.
        - by rewrite <- Nat.add_assoc.
        - intros j Hj.
          replace (ticks st + 2 + j) with (S (S (ticks st + j))) by lia.
          by apply Hbefore'.
        - by replace (ticks st + 2 + k') with (S (S (ticks st + k'))) by lia. }
      eapply wp_eq.
      { unfold RawMemory_dtor, Deallocate, operator_delete. simpl.
        by rewrite lookup_insert_eq. }
      st_simpl. rewrite (delete_insert_id _ _ _ Hb').
      split_and!; try done. lia. }
  unfold wp in Hwp. destruct (EmplaceBack this v st) as [t st'|st'|]; try done.
  eauto.
Qed.

(** C2 fails in the code.  Take a full vector whose elements are relocated
    by copying and a position after a non-empty prefix [front] and before
    the end; let the allocation, the construction of the new element and
    the copies of the prefix succeed, and the copy number [k] of the suffix
    raise.  [Emplace] then raises with the new block cleaned up and
    released and the [Vector] object as before; but [MoveOrCopy] has already
    destroyed the prefix in the old block, right after copying it: the
    block the vector still owns holds raw memory in its first slots, and
    the vector, whose size still counts them, represents no sequence of
    elements any more. *)
Theorem Emplace_suffix_failure_destroys_prefix this V front back v k st :
  vecs st !! this = Some V → valid st V (front ++ back) →
  size_ V = Capacity V → relocate_by_move = false →
  (N.of_nat (grown_capacity (size_ V)) * sizeof_T ≤ SizeT.ptrdiff_max)%N →
  front ≠ [] → k < length back →
  (∀ j, j < 2 + length front + k → throws (ticks st + j) = false) →
  throws (ticks st + (2 + length front + k)) = true →
  ∃ b st', buffer_ (data_ V) = Some b ∧
    Emplace this (ptr_add (begin_ V) (length front)) v st = Throw st' ∧
    vecs st' = vecs st ∧
    heap st' = <[b := replicate (length front) None ++ map Some back]> (heap st) ∧
    ctors st' = ctors st + (1 + length front + k) ∧
    dtors st' = dtors st + (length front + k + (length front + 1)) ∧
    ∀ els', ¬ valid st' V els'.
Proof.
  intros HV Hvalid Hfull Hcopy Hfits Hfront Hk Hbefore Hthrow.
  pose proof Hvalid as (Hlen & Hsz & Hcap & Hbuf).
  rewrite length_app in Hlen.
  destruct (valid_nonempty_block _ _ _ Hvalid) as [b Hb].
  { unfold Capacity, RawMemory_Capacity in Hfull. lia. }
  rewrite Hb in Hbuf. exists b.
  pose proof (grown_capacity_spec _ Hcap) as Hgrow.
  unfold Capacity, RawMemory_Capacity in Hfull. rewrite <- Hfull in Hgrow.
  rewrite <- Hfull, Nat.sub_diag in Hbuf. simpl in Hbuf.
  rewrite app_nil_r in Hbuf.
  destruct V as [[buf cap] size]. simpl in *. subst buf cap.
  assert (throws (ticks st) = false) as Hok0.
  { rewrite <- (Nat.add_0_r (ticks st)). apply Hbefore. lia. }
  assert (throws (S (ticks st)) = false) as Hok1.
  { replace (S (ticks st)) with (ticks st + 1) by lia. apply Hbefore. lia. }
  set (i := length front) in *.
  assert (0 < i) as Hi by (unfold i; destruct front; [done | simpl; lia]).
  assert (wp False
            (Emplace this (ptr_add (begin_ (mkVector (mkRawMemory (Some b) size) size)) i) v)
            st (fun _ _ => False)
            (fun st' => vecs st' = vecs st ∧
               heap st' = <[b := replicate i None ++ map Some back]> (heap st) ∧
               ctors st' = ctors st + (1 + i + k) ∧
               dtors st' = dtors st + (i + k + (i + 1))))
    as Hwp.
  { unfold Emplace.
    apply wp_bind. eapply wp_eq; [unfold get_vec; by rewrite HV|].
    unfold begin_, end_, ptr_add, GetAddress, ptr_leb, ptr_eqb, ptr_diff. simpl.
    rewrite !bool_decide_eq_true_2 by done. simpl.
    apply wp_bind, wp_assert_true.
    { apply Nat.leb_le. lia. }
    destruct (Nat.eqb_spec i size) as [|_]; [lia|].
    unfold Capacity, RawMemory_Capacity. simpl. rewrite Nat.eqb_refl, Nat.sub_0_r.
    apply wp_bind, RawMemory_ctor_wp; try done.
    { lia. }
    2:{ intros _ Hbad. congruence. }
    intros _ _ b' Hb'.
    assert (b ≠ b') as Hne by (intros ->; congruence).
    apply wp_bind, wp_on_unwind, wp_bind.
    unfold RawMemory_plus. simpl.
    apply wp_bind, wp_assert_true; [apply Nat.leb_le; lia|].
    apply wp_ret. unfold ptr_add, GetAddress. simpl.
    apply wp_bind,
      (construct_at_wp _ b' i (replicate (grown_capacity size) None)); simpl.
    { by rewrite lookup_insert_eq. }
    { rewrite length_replicate. lia. }
    2:{ intros Hbad. congruence. }
    intros _. rewrite insert_insert_eq, insert_replicate_split by lia.
    (* the prefix *)
    apply wp_bind, wp_on_unwind. unfold MoveOrCopy. rewrite Hcopy.
    apply wp_bind.
    rewrite map_app in Hbuf.
    apply (uninitialized_copy_n_wp b b' front [] (map Some back) []
             (Some v :: replicate (grown_capacity size - S i) None) 0 0);
      simpl; try done.
    { by rewrite lookup_insert_ne. }
    { by rewrite lookup_insert_eq. }
    2:{ intros k' Hk' Hthrow' _.
        replace (S (S (ticks st + k'))) with (ticks st + (2 + k')) in Hthrow'
          by lia.
        rewrite Hbefore in Hthrow' by (fold i in Hk'; lia). done. }
    intros _. rewrite insert_insert_eq.
    eapply wp_eq.
    { apply (destroy_n_eq b front [] (map Some back) 0); simpl; [|done].
      by rewrite lookup_insert_ne. }
    simpl. fold i.
    (* the suffix *)
    apply wp_on_unwind, wp_bind, wp_bind.
    apply wp_assert_true; [apply Nat.leb_le; lia|].
    apply wp_ret, wp_bind, wp_bind.
    apply wp_assert_true; [apply Nat.leb_le; lia|].
    apply wp_ret. simpl. apply wp_bind.
    replace (size - i) with (length back) by lia.
    apply (uninitialized_copy_n_wp b b' back (replicate i None) []
             (map Some front ++ [Some v])
             (replicate (grown_capacity size - S size) None) i (i + 1)); simpl.
    { done. }
    { rewrite lookup_insert_eq. by rewrite app_nil_r. }
    { by rewrite length_replicate. }
    { rewrite lookup_insert_ne, lookup_insert_eq by done. f_equal.
      rewrite <- app_assoc. simpl. do 2 f_equal.
      rewrite <- replicate_add. f_equal. lia. }
    { rewrite length_app, length_map. simpl. done. }
    - intros Hall. specialize (Hall k Hk).
      enough (true = false) by done.
      rewrite <- Hthrow, <- Hall. f_equal. lia.
    - intros k' Hk' Hthrow' Hbefore'.
      assert (k' = k) as ->.
      { apply (first_throw_unique (ticks st + (2 + i))).
        - intros j Hj. rewrite <- Nat.add_assoc. apply Hbefore. lia.
        - by rewrite <- Nat.add_assoc.
        - intros j Hj.
          replace (ticks st + (2 + i) + j) with (S (S (ticks st + i)) + j) by lia.
          by apply Hbefore'.
        - by replace (ticks st + (2 + i) + k')
            with (S (S (ticks st + i)) + k') by lia. }
      replace (i + 1) with (length (front ++ [v]))
        by (by rewrite length_app).
      eapply wp_eq.
      { apply (destroy_n_eq b' (front ++ [v]) []
                 (replicate (grown_capacity size - S i) None) 0); simpl; [|done].
        rewrite lookup_insert_ne, lookup_insert_eq by done.
        by rewrite map_app, <- app_assoc. }
      simpl.
      eapply wp_eq.
      { unfold RawMemory_dtor, Deallocate, operator_delete. simpl.
        by rewrite lookup_insert_eq. }
      st_simpl. rewrite length_app. simpl.
      split_and!; try done; try lia.
      rewrite delete_insert_eq, delete_insert_ne by done.
      by rewrite (delete_insert_id _ _ _ Hb'). }
  unfold wp in Hwp.
  destruct (Emplace _ _ _ _) as [t st'|st'|]; try done.
  destruct Hwp as (Hvecs & Hheap & Hct & Hdt).
  exists st'. split_and!; try done.
  intros els' (Hlen' & _ & _ & Hbuf'). simpl in *.
  rewrite Hheap, lookup_insert_eq in Hbuf'.
  injection Hbuf' as Hbuf'.
  destruct els' as [|x els']; [simpl in Hlen'; lia|].
  destruct front; [done|]. simpl in Hbuf'. done.
Qed.

(** * Further properties of the operations *)

(** ** Element access *)

(** X1.  [operator[]] on a vector holding [els]: an index below the size
    yields the address of slot [index] of the block, which holds the
    element [els !! index], and changes nothing; an index at or above the
    size fails the assertion, also when it is below the capacity. *)
Theorem Vector_at_bounds this V els i st :
  vecs st !! this = Some V → valid st V els →
  (i < size_ V →
   ∃ x, els !! i = Some x ∧
     Vector_at this i st = Ok (ptr_add (begin_ V) i) st ∧
     load_slot (ptr_add (begin_ V) i) st = Some (Some x)) ∧
  (size_ V ≤ i → Vector_at this i st = Fault).
Proof.
  intros HV (Hlen & Hsz & Hcap & Hbuf).
  destruct V as [[buf cap] size]. simpl in *. split; intros Hi.
  - destruct (lookup_lt_is_Some_2 els i) as [x Hx]; [lia|].
    exists x. split; [done|].
    unfold Vector_at, RawMemory_at, bind, get_vec. rewrite HV. simpl.
    destruct (Nat.ltb_spec i size) as [_|]; [|lia]. simpl.
    destruct (Nat.ltb_spec i cap) as [_|]; [|lia]. simpl.
    split; [reflexivity|].
    destruct buf as [b|]; [|lia].
    unfold load_slot, begin_, GetAddress, ptr_add. simpl. rewrite Hbuf.
    rewrite lookup_app_l by (rewrite length_map; lia).
    by rewrite lookup_map_Some, Hx.
  - unfold Vector_at, bind, get_vec. rewrite HV. simpl.
    by destruct (Nat.ltb_spec i size) as [|_]; [lia|].
Qed.

(** ** Appending *)

(** X2.  [EmplaceBack], with or without reallocation: on normal return the
    vector holds the old elements in order followed by the new one, its
    size is one more, and the reference returned designates the new last
    element.  The call returns normally when no fallible step raises and
    the grown capacity fits in [PTRDIFF_MAX] bytes. *)
Theorem EmplaceBack_appends this V els v st :
  vecs st !! this = Some V → valid st V els →
  (∀ t st', EmplaceBack this v st = Ok t st' →
     ∃ V', vecs st' !! this = Some V' ∧ valid st' V' (els ++ [v]) ∧
       size_ V' = S (size_ V) ∧
       t = ptr_add (begin_ V') (size_ V) ∧
       load_slot t st' = Some (Some v)) ∧
  ((N.of_nat (grown_capacity (size_ V)) * sizeof_T ≤ SizeT.ptrdiff_max)%N →
   quiet st → ∃ t st', EmplaceBack this v st = Ok t st').
Proof.
  intros HV Hvalid.
  pose proof (EmplaceBack_runs this V els v st HV Hvalid) as Hruns.
  split.
  - intros t st' Hrun.
    destruct (runs_ok _ _ _ _ _ _ Hruns Hrun) as (V' & Hvs & Hvalid' & Ht & _).
    exists V'. pose proof Hvalid' as (Hlen' & Hsz' & _ & Hbuf').
    destruct Hvalid as (Hlen & _).
    rewrite length_app in Hlen'. simpl in Hlen'.
    split_and!; try done.
    + rewrite Hvs. by rewrite lookup_insert_eq.
    + lia.
    + rewrite Ht. unfold load_slot. simpl.
      destruct (buffer_ (data_ V')) as [b|]; [|lia].
      rewrite Hbuf', map_app, <- app_assoc. simpl.
      apply lookup_middle. rewrite length_map. done.
  - intros Hfit Hq.
    destruct (runs_quiet _ _ _ _ Hruns Hfit Hq) as (t & st' & Hrun & _).
    eauto.
Qed.

(** X3.  [PushBack] followed by [PopBack] gives the elements back: after
    the pair the vector holds exactly the elements it held before, with
    the size it had; [PopBack] never fails after a [PushBack]. *)
Theorem PushBack_PopBack_round_trip this V els v st st1 :
  vecs st !! this = Some V → valid st V els →
  PushBack this v st = Ok tt st1 →
  ∃ st2 V2, PopBack this st1 = Ok tt st2 ∧
    vecs st2 !! this = Some V2 ∧ valid st2 V2 els ∧
    size_ V2 = size_ V ∧ size_ V < Capacity V2 ∧
    ctors st2 = ctors st1 ∧ dtors st2 = S (dtors st1).
Proof.
  intros HV Hvalid Hrun.
  pose proof (EmplaceBack_runs this V els v st HV Hvalid) as Hruns.
  unfold PushBack, bind in Hrun.
  destruct (EmplaceBack this v st) as [t st1'| |] eqn:Hpush; try done.
  injection Hrun as <-.
  destruct (runs_ok _ _ _ _ _ _ Hruns Hpush) as (V' & Hvs & Hvalid' & _ & _).
  assert (vecs st1' !! this = Some V') as HV'
    by (rewrite Hvs; by rewrite lookup_insert_eq).
  pose proof Hvalid' as (Hlen' & Hsz' & _).
  destruct Hvalid as (Hlen & _).
  rewrite length_app in Hlen'. simpl in Hlen'.
  destruct (valid_nonempty_block _ _ _ Hvalid') as [b Hb]; [lia|].
  destruct V' as [[buf cap] size]. simpl in *. subst buf.
  eexists. exists (mkVector (mkRawMemory (Some b) cap) (size - 1)).
  split; [by apply (PopBack_eq this b cap size els v)|].
  simpl. split_and!; try done.
  - by rewrite lookup_insert_eq.
  - by apply PopBack_valid.
  - lia.
  - unfold Capacity, RawMemory_Capacity. simpl. lia.
Qed.

(** ** Exchange *)

Lemma Swap_run a b A B st :
  a ≠ b → vecs st !! a = Some A → vecs st !! b = Some B →
  Swap a b st = Ok tt (set_vecs (<[b := A]> (<[a := B]> (vecs st))) st).
Proof.
  intros Hne HA HB.
  unfold Swap, bind, put_vec, get_vec, modify. st_simpl.
  rewrite HA, HB. simpl.
  repeat (first [rewrite lookup_insert_eq
                | rewrite lookup_insert_ne by done]; simpl).
  rewrite insert2_insert2 by done. by destruct A, B.
Qed.

(** X4.  Move assignment between two distinct vectors exchanges their
    blocks and sizes and does nothing else: it cannot raise, it allocates
    and releases nothing, and no element is constructed, assigned or
    destroyed.  So the target holds the elements of the source, in the
    source's block, and the source holds what the target held. *)
Theorem move_assign_exchanges this rhs A B elsA elsB st :
  this ≠ rhs →
  vecs st !! this = Some A → vecs st !! rhs = Some B →
  valid st A elsA → valid st B elsB →
  ∃ st', move_assign this rhs st = Ok tt st' ∧
    st' = set_vecs (<[rhs := A]> (<[this := B]> (vecs st))) st ∧
    vecs st' !! this = Some B ∧ valid st' B elsB ∧
    vecs st' !! rhs = Some A ∧ valid st' A elsA.
Proof.
  intros Hne HA HB HvA HvB. eexists. split.
  - unfold move_assign. rewrite decide_True by done.
    by apply Swap_run.
  - st_simpl. split_and!; try done.
    + rewrite lookup_insert_ne by done. by rewrite lookup_insert_eq.
    + by rewrite lookup_insert_eq.
Qed.

(** X5.  [Swap] is an involution: swapping two vectors twice, or a vector
    with itself once, gives back the state as it was. *)
Theorem Swap_twice a b A B st :
  vecs st !! a = Some A → vecs st !! b = Some B →
  (Swap a b;; Swap a b) st = Ok tt st ∧
  (a = b → Swap a b st = Ok tt st).
Proof.
  intros HA HB.
  assert (∀ A', vecs st !! a = Some A' → Swap a a st = Ok tt st) as Hself.
  { intros [dA sA] HA'.
    unfold Swap, bind, put_vec, get_vec, modify. st_simpl.
    rewrite HA'. simpl. rewrite HA'. simpl.
    repeat (rewrite lookup_insert_eq; simpl).
    rewrite !insert_insert_eq. rewrite insert_id by done. by destruct st. }
  destruct (decide (a = b)) as [->|Hne].
  - split; [|intros _; by apply (Hself B)].
    unfold bind. rewrite (Hself B) by done. by apply (Hself B).
  - split; [|done]. unfold bind.
    rewrite (Swap_run a b A B) by done.
    rewrite (Swap_run a b B A); st_simpl.
    + rewrite insert2_insert2 by done.
      rewrite (insert_id _ a A) by done.
      rewrite insert_id by done. by destruct st.
    + done.
    + rewrite lookup_insert_ne by done. by rewrite lookup_insert_eq.
    + by rewrite lookup_insert_eq.
Qed.

(** ** [Reserve] *)

(** [Reserve] on a valid vector: a request within the capacity changes
    nothing; a larger one relocates the elements to a fresh block of [n]
    slots and releases the old block. *)
Lemma Reserve_runs this V els n st :
  vecs st !! this = Some V → valid st V els →
  (N.of_nat n * sizeof_T < SizeT.modulus)%N →
  runs (N.of_nat n * sizeof_T ≤ SizeT.ptrdiff_max)%N (Reserve this n) st
    (fun _ st' =>
       if n <=? capacity_ (data_ V) then st' = st
       else ∃ b', heap st !! b' = None ∧
         (N.of_nat n * sizeof_T ≤ SizeT.ptrdiff_max)%N ∧
         heap st' =
           <[b' := map Some els ++ replicate (n - size_ V) None]>
             (match buffer_ (data_ V) with
              | Some b => delete b (heap st)
              | None => heap st
              end) ∧
         vecs st' = <[this := mkVector (mkRawMemory (Some b') n) (size_ V)]> (vecs st) ∧
         ctors st' = ctors st + size_ V ∧ dtors st' = dtors st + size_ V).
Proof.
  intros HV (Hlen & Hsz & Hcap & Hbuf) Hword.
  destruct V as [[buf cap] size]. simpl in *.
  unfold Reserve.
  apply runs_bind, (runs_get_vec _ this _ _ _ HV). simpl.
  destruct (Nat.leb_spec n cap) as [Hle|Hgt].
  { by apply runs_ret. }
  apply runs_bind, RawMemory_ctor_runs; [done|done|lia|].
  intros _ Hfit b' Hb'.
  apply runs_bind, runs_on_unwind, runs_bind.
  unfold GetAddress. simpl.
  destruct buf as [b|].
  - assert (b ≠ b') as Hne by (intros ->; congruence).
    apply (relocate_runs _ b b' els [] (replicate (cap - size) None) []
             (replicate (n - size) None) 0 0 size); simpl; try done.
    { by rewrite lookup_insert_ne. }
    { rewrite lookup_insert_eq, <- replicate_add. do 2 f_equal. lia. }
    intros t' ys Hys.
    apply (runs_destroy_n' _ b ys [] (replicate (cap - size) None) 0 size);
      simpl; try done.
    { by rewrite lookup_insert_eq. }
    rewrite insert_insert_eq.
    apply runs_bind, runs_put_vec. st_simpl.
    eapply (runs_RawMemory_dtor _ b cap); st_simpl.
    { by rewrite lookup_insert_eq. }
    exists b'. split_and!; try done.
    rewrite delete_insert_eq, insert_insert_eq.
    by rewrite delete_insert_ne by done.
  - subst cap. assert (size = 0) as -> by lia.
    destruct els; [|done]. simpl.
    apply relocate_nil_runs. apply runs_ret.
    apply runs_bind, runs_put_vec. st_simpl.
    apply runs_ret. exists b'. split_and!; simpl; try done; try lia.
    by rewrite Nat.sub_0_r.
Qed.

(** X6.  [Reserve(n)] with [n] above the capacity, where the byte count
    [n * sizeof(T)] is below [2^64] and so does not wrap on [size_t]: on
    normal return the vector has a new block of capacity exactly [n]
    holding the same elements in the same order, the size is unchanged, the
    old block has been released, and each element was constructed once in
    the new block and destroyed once in the old one.  The call returns
    normally when no fallible step raises and [n] objects fit in
    [PTRDIFF_MAX] bytes. *)
Theorem Reserve_grows this V els n st :
  vecs st !! this = Some V → valid st V els →
  Capacity V < n → (N.of_nat n * sizeof_T < SizeT.modulus)%N →
  (∀ st', Reserve this n st = Ok tt st' →
     ∃ V', vecs st' !! this = Some V' ∧ valid st' V' els ∧
       Capacity V' = n ∧ size_ V' = size_ V ∧
       (∀ b, buffer_ (data_ V) = Some b →
          heap st' !! b = None ∧ buffer_ (data_ V') ≠ Some b) ∧
       ctors st' = ctors st + size_ V ∧ dtors st' = dtors st + size_ V) ∧
  ((N.of_nat n * sizeof_T ≤ SizeT.ptrdiff_max)%N → quiet st →
   ∃ st', Reserve this n st = Ok tt st').
Proof.
  intros HV Hvalid Hgt Hword.
  pose proof (Reserve_runs this V els n st HV Hvalid Hword) as Hruns.
  unfold Capacity, RawMemory_Capacity in Hgt.
  destruct (Nat.leb_spec n (capacity_ (data_ V))) as [|_]; [lia|].
  split.
  - intros st' Hrun.
    destruct (runs_ok _ _ _ _ _ _ Hruns Hrun)
      as (b' & Hb' & Hfit & Hheap & Hvs & Hc & Hd).
    destruct Hvalid as (Hlen & Hsz & Hcap & Hbuf).
    eexists. split; [rewrite Hvs; by rewrite lookup_insert_eq|].
    unfold valid, Capacity, RawMemory_Capacity. simpl.
    split_and!; try done; try lia.
    + rewrite Hheap. by rewrite lookup_insert_eq.
    + intros b Hb. rewrite Hb in Hbuf, Hheap.
      assert (b ≠ b') as Hne by (intros ->; congruence).
      split; [|congruence].
      rewrite Hheap, lookup_insert_ne by done. by rewrite lookup_delete_eq.
  - intros Hfit Hq.
    destruct (runs_quiet _ _ _ _ Hruns Hfit Hq) as ([] & st' & Hrun & _).
    eauto.
Qed.

(** A request for a block, whatever its size: it is refused before the
    oracle is asked when it is above [PTRDIFF_MAX]. *)
Lemma RawMemory_ctor_wp_any n st (Q : RawMemory → state → Prop) (E : state → Prop) :
  (N.of_nat n * sizeof_T < SizeT.modulus)%N →
  (n = 0 → Q (mkRawMemory None 0) st) →
  (n ≠ 0 → (N.of_nat n * sizeof_T ≤ SizeT.ptrdiff_max)%N →
   throws (ticks st) = false → ∀ b, heap st !! b = None →
     Q (mkRawMemory (Some b) n)
       (mkState (<[b := replicate n None]> (heap st)) (vecs st)
                (S (ticks st)) (ctors st) (dtors st))) →
  (n ≠ 0 → ¬ (N.of_nat n * sizeof_T ≤ SizeT.ptrdiff_max)%N → E st) →
  (n ≠ 0 → throws (ticks st) = true → E (set_ticks (S (ticks st)) st)) →
  wp False (RawMemory_ctor n) st Q E.
Proof.
  intros Hword H0 HS HE HE'.
  destruct (decide (N.of_nat n * sizeof_T ≤ SizeT.ptrdiff_max)%N) as [Hfit|Hbig].
  - apply RawMemory_ctor_wp; try done.
    intros Hn Hok. by apply HS.
  - unfold RawMemory_ctor, Allocate.
    destruct (Nat.eqb_spec n 0) as [->|Hn].
    { exfalso. apply Hbig. unfold SizeT.ptrdiff_max. simpl. lia. }
    apply wp_bind, wp_bind. unfold operator_new.
    rewrite wrap_small by done.
    destruct (N.ltb_spec SizeT.ptrdiff_max (N.of_nat n * sizeof_T)); [|lia].
    unfold wp, throw. by apply HE.
Qed.

(** X7.  Where the elements are relocated by copying (the move constructor
    of [T] may raise and [T] is copyable), [Reserve(n)] with a byte count
    [n * sizeof(T)] below [2^64], which does not wrap on [size_t], gives
    the strong guarantee: it returns normally with the same elements and a
    capacity of at least [n], or it raises and the free store and the
    vector are exactly as before the call, every object constructed in the
    new block having been destroyed again and the new block released.
    Under that condition on [n] it never faults. *)
Theorem Reserve_failure_rolls_back this V els n st :
  relocate_by_move = false →
  vecs st !! this = Some V → valid st V els →
  (N.of_nat n * sizeof_T < SizeT.modulus)%N →
  match Reserve this n st with
  | Ok _ st' =>
      ∃ V', vecs st' !! this = Some V' ∧ valid st' V' els ∧ n ≤ Capacity V'
  | Throw st' =>
      heap st' = heap st ∧ vecs st' = vecs st ∧
      ∃ k, ctors st' = ctors st + k ∧ dtors st' = dtors st + k
  | Fault => False
  end.
Proof.
  intros Hmode HV Hvalid Hword.
  pose proof Hvalid as (Hlen & Hsz & Hcap & Hbuf).
  destruct V as [[buf cap] size]. simpl in *.
  change (wp False (Reserve this n) st
    (fun _ st' => ∃ V', vecs st' !! this = Some V' ∧ valid st' V' els ∧
       n ≤ Capacity V')
    (fun st' => heap st' = heap st ∧ vecs st' = vecs st ∧
       ∃ k, ctors st' = ctors st + k ∧ dtors st' = dtors st + k)).
  unfold Reserve. rewrite Hmode.
  apply wp_bind. eapply wp_eq; [unfold get_vec; by rewrite HV|]. simpl.
  destruct (Nat.leb_spec n cap) as [Hle|Hgt].
  { apply wp_ret. eexists. split_and!; try done. }
  apply wp_bind, RawMemory_ctor_wp_any; [done|lia| | |].
  2,3: intros; st_simpl; split_and!; try done; exists 0; lia.
  intros _ Hfit Hok b' Hb'.
  unfold GetAddress. simpl.
  apply wp_bind, wp_on_unwind, wp_bind.
  destruct buf as [b|].
  - assert (b ≠ b') as Hne by (intros ->; congruence).
    rewrite <- Hlen.
    apply (uninitialized_copy_n_wp b b' els [] (replicate (cap - size) None)
             [] (replicate (n - size) None) 0 0); simpl; try done.
    { by rewrite lookup_insert_ne. }
    { rewrite lookup_insert_eq, <- replicate_add. do 2 f_equal. lia. }
    + intros _. rewrite insert_insert_eq.
      eapply wp_eq.
      { apply (destroy_n_eq b els [] (replicate (cap - size) None) 0);
          simpl; [|done]. by rewrite lookup_insert_ne. }
      simpl. apply wp_bind, wp_put_vec. st_simpl.
      eapply wp_eq.
      { unfold RawMemory_dtor, Deallocate, operator_delete. simpl.
        by rewrite lookup_insert_eq. }
      st_simpl. eexists. split; [by rewrite lookup_insert_eq|].
      unfold valid, Capacity, RawMemory_Capacity. simpl.
      split_and!; try done; try lia.
      rewrite delete_insert_eq, lookup_delete_ne, lookup_insert_eq by done.
      by rewrite Hlen.
    + intros k Hk Hthrow _.
      eapply wp_eq.
      { unfold RawMemory_dtor, Deallocate, operator_delete. simpl.
        by rewrite lookup_insert_eq. }
      st_simpl. rewrite (delete_insert_id _ _ _ Hb').
      split_and!; try done. by exists k.
  - subst cap. assert (size = 0) as -> by lia.
    destruct els; [|done]. simpl.
    apply wp_ret, wp_ret. apply wp_bind, wp_put_vec. st_simpl.
    eapply wp_eq; [reflexivity|].
    eexists. split; [simpl; by rewrite lookup_insert_eq|].
    unfold valid, Capacity, RawMemory_Capacity. simpl.
    split_and!; try done; try lia.
    by rewrite lookup_insert_eq, Nat.sub_0_r.
Qed.

(** ** Destruction *)

(** The state the destructor of a vector holding [els] leaves. *)
Lemma Vector_dtor_eq this V els st :
  vecs st !! this = Some V → valid st V els →
  Vector_dtor this st =
    Ok tt (mkState (match buffer_ (data_ V) with
                    | Some b => delete b (heap st)
                    | None => heap st
                    end)
                   (delete this (vecs st)) (ticks st) (ctors st)
                   (dtors st + size_ V)).
Proof.
  intros HV (Hlen & Hsz & Hcap & Hbuf).
  destruct V as [[buf cap] size]. simpl in *.
  unfold Vector_dtor, bind, get_vec. rewrite HV.
  unfold GetAddress. simpl. destruct buf as [b|].
  - rewrite <- Hlen.
    rewrite (destroy_n_eq b els [] (replicate (cap - length els) None) 0)
      by (simpl; (done || by rewrite Hlen)).
    unfold RawMemory_dtor, Deallocate, operator_delete, drop_vec, modify.
    st_simpl. rewrite lookup_insert_eq. st_simpl.
    by rewrite delete_insert_eq.
  - subst cap. assert (size = 0) as -> by lia.
    unfold drop_vec, modify, ret. st_simpl. by rewrite Nat.add_0_r.
Qed.

(** X8.  The destructor of a vector holding [els] never raises: it destroys
    each of the [size_] elements once, releases the block, and ends the
    vector object; every other block and every other vector is as before. *)
Theorem Vector_dtor_spec this V els st :
  vecs st !! this = Some V → valid st V els →
  ∃ st', Vector_dtor this st = Ok tt st' ∧
    vecs st' = delete this (vecs st) ∧
    (∀ b, buffer_ (data_ V) = Some b → heap st' = delete b (heap st)) ∧
    (buffer_ (data_ V) = None → heap st' = heap st) ∧
    ticks st' = ticks st ∧ ctors st' = ctors st ∧
    dtors st' = dtors st + length els.
Proof.
  intros HV Hvalid. eexists. split; [by apply (Vector_dtor_eq this V els)|].
  destruct Hvalid as (Hlen & _). simpl. split_and!; try done.
  - by intros b ->.
  - by intros ->.
  - by rewrite Hlen.
Qed.

(** ** Copy construction, state by state *)

Lemma Vector_copy_ctor_runs X this other A els st :
  vecs st !! other = Some A → valid st A els →
  runs X (Vector_copy_ctor this other) st
    (fun _ st' => ∃ data,
       match buffer_ data with
       | Some b' => heap st !! b' = None ∧
                    heap st' = <[b' := map Some els]> (heap st)
       | None => size_ A = 0 ∧ heap st' = heap st
       end ∧
       capacity_ data = size_ A ∧
       vecs st' = <[this := mkVector data (size_ A)]> (vecs st) ∧
       ctors st' = ctors st + size_ A ∧ dtors st' = dtors st).
Proof.
  intros HA Hvalid.
  pose proof Hvalid as (Hlen & Hsz & Hcap & Hbuf).
  unfold Vector_copy_ctor.
  apply runs_bind, (runs_get_vec _ other _ _ _ HA).
  assert (N.of_nat (size_ A) * sizeof_T ≤ SizeT.ptrdiff_max)%N as Hfit by nia.
  apply runs_bind, RawMemory_ctor_runs; [done| | |].
  { unfold SizeT.ptrdiff_max, SizeT.modulus in *. lia. }
  - intros Hsize. rewrite Hsize. simpl.
    apply runs_bind, runs_on_unwind, runs_ret. apply runs_put_vec.
    exists (mkRawMemory None 0). simpl. split_and!; try done; st_simpl; lia.
  - intros Hsize _ b' Hb'.
    destruct (valid_nonempty_block _ _ _ Hvalid) as [bA HbA]; [lia|].
    rewrite HbA in Hbuf.
    assert (bA ≠ b') as Hne by (intros ->; congruence).
    unfold GetAddress. rewrite HbA. simpl. rewrite <- Hlen.
    apply runs_bind, runs_on_unwind.
    apply (uninitialized_copy_n_runs _ bA b' els []
             (replicate (capacity_ (data_ A) - size_ A) None) [] [] 0 0);
      simpl; try done.
    { by rewrite lookup_insert_ne. }
    { rewrite lookup_insert_eq. by rewrite app_nil_r. }
    intros t'. rewrite insert_insert_eq, app_nil_r.
    apply runs_put_vec. st_simpl.
    exists (mkRawMemory (Some b') (length els)). simpl. by split_and!.
Qed.

(** X9.  A copy that is constructed and then destroyed leaves no trace: the
    free store and the vectors are as before the copy was made, and the
    destructor calls (one per element) match the constructor calls. *)
Theorem copy_then_destroy this other A els st st1 :
  vecs st !! other = Some A → valid st A els → vecs st !! this = None →
  Vector_copy_ctor this other st = Ok tt st1 →
  ∃ st2, Vector_dtor this st1 = Ok tt st2 ∧
    heap st2 = heap st ∧ vecs st2 = vecs st ∧
    ctors st2 = ctors st + length els ∧ dtors st2 = dtors st + length els.
Proof.
  intros HA Hvalid Hnew Hrun.
  pose proof Hvalid as (Hlen & Hsz & Hcap & Hbuf).
  destruct (runs_ok _ _ _ _ _ _
              (Vector_copy_ctor_runs True this other A els st HA Hvalid) Hrun)
    as ([buf cap] & Hheap & Hcap' & Hvs & Hc & Hd).
  simpl in *. subst cap.
  assert (valid st1 (mkVector (mkRawMemory buf (size_ A)) (size_ A)) els) as Hv1.
  { unfold valid. simpl. split_and!; try done; [nia|].
    destruct buf as [b'|].
    - destruct Hheap as [_ ->]. rewrite lookup_insert_eq, Nat.sub_diag. simpl.
      by rewrite app_nil_r.
    - by destruct Hheap. }
  eexists. split.
  { apply (Vector_dtor_eq this (mkVector (mkRawMemory buf (size_ A)) (size_ A))
             els); [|done].
    rewrite Hvs. by rewrite lookup_insert_eq. }
  simpl. split_and!; try lia.
  - destruct buf as [b'|]; destruct Hheap as [Hb' ->]; [|done].
    by apply delete_insert_id.
  - rewrite Hvs. by apply delete_insert_id.
Qed.

(** ** Value initialisation *)

(** [std::uninitialized_value_construct_n] into raw slots: either all [n]
    objects are constructed, or construction number [k] raises and the
    objects constructed before it are destroyed again. *)
Lemma uninitialized_value_construct_loop_wp bd n :
  ∀ dpre done dpost j st (Q : unit → state → Prop) (E : state → Prop),
  heap st !! bd = Some (dpre ++ map Some done ++ replicate n None ++ dpost) →
  length dpre = j →
  ((∀ k, k < n → throws (ticks st + k) = false) →
   Q tt (mkState (<[bd := dpre ++ map Some (done ++ replicate n value_init) ++ dpost]>
                    (heap st))
                 (vecs st) (ticks st + n) (ctors st + n) (dtors st))) →
  (∀ k, k < n → throws (ticks st + k) = true →
   (∀ k', k' < k → throws (ticks st + k') = false) →
   E (mkState (<[bd := dpre ++ replicate (length done + n) None ++ dpost]> (heap st))
              (vecs st) (ticks st + S k) (ctors st + k)
              (dtors st + (length done + k)))) →
  wp False (uninitialized_value_construct_loop (Some bd, j)
              (Some bd, j + length done) n) st Q E.
Proof.
  induction n as [|n IH]; intros dpre done dpost j st Q E Hd Hj HQ HE; simpl in *.
  - apply wp_ret. destruct st as [h vs t c d]. simpl in *.
    rewrite app_nil_r, !Nat.add_0_r in HQ.
    rewrite insert_id in HQ by done. apply HQ. intros k Hk. lia.
  - apply wp_bind, wp_on_unwind.
    apply (construct_at_wp _ bd (j + length done)
             (dpre ++ map Some done ++ None :: replicate n None ++ dpost));
      try done.
    + rewrite !length_app, length_map. simpl. lia.
    + intros Hok.
      replace (<[j + length done := Some value_init]>
                 (dpre ++ map Some done ++ None :: replicate n None ++ dpost))
        with (dpre ++ map Some (done ++ [value_init]) ++ replicate n None ++ dpost).
      2:{ rewrite insert_middle2 by (rewrite length_map; lia).
          rewrite map_app, <- !app_assoc. reflexivity. }
      unfold ptr_add. simpl.
      replace (j + length done + 1) with (j + length (done ++ [value_init]))
        by (rewrite length_app; simpl; lia).
      apply (IH dpre (done ++ [value_init]) dpost j); simpl.
      * by rewrite lookup_insert_eq.
      * done.
      * intros Hall. eapply state_cast.
        { apply HQ. intros [|k] Hk.
          - by rewrite Nat.add_0_r.
          - replace (ticks st + S k) with (S (ticks st) + k) by lia.
            apply Hall. lia. }
        simpl. rewrite insert_insert_eq, <- app_assoc. simpl.
        f_equal; lia.
      * intros k Hk Hthrow Hbefore. eapply state_cast.
        { apply (HE (S k)); [lia| |].
          - replace (ticks st + S k) with (S (ticks st) + k) by lia. done.
          - intros [|k'] Hk'.
            + by rewrite Nat.add_0_r.
            + replace (ticks st + S k') with (S (ticks st) + k') by lia.
              apply Hbefore. lia. }
        simpl. rewrite insert_insert_eq, length_app. simpl.
        replace (length done + 1 + n) with (length done + S n) by lia.
        f_equal; lia.
    + intros Hthrow. unfold destroy_range, ptr_diff. simpl.
      replace (j + length done - j) with (length done) by lia.
      eapply wp_eq.
      { apply (destroy_n_eq bd done dpre
                 (None :: replicate n None ++ dpost) j); simpl; done. }
      simpl. eapply state_cast.
      { apply (HE 0); [lia| |].
        - by rewrite Nat.add_0_r.
        - intros k' Hk'. lia. }
      f_equal; try lia.
      rewrite replicate_add. simpl. by rewrite <- app_assoc.
Qed.

Lemma uninitialized_value_construct_n_wp bd n dpre dpost j st
    (Q : unit → state → Prop) (E : state → Prop) :
  heap st !! bd = Some (dpre ++ replicate n None ++ dpost) → length dpre = j →
  ((∀ k, k < n → throws (ticks st + k) = false) →
   Q tt (mkState (<[bd := dpre ++ map Some (replicate n value_init) ++ dpost]>
                    (heap st))
                 (vecs st) (ticks st + n) (ctors st + n) (dtors st))) →
  (∀ k, k < n → throws (ticks st + k) = true →
   (∀ k', k' < k → throws (ticks st + k') = false) →
   E (mkState (heap st) (vecs st) (ticks st + S k) (ctors st + k) (dtors st + k))) →
  wp False (uninitialized_value_construct_n (Some bd, j) n) st Q E.
Proof.
  intros Hd Hj HQ HE. unfold uninitialized_value_construct_n.
  replace (Some bd, j) with (Some bd, j + length (@nil T)) at 2
    by (simpl; f_equal; lia).
  apply (uninitialized_value_construct_loop_wp bd n dpre [] dpost); try done.
  intros k Hk Hthrow Hbefore. simpl. rewrite insert_id by done.
  destruct st; by apply HE.
Qed.

Lemma uninitialized_value_construct_n_runs X bd n dpre dpost j st
    (Q : unit → state → Prop) :
  heap st !! bd = Some (dpre ++ replicate n None ++ dpost) → length dpre = j →
  (∀ t', Q tt (mkState (<[bd := dpre ++ map Some (replicate n value_init) ++ dpost]>
                          (heap st))
                 (vecs st) t' (ctors st + n) (dtors st))) →
  runs X (uninitialized_value_construct_n (Some bd, j) n) st Q.
Proof.
  intros Hd Hj HQ. apply wp_runs.
  apply (uninitialized_value_construct_n_wp bd n dpre dpost); try done.
  - intros _. simpl. split; [done | lia].
  - intros k Hk Hthrow _. by apply (throws_later_not_quiet st k).
Qed.

(** X10.  [Vector(size_t n)] with a byte count [n * sizeof(T)] below
    [2^64], which does not wrap on [size_t]: on normal return the new
    vector has size and capacity [n] and holds [n] value-initialised
    elements in a block of its own, one constructor call each, and every
    block that existed before is untouched.  If it raises, the elements
    constructed so far have been destroyed again and the block released, so
    the state is as before the call; and it raises only if a fallible step
    raised or [n] objects do not fit in [PTRDIFF_MAX] bytes.  Under that
    condition on [n] it never faults. *)
Theorem Vector_size_ctor_spec this n st :
  (N.of_nat n * sizeof_T < SizeT.modulus)%N →
  match Vector_size_ctor this n st with
  | Ok _ st' =>
      ∃ B, vecs st' = <[this := B]> (vecs st) ∧
        size_ B = n ∧ Capacity B = n ∧
        valid st' B (replicate n value_init) ∧
        (∀ blk l, heap st !! blk = Some l → heap st' !! blk = Some l) ∧
        ctors st' = ctors st + n ∧ dtors st' = dtors st
  | Throw st' =>
      heap st' = heap st ∧ vecs st' = vecs st ∧
      (∃ k, ctors st' = ctors st + k ∧ dtors st' = dtors st + k) ∧
      ¬ ((N.of_nat n * sizeof_T ≤ SizeT.ptrdiff_max)%N ∧ quiet st)
  | Fault => False
  end.
Proof.
  intros Hword.
  change (wp False (Vector_size_ctor this n) st
    (fun _ st' => ∃ B, vecs st' = <[this := B]> (vecs st) ∧
        size_ B = n ∧ Capacity B = n ∧
        valid st' B (replicate n value_init) ∧
        (∀ blk l, heap st !! blk = Some l → heap st' !! blk = Some l) ∧
        ctors st' = ctors st + n ∧ dtors st' = dtors st)
    (fun st' => heap st' = heap st ∧ vecs st' = vecs st ∧
      (∃ k, ctors st' = ctors st + k ∧ dtors st' = dtors st + k) ∧
      ¬ ((N.of_nat n * sizeof_T ≤ SizeT.ptrdiff_max)%N ∧ quiet st))).
  unfold Vector_size_ctor.
  apply wp_bind, RawMemory_ctor_wp_any; [done| | | |].
  - intros ->. unfold GetAddress. simpl.
    apply wp_bind, wp_on_unwind, wp_ret. apply wp_put_vec. st_simpl.
    eexists. split; [reflexivity|]. unfold valid. simpl.
    split_and!; try done; lia.
  - intros Hn Hfit Hok b' Hb'. unfold GetAddress. simpl.
    apply wp_bind, wp_on_unwind.
    apply (uninitialized_value_construct_n_wp b' n [] []); simpl; try done.
    { by rewrite lookup_insert_eq, app_nil_r. }
    + intros _. rewrite insert_insert_eq, app_nil_r.
      apply wp_put_vec. st_simpl.
      eexists. split; [reflexivity|].
      unfold valid, Capacity, RawMemory_Capacity. simpl.
      split_and!; try done; try lia.
      * by rewrite length_replicate.
      * rewrite lookup_insert_eq, Nat.sub_diag. simpl. by rewrite app_nil_r.
      * intros blk l Hl. rewrite lookup_insert_ne; [done|]. congruence.
    + intros k Hk Hthrow _.
      eapply wp_eq.
      { unfold RawMemory_dtor, Deallocate, operator_delete. simpl.
        by rewrite lookup_insert_eq. }
      st_simpl. rewrite (delete_insert_id _ _ _ Hb').
      split_and!; try done; [by exists k|].
      intros [_ Hq]. apply (throws_later_not_quiet st (S k)); [|done].
      rewrite <- Hthrow. f_equal. lia.
  - intros Hn Hbig. split_and!; try done; [exists 0; lia|]. by intros [? _].
  - intros Hn Hthrow. st_simpl. split_and!; try done; [exists 0; lia|].
    intros [_ Hq]. by apply (throws_not_quiet st).
Qed.

(** ** [Resize] *)

(** X11.  [Resize(n)] with [n] at most the size never raises and never
    allocates: it destroys the elements from position [n] on, one destructor
    call each, keeps the first [n] elements, the block and the capacity,
    and sets the size to [n]; with [n] equal to the size it does nothing. *)
Theorem Resize_shrinks this V els n st :
  vecs st !! this = Some V → valid st V els → n ≤ size_ V →
  ∃ st', Resize this n st = Ok tt st' ∧
    vecs st' = <[this := mkVector (data_ V) n]> (vecs st) ∧
    valid st' (mkVector (data_ V) n) (take n els) ∧
    (∀ b, buffer_ (data_ V) ≠ Some b → heap st' !! b = heap st !! b) ∧
    ticks st' = ticks st ∧ ctors st' = ctors st ∧
    dtors st' = dtors st + (size_ V - n) ∧
    (n = size_ V → st' = st).
Proof.
  intros HV (Hlen & Hsz & Hcap & Hbuf) Hn.
  destruct V as [[buf cap] size]. simpl in *.
  unfold Resize, bind, get_vec. rewrite HV. simpl.
  destruct (Nat.eqb_spec size n) as [->|Hne].
  - exists st. unfold valid. simpl.
    rewrite take_ge by lia. rewrite insert_id by done.
    split_and!; try done; lia.
  - destruct (Nat.ltb_spec n size) as [Hlt|]; [|lia].
    destruct buf as [b|]; [|lia].
    unfold GetAddress, ptr_add. simpl.
    assert (heap st !! b =
              Some (map Some (take n els) ++ map Some (drop n els) ++
                    replicate (cap - size) None)) as Hb.
    { rewrite Hbuf. rewrite app_assoc, <- map_app. by rewrite take_drop. }
    assert (length (drop n els) = size - n) as Hdrop
      by (rewrite length_drop; lia).
    rewrite <- Hdrop.
    rewrite (destroy_n_eq b (drop n els) (map Some (take n els))
               (replicate (cap - size) None) n _ Hb)
      by (rewrite length_map, length_take; lia).
    unfold put_vec, modify. st_simpl.
    eexists. split; [reflexivity|]. unfold valid. simpl.
    split_and!; try done; try lia.
    + rewrite length_take. lia.
    + rewrite lookup_insert_eq, Hdrop, <- replicate_add.
      do 3 f_equal. lia.
    + intros b0 Hb0. rewrite lookup_insert_ne; [done|]. congruence.
Qed.

Lemma Resize_runs this V els n st :
  vecs st !! this = Some V → valid st V els → size_ V < n →
  (N.of_nat n * sizeof_T < SizeT.modulus)%N →
  runs (N.of_nat n * sizeof_T ≤ SizeT.ptrdiff_max)%N (Resize this n) st
    (fun _ st' => ∃ V',
       vecs st' = <[this := V']> (vecs st) ∧
       valid st' V' (els ++ replicate (n - size_ V) value_init) ∧
       size_ V' = n ∧ Capacity V' = Nat.max n (Capacity V) ∧
       (n ≤ Capacity V → data_ V' = data_ V) ∧
       ctors st' = ctors st + (n - size_ V) +
                   (if n <=? Capacity V then 0 else size_ V)).
Proof.
  intros HV Hvalid Hn Hword.
  pose proof Hvalid as (Hlen & Hsz & Hcap & Hbuf).
  unfold Resize.
  apply runs_bind, (runs_get_vec _ this _ _ _ HV).
  destruct (Nat.eqb_spec (size_ V) n) as [|_]; [lia|].
  destruct (Nat.ltb_spec n (size_ V)) as [|_]; [lia|].
  apply runs_bind.
  eapply runs_mono; [by apply (Reserve_runs this V els n st)|].
  intros [] st1 Hst1. simpl in Hst1.
  assert (∃ b1 cap1,
    vecs st1 = <[this := mkVector (mkRawMemory (Some b1) cap1) (size_ V)]> (vecs st) ∧
    heap st1 !! b1 = Some (map Some els ++ replicate (cap1 - size_ V) None) ∧
    cap1 = Nat.max n (capacity_ (data_ V)) ∧
    (N.of_nat cap1 * sizeof_T ≤ SizeT.ptrdiff_max)%N ∧
    (n ≤ capacity_ (data_ V) → mkRawMemory (Some b1) cap1 = data_ V) ∧
    ctors st1 = ctors st + (if n <=? capacity_ (data_ V) then 0 else size_ V) ∧
    dtors st ≤ dtors st1)
    as (b1 & cap1 & Hvs1 & Hb1 & Hcap1 & Hfit1 & Hsame & Hc1 & Hd1).
  { destruct (Nat.leb_spec n (capacity_ (data_ V))) as [Hle|Hgt].
    - subst st1.
      destruct (valid_nonempty_block _ _ _ Hvalid) as [b Hb]; [lia|].
      rewrite Hb in Hbuf. exists b, (capacity_ (data_ V)).
      destruct V as [[buf cap] size]. simpl in *. subst buf.
      rewrite insert_id by done.
      split_and!; try done; lia.
    - destruct Hst1 as (b' & Hb' & Hfit & Hheap & Hvs & Hc & Hd).
      exists b', n. split_and!; try done; try lia.
      rewrite Hheap. by rewrite lookup_insert_eq. }
  apply runs_bind.
  eapply (runs_get_vec _ this); [rewrite Hvs1; by rewrite lookup_insert_eq|].
  unfold GetAddress, ptr_add. simpl.
  apply runs_bind.
  apply (uninitialized_value_construct_n_runs _ b1 (n - size_ V) (map Some els)
           (replicate (cap1 - n) None)).
  { rewrite Hb1, <- replicate_add. do 3 f_equal. lia. }
  { by rewrite length_map. }
  intros t'. apply runs_put_vec. st_simpl.
  eexists. split; [rewrite Hvs1; by rewrite insert_insert_eq|].
  unfold valid, Capacity, RawMemory_Capacity. simpl.
  split_and!; try done; try lia.
  - rewrite length_app, length_replicate. lia.
  - rewrite lookup_insert_eq, map_app, <- app_assoc. done.
Qed.

(** X12.  [Resize(n)] with [n] above the size: on normal return the vector
    holds the old elements in order followed by [n - size_] value-initialised
    ones; its capacity is unchanged (and so is its block) when [n] is within
    it, and exactly [n] otherwise.  The call returns normally when no
    fallible step raises and [n] objects fit in [PTRDIFF_MAX] bytes. *)
Theorem Resize_grows this V els n st :
  vecs st !! this = Some V → valid st V els → size_ V < n →
  (N.of_nat n * sizeof_T < SizeT.modulus)%N →
  (∀ st', Resize this n st = Ok tt st' →
     ∃ V', vecs st' !! this = Some V' ∧
       valid st' V' (els ++ replicate (n - size_ V) value_init) ∧
       size_ V' = n ∧ Capacity V' = Nat.max n (Capacity V) ∧
       (n ≤ Capacity V → data_ V' = data_ V)) ∧
  ((N.of_nat n * sizeof_T ≤ SizeT.ptrdiff_max)%N → quiet st →
   ∃ st', Resize this n st = Ok tt st').
Proof.
  intros HV Hvalid Hn Hword.
  pose proof (Resize_runs this V els n st HV Hvalid Hn Hword) as Hruns.
  split.
  - intros st' Hrun.
    destruct (runs_ok _ _ _ _ _ _ Hruns Hrun)
      as (V' & Hvs & Hvalid' & Hsize & Hcap' & Hdata & _).
    exists V'. split_and!; try done.
    rewrite Hvs. by rewrite lookup_insert_eq.
  - intros Hfit Hq.
    destruct (runs_quiet _ _ _ _ Hruns Hfit Hq) as ([] & st' & Hrun & _).
    eauto.
Qed.

(** ** Copy assignment between two vectors *)

Lemma copy_assign_elem_runs X bs i ls bd j ld v w st (Q : unit → state → Prop) :
  bs ≠ bd →
  heap st !! bs = Some ls → ls !! i = Some (Some v) →
  heap st !! bd = Some ld → ld !! j = Some (Some w) →
  (∀ t', Q tt (mkState (<[bd := <[j := Some v]> ld]> (heap st)) (vecs st) t'
                 (ctors st) (dtors st))) →
  runs X (copy_assign_elem (Some bd, j) (Some bs, i)) st Q.
Proof.
  intros Hne Hs Hi Hd Hj HQ. unfold copy_assign_elem.
  apply runs_bind, (runs_read _ bs i ls v); try done.
  apply runs_bind, (runs_read _ bd j ld w); try done.
  apply runs_bind, runs_fallible.
  apply (runs_write _ bd j ld); st_simpl; try done.
  eauto using lookup_lt_Some.
Qed.

(** [std::copy] from one block onto live objects of another. *)
Lemma std_copy_n_runs X bs bd (Hne : bs ≠ bd) xs :
  ∀ ys spre spost dpre dpost i j st (Q : unit → state → Prop),
  length ys = length xs →
  heap st !! bs = Some (spre ++ map Some xs ++ spost) → length spre = i →
  heap st !! bd = Some (dpre ++ map Some ys ++ dpost) → length dpre = j →
  (∀ t', Q tt (mkState (<[bd := dpre ++ map Some xs ++ dpost]> (heap st))
                 (vecs st) t' (ctors st) (dtors st))) →
  runs X (std_copy_n (Some bs, i) (length xs) (Some bd, j)) st Q.
Proof.
  induction xs as [|x xs IH];
    intros ys spre spost dpre dpost i j st Q Hlen Hs Hi Hd Hj HQ.
  - destruct ys; [|done]. simpl in *. apply runs_ret.
    specialize (HQ (ticks st)). rewrite insert_id in HQ by done.
    by destruct st.
  - destruct ys as [|y ys]; [done|]. simpl in *.
    apply runs_bind.
    apply (copy_assign_elem_runs _ bs i (spre ++ Some x :: map Some xs ++ spost)
             bd j (dpre ++ Some y :: map Some ys ++ dpost) x y); try done.
    { by apply lookup_middle. }
    { by apply lookup_middle. }
    intros t'. unfold ptr_add. simpl.
    rewrite insert_middle by done.
    apply (IH ys (spre ++ [Some x]) spost (dpre ++ [Some x]) dpost); simpl.
    + lia.
    + rewrite lookup_insert_ne by done. by rewrite <- app_assoc.
    + rewrite length_app. simpl. lia.
    + rewrite lookup_insert_eq. by rewrite <- app_assoc.
    + rewrite length_app. simpl. lia.
    + intros t''. rewrite insert_insert_eq, <- app_assoc. apply HQ.
Qed.

Lemma runs_with_state {A} X (k : state → M A) st (Q : A → state → Prop) :
  runs X (k st) st Q → runs X (fun s => k s s) st Q.
Proof. done. Qed.

Lemma copy_assign_runs this rhs V R elsV elsR st :
  this ≠ rhs →
  vecs st !! this = Some V → vecs st !! rhs = Some R →
  valid st V elsV → valid st R elsR →
  (∀ b, buffer_ (data_ V) = Some b → buffer_ (data_ R) ≠ Some b) →
  runs True (copy_assign this rhs) st
    (fun _ st' => ∃ V',
       vecs st' !! this = Some V' ∧ valid st' V' elsR ∧
       vecs st' !! rhs = Some R ∧ valid st' R elsR ∧
       Capacity V' = (if Capacity V <? size_ R then size_ R else Capacity V) ∧
       (size_ R ≤ Capacity V → data_ V' = data_ V)).
Proof.
  intros Hne HV HR HvV HvR Hown.
  pose proof HvV as (HlenV & HszV & HcapV & HbufV).
  pose proof HvR as (HlenR & HszR & HcapR & HbufR).
  unfold copy_assign. rewrite decide_True by done.
  apply runs_bind, (runs_get_vec _ this _ _ _ HV).
  apply runs_bind, (runs_get_vec _ rhs _ _ _ HR).
  unfold Capacity, RawMemory_Capacity.
  destruct (Nat.ltb_spec (capacity_ (data_ V)) (size_ R)) as [Hsmall|Hroom].
  - (* a copy of [rhs] is made and swapped in *)
    apply (runs_with_state True (fun s =>
       bind (Vector_copy_ctor (fresh (dom (vecs s))) rhs)
         (fun _ => bind (Swap this (fresh (dom (vecs s))))
                     (fun _ => Vector_dtor (fresh (dom (vecs s))))))).
    set (rc := fresh (dom (vecs st))).
    assert (rc ≠ this) as Hrc1 by (by apply (fresh_loc_ne _ _ V)).
    assert (rc ≠ rhs) as Hrc2 by (by apply (fresh_loc_ne _ _ R)).
    apply runs_bind.
    eapply runs_mono; [by apply (Vector_copy_ctor_runs _ rc rhs R elsR)|].
    intros [] st1 ([[b'|] cap'] & Hheap & Hcap' & Hvs1 & _); simpl in *;
      [|lia].
    destruct Hheap as [Hb' Hheap1]. subst cap'.
    set (C := mkVector (mkRawMemory (Some b') (size_ R)) (size_ R)) in *.
    apply runs_bind.
    eapply runs_eq.
    { apply (Swap_run this rc V C); [done| |]; rewrite Hvs1.
      - by rewrite lookup_insert_ne.
      - by rewrite lookup_insert_eq. }
    { done. }
    assert (valid (set_vecs (<[rc := V]> (<[this := C]> (vecs st1))) st1) V elsV)
      as HvV2.
    { unfold valid. st_simpl. split_and!; try done.
      destruct (buffer_ (data_ V)) as [b|]; [|done].
      rewrite Hheap1, lookup_insert_ne; [done|]. congruence. }
    eapply runs_eq.
    { apply (Vector_dtor_eq rc V elsV); [|done].
      st_simpl. by rewrite lookup_insert_eq. }
    { done. }
    st_simpl. exists C.
    assert (∀ b, buffer_ (data_ V) = Some b → b ≠ b') as Hfresh.
    { intros b Hb ->. rewrite Hb in HbufV. congruence. }
    split_and!.
    + rewrite lookup_delete_ne by done.
      rewrite lookup_insert_ne by done. by rewrite lookup_insert_eq.
    + unfold valid. simpl. split_and!; try done; [nia|].
      rewrite Nat.sub_diag. simpl. rewrite app_nil_r.
      destruct (buffer_ (data_ V)) as [b|] eqn:Hb.
      * rewrite lookup_delete_ne by (by apply Hfresh).
        rewrite Hheap1. by rewrite lookup_insert_eq.
      * rewrite Hheap1. by rewrite lookup_insert_eq.
    + rewrite lookup_delete_ne by done.
      rewrite !lookup_insert_ne by done.
      rewrite Hvs1. by rewrite lookup_insert_ne.
    + unfold valid. simpl. split_and!; try done.
      destruct (buffer_ (data_ R)) as [bR|] eqn:HbR; [|done].
      assert (bR ≠ b') as HbR' by (intros ->; congruence).
      destruct (buffer_ (data_ V)) as [b|] eqn:Hb.
      * rewrite lookup_delete_ne
          by (intros Heq; apply (Hown b eq_refl); by rewrite Heq).
        rewrite Hheap1. by rewrite lookup_insert_ne.
      * rewrite Hheap1. by rewrite lookup_insert_ne.
    + done.
    + lia.
  - (* the block of the target is reused *)
    destruct V as [[bufV capV] sizeV], R as [[bufR capR] sizeR].
    simpl in *. unfold GetAddress, ptr_add. simpl.
    apply runs_bind.
    destruct (Nat.ltb_spec sizeR sizeV) as [Hless|Hmore].
    + (* fewer elements than before *)
      destruct bufV as [b|]; [|lia].
      apply runs_bind. unfold std_copy, ptr_diff. simpl.
      rewrite Nat.sub_0_r.
      assert (runs True (std_copy_n (bufR, 0) sizeR (Some b, 0)) st
        (fun _ st1 => ∃ t',
           st1 = mkState (<[b := map Some elsR ++ map Some (drop sizeR elsV) ++
                                 replicate (capV - sizeV) None]> (heap st))
                         (vecs st) t' (ctors st) (dtors st))) as Hcopy.
      { destruct bufR as [bR|].
        - assert (bR ≠ b) as Hbb by (intros ->; by apply (Hown b)).
          rewrite <- HlenR.
          apply (std_copy_n_runs _ bR b Hbb elsR
                   (take (length elsR) elsV) [] (replicate (capR - sizeR) None) []
                   (map Some (drop (length elsR) elsV) ++
                    replicate (capV - sizeV) None) 0 0); simpl; try done.
          + rewrite length_take. lia.
          + rewrite HbufV, app_assoc, <- map_app. by rewrite take_drop.
          + intros t'. by exists t'.
        - subst capR. assert (sizeR = 0) as -> by lia.
          destruct elsR; [|done]. simpl. apply runs_ret.
          exists (ticks st). rewrite drop_0, insert_id by done. by destruct st. }
      eapply runs_mono; [exact Hcopy|].
      intros [] st1 [t' ->].
      assert (length (drop sizeR elsV) = sizeV - sizeR) as Hdrop
        by (rewrite length_drop; lia).
      apply (runs_destroy_n' _ b (drop sizeR elsV) (map Some elsR)
               (replicate (capV - sizeV) None)); simpl; try done.
      { by rewrite lookup_insert_eq. }
      { by rewrite length_map. }
      rewrite insert_insert_eq.
      apply runs_put_vec. st_simpl.
      exists (mkVector (mkRawMemory (Some b) capV) sizeR).
      destruct (Nat.ltb_spec capV sizeR) as [|_]; [lia|].
      unfold valid. simpl. split_and!; try done; try lia.
      * by rewrite lookup_insert_eq.
      * rewrite lookup_insert_eq, <- replicate_add. do 3 f_equal. lia.
      * by rewrite lookup_insert_ne.
      * destruct bufR as [bR|]; [|done].
        rewrite lookup_insert_ne; [done|]. intros <-. by apply (Hown b).
    + (* at least as many elements as before *)
      destruct (Nat.ltb_spec capV sizeR) as [|_]; [lia|].
      destruct bufV as [b|], bufR as [bR|].
      * assert (bR ≠ b) as Hbb by (intros ->; by apply (Hown b)).
        apply runs_bind. unfold std_copy, ptr_diff. simpl.
        rewrite Nat.sub_0_r.
        assert (length (take sizeV elsR) = sizeV) as Htake
          by (rewrite length_take; lia).
        assert (length (drop sizeV elsR) = sizeR - sizeV) as Hdrop
          by (rewrite length_drop; lia).
        assert (heap st !! bR =
                  Some (map Some (take sizeV elsR) ++ map Some (drop sizeV elsR) ++
                        replicate (capR - sizeR) None)) as HbR.
        { rewrite HbufR, app_assoc, <- map_app. by rewrite take_drop. }
        rewrite <- Htake at 1.
        apply (std_copy_n_runs _ bR b Hbb (take sizeV elsR) elsV []
                 (map Some (drop sizeV elsR) ++ replicate (capR - sizeR) None) []
                 (replicate (capV - sizeV) None) 0 0); simpl; try done.
        { lia. }
        intros t'. rewrite <- Hdrop.
        apply (uninitialized_copy_n_runs _ bR b (drop sizeV elsR)
                 (map Some (take sizeV elsR)) (replicate (capR - sizeR) None)
                 (map Some (take sizeV elsR)) (replicate (capV - sizeR) None));
          simpl; try done.
        { by rewrite lookup_insert_ne. }
        { by rewrite length_map. }
        { rewrite lookup_insert_eq, Hdrop, <- replicate_add. do 3 f_equal. lia. }
        { by rewrite length_map. }
        intros t''. rewrite insert_insert_eq.
        apply runs_put_vec. st_simpl.
        exists (mkVector (mkRawMemory (Some b) capV) sizeR).
        unfold valid. simpl. split_and!; try done; try lia.
        -- by rewrite lookup_insert_eq.
        -- rewrite lookup_insert_eq, app_assoc, <- map_app. by rewrite take_drop.
        -- by rewrite lookup_insert_ne.
        -- by rewrite lookup_insert_ne.
      * subst capR. assert (sizeR = 0) as -> by lia.
        assert (sizeV = 0) as -> by lia.
        apply runs_bind, runs_ret, runs_ret.
        apply runs_put_vec. st_simpl.
        exists (mkVector (mkRawMemory (Some b) capV) 0).
        destruct elsV, elsR; try done.
        rewrite insert_id by done.
        unfold valid. simpl. by split_and!.
      * subst capV. assert (sizeR = 0) as -> by lia.
        assert (sizeV = 0) as -> by lia.
        apply runs_bind, runs_ret, runs_ret.
        apply runs_put_vec. st_simpl.
        exists (mkVector (mkRawMemory None 0) 0).
        destruct elsV, elsR; try done.
        rewrite insert_id by done.
        unfold valid. simpl. by split_and!.
      * subst capV. assert (sizeR = 0) as -> by lia.
        assert (sizeV = 0) as -> by lia.
        apply runs_bind, runs_ret, runs_ret.
        apply runs_put_vec. st_simpl.
        exists (mkVector (mkRawMemory None 0) 0).
        destruct elsV, elsR; try done.
        rewrite insert_id by done.
        unfold valid. simpl. by split_and!.
Qed.

(** X13.  Copy assignment [a = b] between two distinct vectors that own
    distinct blocks: on normal return [a] holds copies of [b]'s elements in
    order and [b] is unchanged.  When [b]'s size is within [a]'s capacity,
    [a] keeps its block and capacity; otherwise [a]'s capacity becomes
    exactly [b]'s size.  The call returns normally when no fallible step
    raises. *)
Theorem copy_assign_distinct this rhs V R elsV elsR st :
  this ≠ rhs →
  vecs st !! this = Some V → vecs st !! rhs = Some R →
  valid st V elsV → valid st R elsR →
  (∀ b, buffer_ (data_ V) = Some b → buffer_ (data_ R) ≠ Some b) →
  (∀ st', copy_assign this rhs st = Ok tt st' →
     ∃ V', vecs st' !! this = Some V' ∧ valid st' V' elsR ∧
       vecs st' !! rhs = Some R ∧ valid st' R elsR ∧
       Capacity V' = (if Capacity V <? size_ R then size_ R else Capacity V) ∧
       (size_ R ≤ Capacity V → data_ V' = data_ V)) ∧
  (quiet st → ∃ st', copy_assign this rhs st = Ok tt st').
Proof.
  intros Hne HV HR HvV HvR Hown.
  pose proof (copy_assign_runs this rhs V R elsV elsR st Hne HV HR HvV HvR Hown)
    as Hruns.
  split.
  - intros st' Hrun. exact (runs_ok _ _ _ _ _ _ Hruns Hrun).
  - intros Hq.
    destruct (runs_quiet _ _ _ _ Hruns I Hq) as ([] & st' & Hrun & _).
    eauto.
Qed.

(** ** Failures that are rolled back *)


(** X15.  [Emplace] in the middle of a full vector whose elements are
    relocated by copying: if, after the allocation and the construction of
    the new element, the copy number [k] of the elements before the
    position raises, the call raises with the free store and the vector
    exactly as before.  The [k] copies and the new element have been
    destroyed again, so constructor and destructor calls balance, and the
    new block has been released. *)
Theorem Emplace_prefix_failure_rolls_back this V front back v k st :
  vecs st !! this = Some V → valid st V (front ++ back) →
  size_ V = Capacity V → relocate_by_move = false →
  (N.of_nat (grown_capacity (size_ V)) * sizeof_T ≤ SizeT.ptrdiff_max)%N →
  back ≠ [] → k < length front →
  (∀ j, j < 2 + k → throws (ticks st + j) = false) →
  throws (ticks st + (2 + k)) = true →
  ∃ st', Emplace this (ptr_add (begin_ V) (length front)) v st = Throw st' ∧
    heap st' = heap st ∧ vecs st' = vecs st ∧
    ctors st' = ctors st + (k + 1) ∧ dtors st' = dtors st + (k + 1).
Proof.
  intros HV Hvalid Hfull Hcopy Hfits Hback Hk Hbefore Hthrow.
  pose proof Hvalid as (Hlen & Hsz & Hcap & Hbuf).
  rewrite length_app in Hlen.
  destruct (valid_nonempty_block _ _ _ Hvalid) as [b Hb].
  { unfold Capacity, RawMemory_Capacity in Hfull. lia. }
  rewrite Hb in Hbuf.
  pose proof (grown_capacity_spec _ Hcap) as Hgrow.
  unfold Capacity, RawMemory_Capacity in Hfull. rewrite <- Hfull in Hgrow.
  rewrite <- Hfull, Nat.sub_diag in Hbuf. simpl in Hbuf.
  rewrite app_nil_r in Hbuf.
  destruct V as [[buf cap] size]. simpl in *. subst buf cap.
  assert (throws (ticks st) = false) as Hok0.
  { rewrite <- (Nat.add_0_r (ticks st)). apply Hbefore. lia. }
  assert (throws (S (ticks st)) = false) as Hok1.
  { replace (S (ticks st)) with (ticks st + 1) by lia. apply Hbefore. lia. }
  set (i := length front) in *.
  assert (0 < length back) as Hb0 by (destruct back; [done | simpl; lia]).
  assert (wp False
            (Emplace this
               (ptr_add (begin_ (mkVector (mkRawMemory (Some b) size) size)) i) v)
            st (fun _ _ => False)
            (fun st' => heap st' = heap st ∧ vecs st' = vecs st ∧
               ctors st' = ctors st + (k + 1) ∧
               dtors st' = dtors st + (k + 1)))
    as Hwp.
  { unfold Emplace.
    apply wp_bind. eapply wp_eq; [unfold get_vec; by rewrite HV|].
    unfold begin_, end_, ptr_add, GetAddress, ptr_leb, ptr_eqb, ptr_diff. simpl.
    rewrite !bool_decide_eq_true_2 by done. simpl.
    apply wp_bind, wp_assert_true.
    { apply Nat.leb_le. lia. }
    destruct (Nat.eqb_spec i size) as [|_]; [lia|].
    unfold Capacity, RawMemory_Capacity. simpl. rewrite Nat.eqb_refl, Nat.sub_0_r.
    apply wp_bind, RawMemory_ctor_wp; try done.
    { lia. }
    2:{ intros _ Hbad. congruence. }
    intros _ _ b' Hb'.
    assert (b ≠ b') as Hne by (intros ->; congruence).
    apply wp_bind, wp_on_unwind, wp_bind.
    unfold RawMemory_plus. simpl.
    apply wp_bind, wp_assert_true; [apply Nat.leb_le; lia|].
    apply wp_ret. unfold ptr_add, GetAddress. simpl.
    apply wp_bind,
      (construct_at_wp _ b' i (replicate (grown_capacity size) None)); simpl.
    { by rewrite lookup_insert_eq. }
    { rewrite length_replicate. lia. }
    2:{ intros Hbad. congruence. }
    intros _. rewrite insert_insert_eq, insert_replicate_split by lia.
    (* the prefix *)
    apply wp_bind, wp_on_unwind. unfold MoveOrCopy. rewrite Hcopy.
    apply wp_bind.
    rewrite map_app in Hbuf.
    apply (uninitialized_copy_n_wp b b' front [] (map Some back) []
             (Some v :: replicate (grown_capacity size - S i) None) 0 0);
      simpl; try done.
    { by rewrite lookup_insert_ne. }
    { by rewrite lookup_insert_eq. }
    - intros Hall. specialize (Hall k Hk).
      enough (true = false) by done.
      rewrite <- Hthrow, <- Hall. f_equal. lia.
    - intros k' Hk' Hthrow' Hbefore'.
      assert (k' = k) as ->.
      { apply (first_throw_unique (ticks st + 2)).
        - intros j Hj. rewrite <- Nat.add_assoc. apply Hbefore. lia.
        - by rewrite <- Nat.add_assoc.
        - intros j Hj.
          replace (ticks st + 2 + j) with (S (S (ticks st)) + j) by lia.
          by apply Hbefore'.
        - by replace (ticks st + 2 + k') with (S (S (ticks st)) + k') by lia. }
      unfold RawMemory_at. simpl.
      apply wp_bind, wp_bind, wp_assert_true; [apply Nat.ltb_lt; lia|].
      apply wp_ret. unfold ptr_add, GetAddress. simpl.
      eapply wp_eq.
      { apply (destroy_at_eq b' i
                 (replicate i None ++
                  Some v :: replicate (grown_capacity size - S i) None) v); simpl.
        - by rewrite lookup_insert_eq.
        - apply lookup_middle. by rewrite length_replicate. }
      simpl.
      eapply wp_eq.
      { unfold RawMemory_dtor, Deallocate, operator_delete. simpl.
        by rewrite lookup_insert_eq. }
      st_simpl. split_and!; try done; try lia.
      rewrite delete_insert_eq.
      by rewrite (delete_insert_id _ _ _ Hb'). }
  unfold wp in Hwp.
  destruct (Emplace _ _ _ _) as [t st'|st'|]; try done.
  by exists st'.
Qed.

(** ** Removal and insertion in place *)

(** X16.  [Erase] at index [i]: for [i] below the size, on normal return
    the vector holds the old elements without the one at index [i], in the
    same order, in the same block with the same capacity, and its size is
    one less.  For [i] at or above the size (so also for [end()]) the
    assertion on the position fails. *)
Theorem Erase_removes this V els i st :
  vecs st !! this = Some V → valid st V els →
  (i < size_ V →
   ∀ q st', Erase this (ptr_add (begin_ V) i) st = Ok q st' →
     ∃ V', vecs st' !! this = Some V' ∧
       valid st' V' (take i els ++ drop (S i) els) ∧
       data_ V' = data_ V ∧ size_ V' = size_ V - 1) ∧
  (size_ V ≤ i → Erase this (ptr_add (begin_ V) i) st = Fault).
Proof.
  intros HV Hvalid. pose proof Hvalid as (Hlen & _). split.
  - intros Hi q st' Hok.
    destruct (lookup_lt_is_Some_2 els i) as [x Hx]; [lia|].
    pose proof (take_drop_middle els i x Hx) as Hsplit.
    assert (length (take i els) = i) as Hfront by (rewrite length_take; lia).
    rewrite <- Hsplit in Hvalid.
    pose proof (Erase_runs True this V (take i els) x (drop (S i) els) st HV Hvalid)
      as Hruns.
    rewrite Hfront in Hruns.
    destruct (runs_ok _ _ _ _ _ _ Hruns Hok)
      as (V' & Hvecs & Hvalid' & Hdata & _).
    exists V'. split_and!; try done.
    + by rewrite Hvecs, lookup_insert_eq.
    + destruct Hvalid' as (Hlen' & _).
      rewrite length_app, length_drop, Hfront in Hlen'. lia.
  - intros Hi. unfold Erase, bind, get_vec. rewrite HV.
    unfold ptr_leb, ptr_ltb, begin_, end_, ptr_add, GetAddress. simpl.
    destruct (Nat.ltb_spec i (size_ V)) as [|_]; [lia|].
    by rewrite !andb_false_r.
Qed.

(** X17.  [Emplace] before an element of a vector with spare capacity does
    not reallocate: on normal return the block and the capacity are the
    same, the vector holds the old elements with the new one at the
    position, the result points to that position, and no other block is
    touched.  Two objects were constructed (the temporary and a new last
    element) and one destroyed (the temporary); the elements from the
    position on were shifted by move assignment.  The call returns normally
    when no fallible step raises. *)
Theorem Emplace_in_place this V front back v st :
  vecs st !! this = Some V → valid st V (front ++ back) →
  back ≠ [] → size_ V < Capacity V →
  (∀ p st', Emplace this (ptr_add (begin_ V) (length front)) v st = Ok p st' →
     p = ptr_add (begin_ V) (length front) ∧
     vecs st' = <[this := mkVector (data_ V) (S (size_ V))]> (vecs st) ∧
     valid st' (mkVector (data_ V) (S (size_ V))) (front ++ v :: back) ∧
     (∀ b, buffer_ (data_ V) ≠ Some b → heap st' !! b = heap st !! b) ∧
     ctors st' = ctors st + 2 ∧ dtors st' = dtors st + 1) ∧
  (quiet st →
   ∃ p st', Emplace this (ptr_add (begin_ V) (length front)) v st = Ok p st').
Proof.
  intros HV Hvalid Hback Hroom.
  pose proof Hvalid as (Hlen & Hsz & Hcap & Hbuf).
  rewrite length_app in Hlen.
  unfold Capacity, RawMemory_Capacity in Hroom.
  assert (runs True (Emplace this (ptr_add (begin_ V) (length front)) v) st
    (fun p st' =>
       p = ptr_add (begin_ V) (length front) ∧
       vecs st' = <[this := mkVector (data_ V) (S (size_ V))]> (vecs st) ∧
       valid st' (mkVector (data_ V) (S (size_ V))) (front ++ v :: back) ∧
       (∀ b, buffer_ (data_ V) ≠ Some b → heap st' !! b = heap st !! b) ∧
       ctors st' = ctors st + 2 ∧ dtors st' = dtors st + 1)) as Hruns.
  { unfold Emplace.
    apply runs_bind, (runs_get_vec _ this _ _ _ HV).
    apply runs_bind, runs_assert.
    { unfold ptr_leb, begin_, end_, ptr_add, GetAddress. simpl.
      rewrite !bool_decide_eq_true_2 by done. simpl. apply Nat.leb_le. lia. }
    unfold ptr_eqb, begin_, end_, ptr_add, GetAddress, ptr_diff. simpl.
    rewrite bool_decide_eq_true_2 by done. simpl.
    destruct (exists_last (l := back)) as (mid & lastv & ->); [done|].
    rewrite length_app in Hlen. simpl in Hlen.
    destruct (Nat.eqb_spec (length front) (size_ V)) as [|_]; [lia|].
    destruct V as [[buf cap] size]. simpl in *.
    destruct (valid_nonempty_block _ _ _ Hvalid) as [b Hb]; [simpl; lia|].
    simpl in Hb. subst buf. rewrite Nat.sub_0_r.
    unfold Capacity, RawMemory_Capacity. simpl.
    destruct (Nat.eqb_spec size cap) as [|_]; [lia|].
    assert (size = S (length front + length mid)) as -> by lia.
    set (k := length front + length mid) in *.
    apply runs_bind, runs_fallible.
    apply runs_bind, runs_modify; [done|]. st_simpl.
    apply runs_bind, runs_on_unwind.
    apply runs_bind. unfold RawMemory_at. simpl.
    apply runs_bind, runs_assert; [apply Nat.ltb_lt; lia|].
    apply runs_ret. unfold ptr_add, GetAddress. simpl.
    rewrite !Nat.sub_0_r.
    assert (map Some (front ++ mid ++ [lastv]) ++ replicate (cap - S k) None =
            map Some front ++ map Some mid ++
              Some lastv :: None :: replicate (cap - S (S k)) None) as Hblock.
    { rewrite !map_app, <- !app_assoc. simpl.
      replace (cap - S k) with (S (cap - S (S k))) by lia. done. }
    rewrite Hblock in Hbuf.
    apply runs_bind.
    eapply (move_construct_same_runs _ b k (S k) _ lastv); simpl.
    { exact Hbuf. }
    { apply lookup_middle2. rewrite !length_map. done. }
    { rewrite !length_app, !length_map. simpl. lia. }
    intros t1.
    rewrite insert_middle2_next by (rewrite !length_map; done).
    rewrite insert_middle2 by (rewrite !length_map; done).
    apply runs_bind. unfold std_move_backward, ptr_sub, ptr_diff. simpl.
    rewrite !Nat.sub_0_r.
    replace (k - length front) with (length mid) by (unfold k; lia).
    replace (Some b, S k) with (Some b, length front + length mid + 1)
      by (f_equal; unfold k; lia).
    replace (Some b, k) with (Some b, length front + length mid) by done.
    apply (std_move_backward_n_runs _ b mid (map Some front) (moved_from lastv)
             (Some lastv :: replicate (cap - S (S k)) None) (length front)); simpl.
    { by rewrite lookup_insert_eq. }
    { by rewrite length_map. }
    intros t2 z. rewrite insert_insert_eq.
    apply runs_bind. apply runs_bind, runs_assert; [apply Nat.ltb_lt; lia|].
    apply runs_ret. simpl.
    apply runs_bind.
    eapply (move_assign_local_runs _ b (length front) _ v z); simpl.
    { by rewrite lookup_insert_eq. }
    { apply lookup_middle. by rewrite length_map. }
    intros t3. rewrite insert_insert_eq, insert_middle by by rewrite length_map.
    apply runs_bind, runs_put_vec. st_simpl.
    apply runs_bind.
    eapply (runs_get_vec _ this); [simpl; by rewrite lookup_insert_eq|].
    apply runs_ret.
    apply runs_bind, runs_modify; [done|]. st_simpl.
    apply runs_ret.
    unfold valid. simpl. split_and!; try done; try lia.
    + rewrite !length_app. simpl. rewrite length_app. simpl. lia.
    + rewrite lookup_insert_eq. f_equal.
      rewrite !map_app. simpl. rewrite !map_app, <- !app_assoc. simpl.
      rewrite <- !app_assoc. done.
    + intros b0 Hb0. rewrite lookup_insert_ne; [done|]. congruence. }
  split.
  - intros p st' Hok. exact (runs_ok _ _ _ _ _ _ Hruns Hok).
  - intros Hq.
    destruct (runs_quiet _ _ _ _ Hruns I Hq) as (p & st' & Hok & _). eauto.
Qed.

(** ** Element types whose move constructor cannot raise *)

Lemma move_construct_nothrow_eq bs i ls bd j ld v st :
  nothrow_move_constructible = true → bs ≠ bd →
  heap st !! bs = Some ls → ls !! i = Some (Some v) →
  heap st !! bd = Some ld → j < length ld →
  move_construct (Some bd, j) (Some bs, i) st =
    Ok tt (mkState (<[bs := <[i := Some (moved_from v)]> ls]>
                      (<[bd := <[j := Some v]> ld]> (heap st)))
                   (vecs st) (ticks st) (S (ctors st)) (dtors st)).
Proof.
  intros Hn Hne Hs Hi Hd Hj. unfold move_construct, bind.
  rewrite (read_eq bs i ls v) by done. rewrite Hn. simpl.
  rewrite (write_eq bd j ld) by done.
  unfold count_ctor, modify. st_simpl.
  rewrite (write_eq bs i ls); st_simpl.
  - done.
  - by rewrite lookup_insert_ne.
  - eauto using lookup_lt_Some.
Qed.

Lemma uninitialized_move_loop_nothrow_eq bs bd xs d_first
    (Hn : nothrow_move_constructible = true) (Hne : bs ≠ bd) :
  ∀ spre spost dpre dmid dpost i j st,
  heap st !! bs = Some (spre ++ map Some xs ++ spost) → length spre = i →
  heap st !! bd = Some (dpre ++ dmid ++ dpost) →
  length dpre = j → length dmid = length xs →
  uninitialized_move_loop (Some bs, i) d_first (Some bd, j) (length xs) st =
    Ok tt (mkState (<[bs := spre ++ map Some (map moved_from xs) ++ spost]>
                      (<[bd := dpre ++ map Some xs ++ dpost]> (heap st)))
                   (vecs st) (ticks st) (ctors st + length xs) (dtors st)).
Proof.
  induction xs as [|x xs IH];
    intros spre spost dpre dmid dpost i j st Hs Hi Hd Hj Hm; simpl in *.
  - destruct dmid; [|done]. simpl in *. unfold ret.
    rewrite Nat.add_0_r. rewrite !insert_id; try done.
    + by destruct st.
    + by rewrite lookup_insert_ne.
  - destruct dmid as [|m dmid]; [done|]. simpl in Hm.
    unfold bind, on_unwind.
    rewrite (move_construct_nothrow_eq bs i
               (spre ++ Some x :: map Some xs ++ spost) bd j
               (dpre ++ m :: dmid ++ dpost) x); try done.
    2:{ by apply lookup_middle. }
    2:{ by apply length_middle. }
    rewrite (insert_middle spre), (insert_middle dpre) by done.
    unfold ptr_add. simpl.
    rewrite (IH (spre ++ [Some (moved_from x)]) spost (dpre ++ [Some x]) dmid dpost
               (i + 1) (j + 1)); simpl.
    + rewrite insert2_insert2 by done.
      rewrite <- !app_assoc. simpl. do 2 f_equal. lia.
    + rewrite lookup_insert_eq. by rewrite <- app_assoc.
    + rewrite length_app. simpl. lia.
    + rewrite lookup_insert_ne by done. rewrite lookup_insert_eq.
      by rewrite <- app_assoc.
    + rewrite length_app. simpl. lia.
    + lia.
Qed.

(** X18.  For an element type whose move constructor cannot raise,
    [Reserve(n)] with a byte count [n * sizeof(T)] below [2^64], which
    does not wrap on [size_t], can fail only in the request for the new
    block: it returns normally with the same elements and a capacity of at
    least [n], or it raises before any element was touched, with the free
    store, the vector and the counts of constructor and destructor calls as
    before.  Under that condition on [n] it never faults. *)
Theorem Reserve_nothrow_move this V els n st :
  nothrow_move_constructible = true →
  vecs st !! this = Some V → valid st V els →
  (N.of_nat n * sizeof_T < SizeT.modulus)%N →
  match Reserve this n st with
  | Ok _ st' =>
      ∃ V', vecs st' !! this = Some V' ∧ valid st' V' els ∧ n ≤ Capacity V'
  | Throw st' =>
      heap st' = heap st ∧ vecs st' = vecs st ∧
      ctors st' = ctors st ∧ dtors st' = dtors st
  | Fault => False
  end.
Proof.
  intros Hn HV Hvalid Hword.
  pose proof Hvalid as (Hlen & Hsz & Hcap & Hbuf).
  destruct V as [[buf cap] size]. simpl in *.
  change (wp False (Reserve this n) st
    (fun _ st' => ∃ V', vecs st' !! this = Some V' ∧ valid st' V' els ∧
       n ≤ Capacity V')
    (fun st' => heap st' = heap st ∧ vecs st' = vecs st ∧
       ctors st' = ctors st ∧ dtors st' = dtors st)).
  unfold Reserve, relocate_by_move. rewrite Hn. simpl.
  apply wp_bind. eapply wp_eq; [unfold get_vec; by rewrite HV|]. simpl.
  destruct (Nat.leb_spec n cap) as [Hle|Hgt].
  { apply wp_ret. eexists. split_and!; try done. }
  apply wp_bind, RawMemory_ctor_wp_any; [done|lia| | |]; [|done|done].
  intros _ Hfit Hok b' Hb'.
  unfold GetAddress. simpl.
  apply wp_bind, wp_on_unwind, wp_bind.
  destruct buf as [b|].
  - assert (b ≠ b') as Hne by (intros ->; congruence).
    rewrite <- Hlen.
    eapply wp_eq.
    { apply (uninitialized_move_loop_nothrow_eq b b' els (Some b', 0) Hn Hne []
               (replicate (cap - size) None) [] (replicate (length els) None)
               (replicate (n - size) None) 0 0); simpl; try done.
      - by rewrite lookup_insert_ne.
      - rewrite lookup_insert_eq, <- replicate_add. do 2 f_equal. lia.
      - by rewrite length_replicate. }
    simpl. rewrite insert_insert_eq.
    replace (length els) with (length (map moved_from els))
      by (by rewrite length_map).
    eapply wp_eq.
    { apply (destroy_n_eq b (map moved_from els) []
               (replicate (cap - size) None) 0); simpl; [|done].
      by rewrite lookup_insert_eq. }
    simpl. apply wp_bind, wp_put_vec. st_simpl.
    eapply wp_eq.
    { unfold RawMemory_dtor, Deallocate, operator_delete. simpl.
      by rewrite lookup_insert_eq. }
    st_simpl. rewrite !length_map.
    eexists. split; [by rewrite lookup_insert_eq|].
    unfold valid, Capacity, RawMemory_Capacity. simpl.
    split_and!; try done; try lia.
    rewrite lookup_delete_ne by done. rewrite !lookup_insert_ne by done.
    rewrite lookup_insert_eq. by rewrite Hlen.
  - subst cap. assert (size = 0) as -> by lia.
    destruct els; [|done]. simpl.
    apply wp_ret, wp_ret. apply wp_bind, wp_put_vec. st_simpl.
    eapply wp_eq; [reflexivity|].
    eexists. split; [simpl; by rewrite lookup_insert_eq|].
    unfold valid, Capacity, RawMemory_Capacity. simpl.
    split_and!; try done; try lia.
    by rewrite lookup_insert_eq, Nat.sub_0_r.
Qed.

Lemma EmplaceBack_nothrow_wp this V els v st :
  nothrow_move_constructible = true →
  vecs st !! this = Some V → valid st V els →
  wp False (EmplaceBack this v) st
    (fun t st' => ∃ V',
       vecs st' !! this = Some V' ∧ valid st' V' (els ++ [v]) ∧
       t = ptr_add (begin_ V') (size_ V) ∧
       ctors st' + dtors st = S (ctors st + dtors st'))
    (fun st' => heap st' = heap st ∧ vecs st' = vecs st ∧
       ctors st' = ctors st ∧ dtors st' = dtors st).
Proof.
  intros Hn HV Hvalid.
  pose proof Hvalid as (Hlen & Hsz & Hcap & Hbuf).
  destruct V as [[buf cap] size]. simpl in *.
  unfold EmplaceBack, relocate_by_move. rewrite Hn. simpl.
  apply wp_bind. eapply wp_eq; [unfold get_vec; by rewrite HV|]. simpl.
  unfold Capacity, RawMemory_Capacity. simpl.
  apply wp_bind.
  destruct (Nat.eqb_spec size cap) as [->|Hroom].
  - (* the vector is full *)
    pose proof (grown_capacity_spec cap Hcap) as Hgrow.
    apply wp_bind, RawMemory_ctor_wp_any;
      [by apply grown_capacity_word | lia | | done | done].
    intros _ Hfit Hok b' Hb'.
    apply wp_bind, wp_on_unwind, wp_bind.
    unfold RawMemory_plus. simpl.
    apply wp_bind, wp_assert_true; [apply Nat.leb_le; lia|].
    apply wp_ret. unfold ptr_add, GetAddress. simpl.
    apply wp_bind,
      (construct_at_wp _ b' cap (replicate (grown_capacity cap) None)); simpl.
    { by rewrite lookup_insert_eq. }
    { rewrite length_replicate. lia. }
    2:{ intros _.
        eapply wp_eq.
        { unfold RawMemory_dtor, Deallocate, operator_delete. simpl.
          by rewrite lookup_insert_eq. }
        st_simpl. by rewrite (delete_insert_id _ _ _ Hb'). }
    intros _. rewrite insert_insert_eq, insert_replicate_split by lia.
    apply wp_bind.
    destruct buf as [b|].
    + assert (b ≠ b') as Hne by (intros ->; congruence).
      rewrite Nat.sub_diag in Hbuf. rewrite <- Hlen.
      eapply wp_eq.
      { apply (uninitialized_move_loop_nothrow_eq b b' els (Some b', 0) Hn Hne []
                 [] [] (replicate (length els) None)
                 (Some v :: replicate (grown_capacity cap - S cap) None) 0 0);
          simpl; try done.
        - by rewrite lookup_insert_ne.
        - rewrite lookup_insert_eq. by rewrite Hlen.
        - by rewrite length_replicate. }
      simpl. rewrite insert_insert_eq, app_nil_r.
      apply wp_bind.
      assert (length (map moved_from els) = cap) as Hmv by (by rewrite length_map).
      rewrite Hlen. rewrite <- Hmv at 1.
      eapply wp_eq.
      { apply (destroy_n_eq b (map moved_from els) [] [] 0); simpl; [|done].
        rewrite lookup_insert_eq. by rewrite app_nil_r. }
      simpl. apply wp_ret.
      apply wp_bind, wp_put_vec. st_simpl.
      apply wp_bind.
      eapply wp_eq.
      { unfold RawMemory_dtor, Deallocate, operator_delete. simpl.
        by rewrite lookup_insert_eq. }
      st_simpl. apply wp_ret. apply wp_bind.
      eapply wp_eq; [unfold get_vec; simpl; by rewrite lookup_insert_eq|].
      simpl. apply wp_bind, wp_put_vec. st_simpl. apply wp_ret.
      eexists. split; [simpl; by rewrite lookup_insert_eq|].
      unfold valid. simpl. rewrite Hmv.
      split_and!; try done; try lia.
      * rewrite length_app. simpl. lia.
      * rewrite lookup_delete_ne by done. rewrite !lookup_insert_ne by done.
        rewrite lookup_insert_eq. by rewrite map_app, <- app_assoc.
    + subst cap. destruct els; [|done]. simpl.
      apply wp_ret, wp_bind, wp_ret, wp_ret.
      apply wp_bind, wp_put_vec. st_simpl.
      apply wp_bind. eapply wp_eq; [reflexivity|]. apply wp_ret.
      apply wp_bind.
      eapply wp_eq; [unfold get_vec; simpl; by rewrite lookup_insert_eq|].
      simpl. apply wp_bind, wp_put_vec. st_simpl. apply wp_ret.
      eexists. split; [simpl; by rewrite lookup_insert_eq|].
      unfold valid. simpl.
      split_and!; try done; try lia.
      by rewrite lookup_insert_eq.
  - (* there is room *)
    destruct buf as [b|]; [|lia].
    apply wp_bind. unfold RawMemory_plus. simpl.
    apply wp_bind, wp_assert_true; [apply Nat.leb_le; lia|].
    apply wp_ret. unfold ptr_add, GetAddress. simpl.
    apply wp_bind, (construct_at_wp _ b size _ _ _ _ _ Hbuf).
    { rewrite length_app, length_map, length_replicate. lia. }
    2:{ intros _. by st_simpl. }
    intros _. apply wp_ret. apply wp_bind.
    eapply wp_eq; [unfold get_vec; simpl; by rewrite HV|].
    simpl. apply wp_bind, wp_put_vec. st_simpl. apply wp_ret.
    eexists. split; [simpl; by rewrite lookup_insert_eq|].
    unfold valid. simpl.
    split_and!; try done; try lia.
    + rewrite length_app. simpl. lia.
    + rewrite lookup_insert_eq. f_equal.
      replace (cap - size) with (S (cap - S size)) by lia. simpl.
      rewrite insert_middle by by rewrite length_map.
      by rewrite map_app, <- app_assoc.
Qed.


(** X19.  For an element type whose move constructor cannot raise,
    [EmplaceBack] gives the strong guarantee and leaks nothing: it returns
    normally with the new element appended and one more live object than
    before, or it raises (the request for a block refused, or the
    constructor of the new element raising) with the free store, the vector
    and the counts of constructor and destructor calls as before.  It never
    faults. *)
Theorem EmplaceBack_nothrow_move this V els v st :
  nothrow_move_constructible = true →
  vecs st !! this = Some V → valid st V els →
  match EmplaceBack this v st with
  | Ok t st' =>
      ∃ V', vecs st' !! this = Some V' ∧ valid st' V' (els ++ [v]) ∧
        ctors st' + dtors st = S (ctors st + dtors st')
  | Throw st' =>
      heap st' = heap st ∧ vecs st' = vecs st ∧
      ctors st' = ctors st ∧ dtors st' = dtors st
  | Fault => False
  end.
Proof.
  intros Hn HV Hvalid.
  pose proof (EmplaceBack_nothrow_wp this V els v st Hn HV Hvalid) as Hwp.
  unfold wp in Hwp.
  destruct (EmplaceBack this v st) as [t st'|st'|]; try done.
  destruct Hwp as (V' & HV' & Hvalid' & _ & Hcount). by exists V'.
Qed.

(** ** Element types whose move assignment cannot raise *)

Lemma move_assign_elem_nothrow_eq b i j l v w st :
  nothrow_move_assignable = true →
  heap st !! b = Some l → l !! i = Some (Some v) → l !! j = Some (Some w) →
  move_assign_elem (Some b, j) (Some b, i) st =
    Ok tt (mkState (<[b := <[i := Some (moved_from v)]> (<[j := Some v]> l)]>
                      (heap st))
                   (vecs st) (ticks st) (ctors st) (dtors st)).
Proof.
  intros Hn Hb Hi Hj. unfold move_assign_elem, bind.
  rewrite (read_eq b i l v) by done.
  rewrite (read_eq b j l w) by done. rewrite Hn. simpl.
  rewrite (write_eq b j l) by eauto using lookup_lt_Some.
  rewrite (write_eq b i (<[j := Some v]> l)); st_simpl.
  - by rewrite insert_insert_eq.
  - by rewrite lookup_insert_eq.
  - rewrite length_insert. eauto using lookup_lt_Some.
Qed.

Lemma std_move_n_nothrow_eq b ys (Hn : nothrow_move_assignable = true) :
  ∀ pre x post i st,
  heap st !! b = Some (pre ++ Some x :: map Some ys ++ post) → length pre = i →
  ∃ z, std_move_n (Some b, i + 1) (length ys) (Some b, i) st =
    Ok tt (mkState (<[b := pre ++ map Some ys ++ Some z :: post]> (heap st))
                   (vecs st) (ticks st) (ctors st) (dtors st)).
Proof.
  induction ys as [|y ys IH]; intros pre x post i st Hb Hi; simpl in *.
  - exists x. unfold ret. rewrite insert_id by done. by destruct st.
  - unfold bind.
    rewrite (move_assign_elem_nothrow_eq b (i + 1) i
               (pre ++ Some x :: Some y :: map Some ys ++ post) y x _ Hn Hb).
    2:{ apply (lookup_middle2 pre [Some x]). simpl. lia. }
    2:{ by apply lookup_middle. }
    rewrite (insert_middle pre) by done.
    rewrite insert_middle_next by done.
    unfold ptr_add. simpl.
    destruct (IH (pre ++ [Some y]) (moved_from y) post (i + 1)
                (mkState
                   (<[b := pre ++ Some y :: Some (moved_from y) :: map Some ys ++ post]>
                      (heap st))
                   (vecs st) (ticks st) (ctors st) (dtors st))) as [z Hz]; simpl.
    + rewrite lookup_insert_eq. by rewrite <- app_assoc.
    + rewrite length_app. simpl. lia.
    + exists z. rewrite Hz. simpl.
      rewrite insert_insert_eq, <- app_assoc. done.
Qed.

(** X20.  For an element type whose move assignment cannot raise, [Erase]
    at the index of an element always returns normally, whatever the other
    operations of the type do: it asks no fallible step, calls no
    constructor and exactly one destructor, and leaves the elements without
    the erased one in the same block, with the size one less. *)
Theorem Erase_nothrow this V els i st :
  nothrow_move_assignable = true →
  vecs st !! this = Some V → valid st V els → i < size_ V →
  ∃ st', Erase this (ptr_add (begin_ V) i) st = Ok (ptr_add (begin_ V) i) st' ∧
    vecs st' = <[this := mkVector (data_ V) (size_ V - 1)]> (vecs st) ∧
    valid st' (mkVector (data_ V) (size_ V - 1)) (take i els ++ drop (S i) els) ∧
    ticks st' = ticks st ∧ ctors st' = ctors st ∧ dtors st' = S (dtors st).
Proof.
  intros Hn HV Hvalid Hi.
  pose proof Hvalid as (Hlen & Hsz & Hcap & Hbuf).
  destruct (lookup_lt_is_Some_2 els i) as [x Hx]; [lia|].
  pose proof (take_drop_middle els i x Hx) as Hsplit.
  assert (length (take i els) = i) as Hfront by (rewrite length_take; lia).
  set (front := take i els) in *. set (back := drop (S i) els) in *.
  assert (length back = size_ V - (i + 1)) as Hback.
  { rewrite <- Hsplit, length_app in Hlen. simpl in Hlen. lia. }
  destruct V as [[buf cap] size]. simpl in *.
  destruct buf as [b|]; [|lia].
  rewrite <- Hsplit, map_app in Hbuf. simpl in Hbuf.
  rewrite <- !app_assoc in Hbuf. simpl in Hbuf.
  unfold Erase, bind, get_vec. rewrite HV.
  unfold ptr_leb, ptr_ltb, begin_, end_, ptr_add, GetAddress, ptr_diff. simpl.
  rewrite !bool_decide_eq_true_2 by done.
  destruct (Nat.ltb_spec i size) as [_|]; [|lia]. simpl.
  rewrite Nat.sub_0_r. unfold std_move, ptr_diff. simpl.
  rewrite <- Hback.
  destruct (std_move_n_nothrow_eq b back Hn (map Some front) x
              (replicate (cap - size) None) i st Hbuf) as [z Hz].
  { by rewrite length_map. }
  rewrite Hz.
  set (st1 := mkState _ _ _ _ _).
  assert (valid st1 (mkVector (mkRawMemory (Some b) cap) size)
            ((front ++ back) ++ [z])) as Hvalid1.
  { unfold valid, st1. simpl. split_and!; try done.
    - rewrite !length_app. simpl. lia.
    - rewrite lookup_insert_eq. f_equal.
      rewrite !map_app, <- !app_assoc. done. }
  rewrite (PopBack_eq this b cap size (front ++ back) z st1 HV Hvalid1).
  simpl. rewrite lookup_insert_eq. simpl.
  eexists. split; [reflexivity|]. simpl. split_and!; try done.
  by apply (PopBack_valid this b cap size (front ++ back) z st1).
Qed.

Lemma move_construct_same_nothrow_eq b i j l v st :
  nothrow_move_constructible = true →
  heap st !! b = Some l → l !! i = Some (Some v) → j < length l →
  move_construct (Some b, j) (Some b, i) st =
    Ok tt (mkState (<[b := <[i := Some (moved_from v)]> (<[j := Some v]> l)]>
                      (heap st))
                   (vecs st) (ticks st) (S (ctors st)) (dtors st)).
Proof.
  intros Hn Hb Hi Hj. unfold move_construct, bind.
  rewrite (read_eq b i l v) by done. rewrite Hn. simpl.
  rewrite (write_eq b j l) by done.
  unfold count_ctor, modify. st_simpl.
  rewrite (write_eq b i (<[j := Some v]> l)); st_simpl.
  - by rewrite insert_insert_eq.
  - by rewrite lookup_insert_eq.
  - rewrite length_insert. eauto using lookup_lt_Some.
Qed.

Lemma move_assign_local_nothrow_eq b j l v w st :
  nothrow_move_assignable = true →
  heap st !! b = Some l → l !! j = Some (Some w) →
  move_assign_local (Some b, j) v st =
    Ok tt (mkState (<[b := <[j := Some v]> l]> (heap st))
                   (vecs st) (ticks st) (ctors st) (dtors st)).
Proof.
  intros Hn Hb Hj. unfold move_assign_local, bind.
  rewrite (read_eq b j l w) by done. rewrite Hn. simpl.
  by rewrite (write_eq b j l) by eauto using lookup_lt_Some.
Qed.

Lemma std_move_backward_n_nothrow_eq b xs (Hn : nothrow_move_assignable = true) :
  ∀ pre y post i st,
  heap st !! b = Some (pre ++ map Some xs ++ Some y :: post) → length pre = i →
  ∃ z, std_move_backward_n (Some b, i + length xs) (length xs)
         (Some b, i + length xs + 1) st =
    Ok tt (mkState (<[b := pre ++ Some z :: map Some xs ++ post]> (heap st))
                   (vecs st) (ticks st) (ctors st) (dtors st)).
Proof.
  induction xs as [|x xs IH] using rev_ind; intros pre y post i st Hb Hi.
  - simpl in *. exists y. unfold ret. rewrite insert_id by done. by destruct st.
  - rewrite length_app. simpl.
    replace (length xs + 1) with (S (length xs)) by lia. simpl.
    unfold bind, ptr_sub. simpl.
    rewrite map_app, <- app_assoc in Hb. simpl in Hb.
    replace (i + S (length xs) + 1 - 1) with (S (i + length xs)) by lia.
    replace (i + S (length xs) - 1) with (i + length xs) by lia.
    rewrite (move_assign_elem_nothrow_eq b (i + length xs) (S (i + length xs))
               (pre ++ map Some xs ++ Some x :: Some y :: post) x y _ Hn Hb).
    2:{ apply lookup_middle2. rewrite length_map. lia. }
    2:{ apply lookup_middle2_next. rewrite length_map. lia. }
    rewrite insert_middle2_next by (rewrite length_map; lia).
    rewrite insert_middle2 by (rewrite length_map; lia).
    replace (S (i + length xs)) with (i + length xs + 1) by lia.
    destruct (IH pre (moved_from x) (Some x :: post) i
                (mkState
                   (<[b := pre ++ map Some xs ++
                           Some (moved_from x) :: Some x :: post]> (heap st))
                   (vecs st) (ticks st) (ctors st) (dtors st))) as [z Hz]; simpl.
    + by rewrite lookup_insert_eq.
    + done.
    + exists z. rewrite Hz. simpl. rewrite insert_insert_eq.
      by rewrite map_app, <- app_assoc.
Qed.

(** X21.  For an element type whose move constructor and move assignment
    cannot raise, [Emplace] at any position of the vector is all or
    nothing: it returns normally with the new element at the position and
    the old elements around it in order, or it raises with the free store,
    the vector and the counts of constructor and destructor calls as
    before.  It never faults. *)
Theorem Emplace_nothrow_moves this V front back v st :
  nothrow_move_constructible = true → nothrow_move_assignable = true →
  vecs st !! this = Some V → valid st V (front ++ back) →
  match Emplace this (ptr_add (begin_ V) (length front)) v st with
  | Ok p st' =>
      ∃ V', vecs st' !! this = Some V' ∧ valid st' V' (front ++ v :: back) ∧
        p = ptr_add (begin_ V') (length front)
  | Throw st' =>
      heap st' = heap st ∧ vecs st' = vecs st ∧
      ctors st' = ctors st ∧ dtors st' = dtors st
  | Fault => False
  end.
Proof.
  intros Hn Hna HV Hvalid.
  pose proof Hvalid as (Hlen & Hsz & Hcap & Hbuf).
  rewrite length_app in Hlen.
  change (wp False (Emplace this (ptr_add (begin_ V) (length front)) v) st
    (fun p st' => ∃ V', vecs st' !! this = Some V' ∧
       valid st' V' (front ++ v :: back) ∧
       p = ptr_add (begin_ V') (length front))
    (fun st' => heap st' = heap st ∧ vecs st' = vecs st ∧
       ctors st' = ctors st ∧ dtors st' = dtors st)).
  unfold Emplace.
  apply wp_bind. eapply wp_eq; [unfold get_vec; by rewrite HV|].
  apply wp_bind, wp_assert_true.
  { unfold ptr_leb, begin_, end_, ptr_add, GetAddress. simpl.
    rewrite !bool_decide_eq_true_2 by done. simpl. apply Nat.leb_le. lia. }
  unfold ptr_eqb, begin_, end_, ptr_add, GetAddress, ptr_diff. simpl.
  rewrite bool_decide_eq_true_2 by done. simpl.
  destruct (Nat.eqb_spec (length front) (size_ V)) as [Hend|Hmid].
  { (* at the end: [EmplaceBack] *)
    destruct back; [|simpl in Hlen; lia].
    rewrite app_nil_r in Hvalid.
    eapply wp_mono; [by apply (EmplaceBack_nothrow_wp this V front)| |done].
    intros p st' (V' & HV' & Hvalid' & -> & _).
    exists V'. split_and!; try done. by rewrite Hend. }
  destruct V as [[buf cap] size]. simpl in *.
  destruct (valid_nonempty_block _ _ _ Hvalid) as [b Hb]; [simpl; lia|].
  simpl in Hb. subst buf. rewrite Nat.sub_0_r.
  unfold Capacity, RawMemory_Capacity. simpl.
  destruct (Nat.eqb_spec size cap) as [->|Hroom].
  - (* the vector is full: a new block *)
    pose proof (grown_capacity_spec cap Hcap) as Hgrow.
    rewrite Nat.sub_diag in Hbuf. simpl in Hbuf. rewrite app_nil_r in Hbuf.
    set (i := length front) in *.
    apply wp_bind, RawMemory_ctor_wp_any;
      [by apply grown_capacity_word | lia | | done | done].
    intros _ Hfit Hok b' Hb'.
    assert (b ≠ b') as Hne by (intros ->; congruence).
    apply wp_bind, wp_on_unwind, wp_bind.
    unfold RawMemory_plus. simpl.
    apply wp_bind, wp_assert_true; [apply Nat.leb_le; lia|].
    apply wp_ret. unfold ptr_add, GetAddress. simpl.
    apply wp_bind,
      (construct_at_wp _ b' i (replicate (grown_capacity cap) None)); simpl.
    { by rewrite lookup_insert_eq. }
    { rewrite length_replicate. lia. }
    2:{ intros _.
        eapply wp_eq.
        { unfold RawMemory_dtor, Deallocate, operator_delete. simpl.
          by rewrite lookup_insert_eq. }
        st_simpl. by rewrite (delete_insert_id _ _ _ Hb'). }
    intros _. rewrite insert_insert_eq, insert_replicate_split by lia.
    (* the prefix *)
    apply wp_bind, wp_on_unwind.
    unfold MoveOrCopy, relocate_by_move. rewrite Hn. simpl.
    apply wp_bind. rewrite map_app in Hbuf.
    eapply wp_eq.
    { apply (uninitialized_move_loop_nothrow_eq b b' front (Some b', 0) Hn Hne []
               (map Some back) [] (replicate i None)
               (Some v :: replicate (grown_capacity cap - S i) None) 0 0);
        simpl; try done.
      - by rewrite lookup_insert_ne.
      - by rewrite lookup_insert_eq.
      - by rewrite length_replicate. }
    simpl. rewrite insert_insert_eq.
    assert (length (map moved_from front) = i) as Hmf by (by rewrite length_map).
    rewrite <- Hmf at 1.
    eapply wp_eq.
    { apply (destroy_n_eq b (map moved_from front) [] (map Some back) 0);
        simpl; [|done]. by rewrite lookup_insert_eq. }
    simpl. rewrite insert_insert_eq, Hmf.
    (* the suffix *)
    apply wp_on_unwind, wp_bind, wp_bind.
    apply wp_assert_true; [apply Nat.leb_le; lia|].
    apply wp_ret, wp_bind, wp_bind.
    apply wp_assert_true; [apply Nat.leb_le; lia|].
    apply wp_ret. simpl. apply wp_bind.
    replace (cap - i) with (length back) by lia.
    eapply wp_eq.
    { apply (uninitialized_move_loop_nothrow_eq b b' back (Some b', i + 1) Hn Hne
               (replicate i None) [] (map Some front ++ [Some v])
               (replicate (length back) None)
               (replicate (grown_capacity cap - S cap) None) i (i + 1)); simpl.
      - rewrite lookup_insert_eq. by rewrite app_nil_r.
      - by rewrite length_replicate.
      - rewrite lookup_insert_ne, lookup_insert_eq by done. f_equal.
        rewrite <- app_assoc. simpl. do 2 f_equal.
        rewrite <- replicate_add. f_equal. lia.
      - rewrite length_app, length_map. simpl. done.
      - by rewrite length_replicate. }
    simpl. rewrite insert2_insert2 by done.
    assert (length (map moved_from back) = length back) as Hmb
      by (by rewrite length_map).
    rewrite <- Hmb at 1.
    eapply wp_eq.
    { apply (destroy_n_eq b (map moved_from back) (replicate i None) [] i);
        simpl.
      - by rewrite lookup_insert_eq.
      - by rewrite length_replicate. }
    simpl. rewrite insert_insert_eq, Hmb.
    apply wp_bind, wp_put_vec. st_simpl.
    apply wp_bind.
    eapply wp_eq; [unfold get_vec; simpl; by rewrite lookup_insert_eq|].
    simpl. apply wp_bind, wp_put_vec. st_simpl.
    apply wp_bind.
    eapply wp_eq; [unfold get_vec; simpl; by rewrite lookup_insert_eq|].
    simpl. apply wp_bind.
    eapply wp_eq.
    { unfold RawMemory_dtor, Deallocate, operator_delete. simpl.
      by rewrite lookup_insert_eq. }
    st_simpl. apply wp_ret.
    eexists. split; [simpl; by rewrite lookup_insert_eq|].
    unfold valid. simpl. split_and!; try done; try lia.
    + rewrite length_app. simpl. lia.
    + rewrite lookup_delete_ne by done. rewrite lookup_insert_ne by done.
      rewrite lookup_insert_eq. f_equal.
      rewrite map_app, <- !app_assoc. done.
  - (* there is room: shift in place *)
    destruct (exists_last (l := back)) as (mid & lastv & ->).
    { intros ->. simpl in Hlen. lia. }
    rewrite length_app in Hlen. simpl in Hlen.
    assert (size = S (length front + length mid)) as -> by lia.
    set (k := length front + length mid) in *.
    apply wp_bind, wp_fallible; [|intros _; by st_simpl].
    intros _. apply wp_bind, wp_modify. st_simpl.
    apply wp_bind, wp_on_unwind.
    apply wp_bind. unfold RawMemory_at. simpl.
    apply wp_bind, wp_assert_true; [apply Nat.ltb_lt; lia|].
    apply wp_ret. unfold ptr_add, GetAddress. simpl.
    rewrite !Nat.sub_0_r.
    assert (map Some (front ++ mid ++ [lastv]) ++ replicate (cap - S k) None =
            map Some front ++ map Some mid ++
              Some lastv :: None :: replicate (cap - S (S k)) None) as Hblock.
    { rewrite !map_app, <- !app_assoc. simpl.
      replace (cap - S k) with (S (cap - S (S k))) by lia. done. }
    rewrite Hblock in Hbuf.
    apply wp_bind.
    eapply wp_eq.
    { apply (move_construct_same_nothrow_eq b k (S k)
               (map Some front ++ map Some mid ++
                Some lastv :: None :: replicate (cap - S (S k)) None)
               lastv _ Hn); simpl.
      - exact Hbuf.
      - apply lookup_middle2. rewrite !length_map. done.
      - rewrite !length_app, !length_map. simpl. lia. }
    rewrite insert_middle2_next by (rewrite !length_map; done).
    rewrite insert_middle2 by (rewrite !length_map; done).
    apply wp_bind. unfold std_move_backward, ptr_sub, ptr_diff. simpl.
    rewrite !Nat.sub_0_r.
    replace (k - length front) with (length mid) by (unfold k; lia).
    replace (Some b, S k) with (Some b, length front + length mid + 1)
      by (f_equal; unfold k; lia).
    replace (Some b, k) with (Some b, length front + length mid) by done.
    set (st1 := mkState _ _ _ _ _).
    destruct (std_move_backward_n_nothrow_eq b mid Hna (map Some front)
                (moved_from lastv)
                (Some lastv :: replicate (cap - S (S k)) None)
                (length front) st1) as [z Hz].
    { unfold st1. simpl. by rewrite lookup_insert_eq. }
    { by rewrite length_map. }
    eapply wp_eq; [exact Hz|]. unfold st1. simpl. rewrite insert_insert_eq.
    apply wp_bind. apply wp_bind, wp_assert_true; [apply Nat.ltb_lt; lia|].
    apply wp_ret. simpl.
    apply wp_bind.
    eapply wp_eq.
    { apply (move_assign_local_nothrow_eq b (length front)
               (map Some front ++ Some z :: map Some mid ++
                Some lastv :: replicate (cap - S (S k)) None)
               v z _ Hna); simpl.
      - by rewrite lookup_insert_eq.
      - apply lookup_middle. by rewrite length_map. }
    simpl. rewrite insert_insert_eq, insert_middle by by rewrite length_map.
    apply wp_bind, wp_put_vec. st_simpl.
    apply wp_bind.
    eapply wp_eq; [unfold get_vec; simpl; by rewrite lookup_insert_eq|].
    apply wp_ret.
    apply wp_bind, wp_modify. st_simpl.
    apply wp_ret. eexists.
    split; [simpl; by rewrite lookup_insert_eq|].
    unfold valid. simpl. split_and!; try done; try lia.
    + rewrite !length_app. simpl. rewrite length_app. simpl. lia.
    + rewrite lookup_insert_eq. f_equal.
      rewrite !map_app. simpl. rewrite !map_app, <- !app_assoc. simpl.
      rewrite <- !app_assoc. done.
Qed.

(** ** The byte count of a block *)

(** X22.  [RawMemory(n)] computes the byte count [n * sizeof(T)] on
    [size_t] and does not check it: when the product is [2^64] or more,
    the request is made for the wrapped count, and if it is granted the
    block has fewer than [n] slots although the capacity is recorded as
    [n]. *)
Theorem RawMemory_ctor_overflow n st :
  (N.of_nat n < SizeT.modulus)%N →
  (SizeT.modulus ≤ N.of_nat n * sizeof_T)%N →
  (SizeT.wrap (N.of_nat n * sizeof_T) ≤ SizeT.ptrdiff_max)%N →
  throws (ticks st) = false →
  ∃ b slots st',
    RawMemory_ctor n st = Ok (mkRawMemory (Some b) n) st' ∧
    heap st !! b = None ∧ heap st' !! b = Some slots ∧ length slots < n.
Proof.
  intros Hn Hbig Hfit Hok.
  assert (n ≠ 0) as Hn0.
  { intros ->. unfold SizeT.modulus in Hbig. simpl in Hbig. lia. }
  unfold RawMemory_ctor, Allocate, bind, operator_new.
  destruct (Nat.eqb_spec n 0) as [|_]; [done|].
  destruct (N.ltb_spec SizeT.ptrdiff_max (SizeT.wrap (N.of_nat n * sizeof_T)))
    as [|_]; [lia|].
  unfold bind, fallible. rewrite Hok. st_simpl. unfold ret.
  eexists _, _, _. split; [reflexivity|]. simpl.
  split; [apply fresh_block_unused|].
  split; [by rewrite lookup_insert_eq|].
  rewrite length_replicate.
  assert (SizeT.wrap (N.of_nat n * sizeof_T) / sizeof_T < N.of_nat n)%N; [|lia].
  apply N.Div0.div_lt_upper_bound.
  assert (SizeT.wrap (N.of_nat n * sizeof_T) < SizeT.modulus)%N.
  { unfold SizeT.wrap. apply N.mod_lt. unfold SizeT.modulus. lia. }
  lia.
Qed.

(** ** The private helper [DestroyN] *)

Lemma DestroyN_from_eq n : ∀ b off i st,
  DestroyN_from (Some b, off) i n st = destroy_n (Some b, off + i) n st.
Proof.
  induction n as [|n IH]; intros b off i st; simpl; [done|].
  unfold bind, Destroy, ptr_add. simpl.
  destruct (destroy_at (Some b, off + i) st) as [[] st1| |]; try done.
  rewrite IH. by replace (off + S i) with (off + i + 1) by lia.
Qed.

(** X23.  [DestroyN(buf, n)], the header's own loop over [Destroy], on [n]
    live objects: it never raises, each object is destroyed once, front to
    back, their slots become raw memory, and nothing else is touched.  It
    has the effect of [std::destroy_n(buf, n)]. *)
Theorem DestroyN_spec b xs pre post st :
  heap st !! b = Some (pre ++ map Some xs ++ post) →
  DestroyN (Some b, length pre) (length xs) st =
    Ok tt (mkState (<[b := pre ++ replicate (length xs) None ++ post]> (heap st))
                   (vecs st) (ticks st) (ctors st) (dtors st + length xs)) ∧
  DestroyN (Some b, length pre) (length xs) st =
    destroy_n (Some b, length pre) (length xs) st.
Proof.
  intros Hb.
  assert (DestroyN (Some b, length pre) (length xs) st =
          destroy_n (Some b, length pre) (length xs) st) as Heq.
  { unfold DestroyN. rewrite DestroyN_from_eq. by rewrite Nat.add_0_r. }
  split; [|done]. rewrite Heq. by apply destroy_n_eq.
Qed.

(** ** A raising move assignment during an insertion in place *)

Lemma move_construct_same_eq b i j l v st :
  (nothrow_move_constructible = false → throws (ticks st) = false) →
  heap st !! b = Some l → l !! i = Some (Some v) → j < length l →
  move_construct (Some b, j) (Some b, i) st =
    Ok tt (mkState (<[b := <[i := Some (moved_from v)]> (<[j := Some v]> l)]>
                      (heap st))
                   (vecs st)
                   (ticks st + (if nothrow_move_constructible then 0 else 1))
                   (S (ctors st)) (dtors st)).
Proof.
  intros Hok Hb Hi Hj. unfold move_construct, bind.
  rewrite (read_eq b i l v) by done.
  destruct nothrow_move_constructible; simpl.
  - rewrite (write_eq b j l) by done.
    unfold count_ctor, modify. st_simpl.
    rewrite (write_eq b i (<[j := Some v]> l)); st_simpl.
    + by rewrite insert_insert_eq, Nat.add_0_r.
    + by rewrite lookup_insert_eq.
    + rewrite length_insert. eauto using lookup_lt_Some.
  - unfold fallible. rewrite Hok by done. st_simpl.
    rewrite (write_eq b j l) by done.
    unfold count_ctor, modify. st_simpl.
    rewrite (write_eq b i (<[j := Some v]> l)); st_simpl.
    + rewrite insert_insert_eq. do 2 f_equal. lia.
    + by rewrite lookup_insert_eq.
    + rewrite length_insert. eauto using lookup_lt_Some.
Qed.

Lemma move_assign_elem_asked_eq b i j l v w st :
  nothrow_move_assignable = false → throws (ticks st) = false →
  heap st !! b = Some l → l !! i = Some (Some v) → l !! j = Some (Some w) →
  move_assign_elem (Some b, j) (Some b, i) st =
    Ok tt (mkState (<[b := <[i := Some (moved_from v)]> (<[j := Some v]> l)]>
                      (heap st))
                   (vecs st) (S (ticks st)) (ctors st) (dtors st)).
Proof.
  intros Hn Hok Hb Hi Hj. unfold move_assign_elem, bind.
  rewrite (read_eq b i l v) by done.
  rewrite (read_eq b j l w) by done. rewrite Hn.
  unfold fallible. rewrite Hok. st_simpl.
  rewrite (write_eq b j l); st_simpl; [|done|eauto using lookup_lt_Some].
  rewrite (write_eq b i (<[j := Some v]> l)); st_simpl.
  - by rewrite insert_insert_eq.
  - by rewrite lookup_insert_eq.
  - rewrite length_insert. eauto using lookup_lt_Some.
Qed.

Lemma std_move_backward_n_asked_eq b xs (Hn : nothrow_move_assignable = false) :
  ∀ pre y post i st,
  heap st !! b = Some (pre ++ map Some xs ++ Some y :: post) → length pre = i →
  (∀ j, j < length xs → throws (ticks st + j) = false) →
  ∃ z, std_move_backward_n (Some b, i + length xs) (length xs)
         (Some b, i + length xs + 1) st =
    Ok tt (mkState (<[b := pre ++ Some z :: map Some xs ++ post]> (heap st))
                   (vecs st) (ticks st + length xs) (ctors st) (dtors st)).
Proof.
  induction xs as [|x xs IH] using rev_ind; intros pre y post i st Hb Hi Hok.
  - simpl in *. exists y. unfold ret. rewrite insert_id, Nat.add_0_r by done.
    by destruct st.
  - rewrite length_app in *. simpl in *.
    replace (length xs + 1) with (S (length xs)) in * by lia. simpl.
    unfold bind, ptr_sub. simpl.
    rewrite map_app, <- app_assoc in Hb. simpl in Hb.
    replace (i + S (length xs) + 1 - 1) with (S (i + length xs)) by lia.
    replace (i + S (length xs) - 1) with (i + length xs) by lia.
    rewrite (move_assign_elem_asked_eq b (i + length xs) (S (i + length xs))
               (pre ++ map Some xs ++ Some x :: Some y :: post) x y _ Hn).
    2:{ rewrite <- (Nat.add_0_r (ticks st)). apply Hok. lia. }
    2:{ exact Hb. }
    2:{ apply lookup_middle2. rewrite length_map. lia. }
    2:{ apply lookup_middle2_next. rewrite length_map. lia. }
    rewrite insert_middle2_next by (rewrite length_map; lia).
    rewrite insert_middle2 by (rewrite length_map; lia).
    replace (S (i + length xs)) with (i + length xs + 1) by lia.
    destruct (IH pre (moved_from x) (Some x :: post) i
                (mkState
                   (<[b := pre ++ map Some xs ++
                           Some (moved_from x) :: Some x :: post]> (heap st))
                   (vecs st) (S (ticks st)) (ctors st) (dtors st))) as [z Hz];
      simpl.
    + by rewrite lookup_insert_eq.
    + done.
    + intros j Hj. replace (S (ticks st + j)) with (ticks st + S j) by lia.
      apply Hok. lia.
    + exists z. rewrite Hz. simpl. rewrite insert_insert_eq.
      rewrite map_app, <- app_assoc. simpl. do 2 f_equal. lia.
Qed.

(** X24.  [Emplace] before an element of a vector with spare capacity is
    not all or nothing when the move assignment of the element type can
    raise.  Let the temporary, the move construction of a new last element
    and the shift of the elements in between succeed, and let the final
    assignment to the position raise.  The call then raises with the size
    unchanged, but the elements from the position on have been shifted by
    one: the position holds a moved-from object, and the old last element
    is a live object in slot [size_], outside the vector, where no later
    destructor call reaches it.  The representation invariant no longer
    holds for the vector. *)
Theorem Emplace_in_place_assignment_failure this V front mid lastv v st :
  vecs st !! this = Some V → valid st V (front ++ mid ++ [lastv]) →
  size_ V < Capacity V → nothrow_move_assignable = false →
  (∀ j, j < 1 + (if nothrow_move_constructible then 0 else 1) + length mid →
        throws (ticks st + j) = false) →
  throws (ticks st +
          (1 + (if nothrow_move_constructible then 0 else 1) + length mid)) = true →
  ∃ b z st', buffer_ (data_ V) = Some b ∧
    Emplace this (ptr_add (begin_ V) (length front)) v st = Throw st' ∧
    vecs st' = vecs st ∧
    heap st' =
      <[b := map Some (front ++ z :: mid ++ [lastv]) ++
             replicate (Capacity V - S (size_ V)) None]> (heap st) ∧
    ctors st' = ctors st + 2 ∧ dtors st' = dtors st + 1 ∧
    ∀ els', ¬ valid st' V els'.
Proof.
  intros HV Hvalid Hroom Hna Hbefore Hthrow.
  pose proof Hvalid as (Hlen & Hsz & Hcap & Hbuf).
  rewrite !length_app in Hlen. simpl in Hlen.
  unfold Capacity, RawMemory_Capacity in *.
  destruct V as [[buf cap] size]. simpl in *.
  destruct buf as [b|]; [|lia].
  assert (size = S (length front + length mid)) as -> by lia.
  set (k := length front + length mid) in *.
  set (c := if nothrow_move_constructible then 0 else 1) in *.
  assert (throws (ticks st) = false) as Hok0.
  { rewrite <- (Nat.add_0_r (ticks st)). apply Hbefore. lia. }
  assert (map Some (front ++ mid ++ [lastv]) ++ replicate (cap - S k) None =
          map Some front ++ map Some mid ++
            Some lastv :: None :: replicate (cap - S (S k)) None) as Hblock.
  { rewrite !map_app, <- !app_assoc. simpl.
    replace (cap - S k) with (S (cap - S (S k))) by lia. done. }
  rewrite Hblock in Hbuf.
  set (st0 := mkState (heap st) (vecs st) (S (ticks st)) (S (ctors st)) (dtors st)).
  pose proof (move_construct_same_eq b k (S k)
                (map Some front ++ map Some mid ++
                 Some lastv :: None :: replicate (cap - S (S k)) None)
                lastv st0) as Hmc.
  rewrite insert_middle2_next in Hmc by (rewrite !length_map; done).
  rewrite insert_middle2 in Hmc by (rewrite !length_map; done).
  fold c in Hmc.
  set (st1 := mkState _ _ _ _ _) in Hmc.
  destruct (std_move_backward_n_asked_eq b mid Hna (map Some front)
              (moved_from lastv) (Some lastv :: replicate (cap - S (S k)) None)
              (length front) st1) as [z Hz].
  { unfold st1. simpl. by rewrite lookup_insert_eq. }
  { by rewrite length_map. }
  { intros j Hj. unfold st1. simpl.
    replace (S (ticks st + c + j)) with (ticks st + (1 + c + j)) by lia.
    apply Hbefore. lia. }
  exists b, z.
  assert (wp False
            (Emplace this
               (ptr_add (begin_ (mkVector (mkRawMemory (Some b) cap) (S k)))
                        (length front)) v)
            st (fun _ _ => False)
            (fun st' => vecs st' = vecs st ∧
               heap st' =
                 <[b := map Some (front ++ z :: mid ++ [lastv]) ++
                        replicate (cap - S (S k)) None]> (heap st) ∧
               ctors st' = ctors st + 2 ∧ dtors st' = dtors st + 1)) as Hwp.
  { unfold Emplace.
    apply wp_bind. eapply wp_eq; [unfold get_vec; by rewrite HV|].
    remember (S k) as size eqn:Hsize.
    apply wp_bind, wp_assert_true.
    { unfold ptr_leb, begin_, end_, ptr_add, GetAddress. simpl.
      rewrite !bool_decide_eq_true_2 by done. simpl. apply Nat.leb_le. lia. }
    unfold ptr_eqb, begin_, end_, ptr_add, GetAddress, ptr_diff. simpl.
    rewrite bool_decide_eq_true_2 by done. simpl.
    destruct (Nat.eqb_spec (length front) size) as [|_]; [lia|].
    unfold Capacity, RawMemory_Capacity. simpl.
    destruct (Nat.eqb_spec size cap) as [|_]; [lia|].
    rewrite Nat.sub_0_r. subst size.
    apply wp_bind, wp_fallible; [|intros Hbad; congruence].
    intros _. apply wp_bind, wp_modify. st_simpl. fold st0.
    apply wp_bind, wp_on_unwind.
    apply wp_bind. unfold RawMemory_at. simpl.
    apply wp_bind, wp_assert_true; [apply Nat.ltb_lt; lia|].
    apply wp_ret. unfold ptr_add, GetAddress. simpl.
    rewrite !Nat.sub_0_r.
    apply wp_bind.
    eapply wp_eq.
    { apply Hmc; simpl.
      - intros Hnmc. unfold st0. simpl.
        replace (S (ticks st)) with (ticks st + 1) by lia.
        apply Hbefore. unfold c. rewrite Hnmc. lia.
      - exact Hbuf.
      - apply lookup_middle2. rewrite !length_map. done.
      - rewrite !length_app, !length_map. simpl. lia. }
    apply wp_bind. unfold std_move_backward, ptr_sub, ptr_diff. simpl.
    rewrite !Nat.sub_0_r.
    replace (k - length front) with (length mid) by (unfold k; lia).
    replace (Some b, S k) with (Some b, length front + length mid + 1)
      by (f_equal; unfold k; lia).
    replace (Some b, k) with (Some b, length front + length mid) by done.
    eapply wp_eq; [exact Hz|]. unfold st1. simpl. rewrite insert_insert_eq.
    apply wp_bind. apply wp_bind, wp_assert_true; [apply Nat.ltb_lt; lia|].
    apply wp_ret. simpl.
    apply wp_bind. unfold move_assign_local.
    apply wp_bind.
    eapply wp_eq.
    { apply (read_eq b (length front)
               (map Some front ++ Some z :: map Some mid ++
                Some lastv :: replicate (cap - S (S k)) None) z); simpl.
      - by rewrite lookup_insert_eq.
      - apply lookup_middle. by rewrite length_map. }
    rewrite Hna. apply wp_bind, wp_fallible; simpl.
    { intros Hbad. enough (true = false) by done.
      rewrite <- Hthrow, <- Hbad. f_equal. unfold c. lia. }
    intros _. apply wp_modify. st_simpl.
    split_and!; try done; try lia.
    f_equal. rewrite !map_app. simpl. rewrite !map_app, <- !app_assoc. simpl.
    rewrite <- !app_assoc. done. }
  unfold wp in Hwp.
  destruct (Emplace _ _ _ _) as [t st'|st'|]; try done.
  destruct Hwp as (Hvecs & Hheap & Hct & Hdt).
  exists st'. split_and!; try done.
  intros els' (Hlen' & _ & _ & Hbuf'). simpl in *.
  rewrite Hheap, lookup_insert_eq in Hbuf'.
  injection Hbuf' as Hbuf'.
  apply (f_equal (fun l => l !! S k)) in Hbuf'.
  rewrite lookup_app_l in Hbuf'.
  2:{ rewrite length_map, !length_app. simpl. rewrite length_app. simpl. lia. }
  rewrite lookup_app_r in Hbuf' by (rewrite length_map; lia).
  rewrite length_map, Hlen', Nat.sub_diag in Hbuf'.
  rewrite lookup_map_Some in Hbuf'.
  destruct (lookup_lt_is_Some_2 (front ++ z :: mid ++ [lastv]) (S k)) as [y Hy].
  { rewrite !length_app. simpl. rewrite length_app. simpl. lia. }
  rewrite Hy in Hbuf'. simpl in Hbuf'.
  destruct (cap - S k); simpl in Hbuf'; done.
Qed.

End WithElementType.

(** * Concrete runs *)

Lemma Demo_valid slots els cap size :
  slots = map Some els ++ replicate (cap - size) None →
  length els = size → size ≤ cap → cap ≤ 1000 →
  valid 4%N (Demo.st slots cap size) (Demo.vec 1 cap size) els.
Proof.
  intros -> Hlen Hsz Hcap. unfold valid. simpl. split_and!; try done.
  unfold SizeT.ptrdiff_max. lia.
Defined.

Lemma Demo_quiet (s : state nat) : quiet Demo.never s.
Proof. intros k _. reflexivity. Defined.

(** The example of the specification: [x] inserted at position 1 of
    [[a, b, c]] gives [[a, x, b, c]], and erasing position 1 gives
    [[a, b, c]] back. *)
Example Insert_Erase_run :
  ∃ p st1 q st2,
    @Insert nat Demo.moved 4%N false true true Demo.never 10 (Some 1, 1) 5
      (Demo.st [Some 7; Some 8; Some 9] 3 3) = Ok p st1 ∧
    p = (Some 2, 1) ∧
    heap st1 = {[2 := [Some 7; Some 5; Some 8; Some 9; None; None]]} ∧
    vecs st1 = {[10 := Demo.vec 2 6 4]} ∧
    @Erase nat Demo.moved true Demo.never 10 p st1 = Ok q st2 ∧
    q = (Some 2, 1) ∧
    heap st2 = {[2 := [Some 7; Some 8; Some 9; None; None; None]]} ∧
    vecs st2 = {[10 := Demo.vec 2 6 3]}.
Proof. do 4 eexists. vm_compute. split_and!; reflexivity. Qed.

Lemma Demo_sizeof_pos : (0 < 4)%N.
Proof. reflexivity. Defined.

Lemma Demo_sizeof_max : (4 ≤ SizeT.ptrdiff_max)%N.
Proof. vm_compute. discriminate. Defined.

(** [EmplaceBack_in_place] at a vector [[7]] of capacity 2. *)
Lemma EmplaceBack_in_place_witness :
  vecs (Demo.st [Some 7; None] 2 1) !! 10 = Some (Demo.vec 1 2 1) ∧
  valid 4%N (Demo.st [Some 7; None] 2 1) (Demo.vec 1 2 1) [7] ∧
  size_ (Demo.vec 1 2 1) < Capacity (Demo.vec 1 2 1) ∧
  ∃ t st',
    @EmplaceBack nat Demo.moved 4%N false true Demo.never 10 9
      (Demo.st [Some 7; None] 2 1) = Ok t st'.
Proof.
  assert (vecs (Demo.st [Some 7; None] 2 1) !! 10 = Some (Demo.vec 1 2 1))
    as H1 by reflexivity.
  assert (valid 4%N (Demo.st [Some 7; None] 2 1) (Demo.vec 1 2 1) [7]) as H2
    by (apply Demo_valid; simpl; (reflexivity || lia)).
  assert (size_ (Demo.vec 1 2 1) < Capacity (Demo.vec 1 2 1)) as H3
    by (vm_compute; lia).
  split_and!; try assumption.
  destruct (@EmplaceBack_in_place nat Demo.moved 4%N false true Demo.never
              Demo_sizeof_pos Demo_sizeof_max 10 _ [7] 9 _ H1 H2 H3)
    as (b & _ & _ & Hrun & _).
  apply Hrun. reflexivity.
Defined.

(** [PopBack_spec] at a vector [[7]] of capacity 2. *)
Lemma PopBack_spec_witness :
  vecs (Demo.st [Some 7; None] 2 1) !! 10 = Some (Demo.vec 1 2 1) ∧
  valid 4%N (Demo.st [Some 7; None] 2 1) (Demo.vec 1 2 1) [7] ∧
  ∃ st', PopBack 10 (Demo.st [Some 7; None] 2 1) = Ok tt st'.
Proof.
  assert (vecs (Demo.st [Some 7; None] 2 1) !! 10 = Some (Demo.vec 1 2 1))
    as H1 by reflexivity.
  assert (valid 4%N (Demo.st [Some 7; None] 2 1) (Demo.vec 1 2 1) [7]) as H2
    by (apply Demo_valid; simpl; (reflexivity || lia)).
  split_and!; try assumption.
  destruct (@PopBack_spec nat 4%N Demo_sizeof_pos Demo_sizeof_max 10 _ [7] _ H1 H2)
    as (_ & st' & Hrun & _).
  exists st'. exact Hrun.
Defined.

(** [Vector_move_ctor_spec]: a vector [[7]] of capacity 2 at address [10] is
    moved to the new address [11]. *)
Lemma Vector_move_ctor_spec_witness :
  vecs (Demo.st [Some 7; None] 2 1) !! 10 = Some (Demo.vec 1 2 1) ∧
  11 ≠ 10 ∧
  valid 4%N (Demo.st [Some 7; None] 2 1) (Demo.vec 1 2 1) [7] ∧
  ∃ st', Vector_move_ctor 11 10 (Demo.st [Some 7; None] 2 1) = Ok tt st' ∧
    vecs st' !! 11 = Some (Demo.vec 1 2 1) ∧
    vecs st' !! 10 = Some Vector_default.
Proof.
  assert (vecs (Demo.st [Some 7; None] 2 1) !! 10 = Some (Demo.vec 1 2 1))
    as H1 by reflexivity.
  assert (11 ≠ 10) as H2 by lia.
  assert (valid 4%N (Demo.st [Some 7; None] 2 1) (Demo.vec 1 2 1) [7]) as H3
    by (apply Demo_valid; simpl; (reflexivity || lia)).
  split_and!; try assumption.
  destruct (@Vector_move_ctor_spec nat 4%N 11 10 _ [7] _ H1 H2 H3)
    as (st' & Hrun & _ & _ & _ & _ & Hthis & _ & Hother & _).
  exists st'. split_and!; assumption.
Defined.

(** C3 as it is stated does not hold: after the move the source has
    capacity 0, not the capacity 2 it had. *)
Lemma Vector_move_ctor_source_capacity :
  ∃ st' A',
    Vector_move_ctor 11 10 (Demo.st [Some 7; None] 2 1) = Ok tt st' ∧
    vecs (Demo.st [Some 7; None] 2 1) !! 10 = Some (Demo.vec 1 2 1) ∧
    vecs st' !! 10 = Some A' ∧
    Capacity (Demo.vec 1 2 1) = 2 ∧ Capacity A' = 0 ∧
    Capacity A' ≠ Capacity (Demo.vec 1 2 1).
Proof.
  do 2 eexists. split; [vm_compute; reflexivity|].
  split; [reflexivity|]. split; [vm_compute; reflexivity|].
  split; [reflexivity|]. split; [reflexivity|]. vm_compute. lia.
Qed.

(** [Erase_returns_position]: the first element of [[7, 8]] is erased. *)
Lemma Erase_returns_position_witness :
  vecs (Demo.st [Some 7; Some 8] 2 2) !! 10 = Some (Demo.vec 1 2 2) ∧
  valid 4%N (Demo.st [Some 7; Some 8] 2 2) (Demo.vec 1 2 2) [7; 8] ∧
  0 < size_ (Demo.vec 1 2 2) ∧
  ∃ q st',
    @Erase nat Demo.moved true Demo.never 10 (ptr_add (begin_ (Demo.vec 1 2 2)) 0)
      (Demo.st [Some 7; Some 8] 2 2) = Ok q st'.
Proof.
  assert (vecs (Demo.st [Some 7; Some 8] 2 2) !! 10 = Some (Demo.vec 1 2 2))
    as H1 by reflexivity.
  assert (valid 4%N (Demo.st [Some 7; Some 8] 2 2) (Demo.vec 1 2 2) [7; 8]) as H2
    by (apply Demo_valid; simpl; (reflexivity || lia)).
  assert (0 < size_ (Demo.vec 1 2 2)) as H3 by (simpl; lia).
  split_and!; try assumption.
  destruct (@Erase_returns_position nat Demo.moved 4%N true Demo.never
              Demo_sizeof_pos Demo_sizeof_max 10 _ [7; 8] 0 _ H1 H2 H3)
    as (_ & Hrun).
  apply Hrun, Demo_quiet.
Defined.

(** [Insert_Erase_round_trip]: [5] is inserted at position 1 of [[7, 8, 9]]. *)
Lemma Insert_Erase_round_trip_witness :
  vecs (Demo.st [Some 7; Some 8; Some 9] 3 3) !! 10 = Some (Demo.vec 1 3 3) ∧
  valid 4%N (Demo.st [Some 7; Some 8; Some 9] 3 3) (Demo.vec 1 3 3) [7; 8; 9] ∧
  1 ≤ size_ (Demo.vec 1 3 3) ∧
  ∃ p st1,
    @Insert nat Demo.moved 4%N false true true Demo.never 10 (ptr_add (begin_ (Demo.vec 1 3 3)) 1) 5
      (Demo.st [Some 7; Some 8; Some 9] 3 3) = Ok p st1.
Proof.
  assert (vecs (Demo.st [Some 7; Some 8; Some 9] 3 3) !! 10 =
          Some (Demo.vec 1 3 3)) as H1 by reflexivity.
  assert (valid 4%N (Demo.st [Some 7; Some 8; Some 9] 3 3) (Demo.vec 1 3 3)
            [7; 8; 9]) as H2
    by (apply Demo_valid; simpl; (reflexivity || lia)).
  assert (1 ≤ size_ (Demo.vec 1 3 3)) as H3 by (simpl; lia).
  split_and!; try assumption.
  destruct (@Insert_Erase_round_trip nat Demo.moved 4%N false true true Demo.never
              Demo_sizeof_pos Demo_sizeof_max 10 _ [7; 8; 9] 1 5 _ H1 H2 H3)
    as (_ & Hrun).
  apply Hrun; [vm_compute; discriminate | apply Demo_quiet].
Defined.

(** [capacity_policy] at a full vector [[7]]. *)
Lemma capacity_policy_witness :
  vecs (Demo.st [Some 7] 1 1) !! 10 = Some (Demo.vec 1 1 1) ∧
  valid 4%N (Demo.st [Some 7] 1 1) (Demo.vec 1 1 1) [7] ∧
  (∀ t st',
     @EmplaceBack nat Demo.moved 4%N false true Demo.never 10 9
       (Demo.st [Some 7] 1 1) = Ok t st' →
     ∃ V', vecs st' !! 10 = Some V' ∧ Capacity V' = 2) ∧
  (∃ st' V',
     @PushBack nat Demo.moved 4%N false true Demo.never 10 9
       (Demo.st [Some 7] 1 1) = Ok tt st' ∧
     vecs st' !! 10 = Some V' ∧ Capacity V' = 2) ∧
  @Reserve nat Demo.moved 4%N false true Demo.never 10 1 (Demo.st [Some 7] 1 1)
    = Ok tt (Demo.st [Some 7] 1 1).
Proof.
  assert (vecs (Demo.st [Some 7] 1 1) !! 10 = Some (Demo.vec 1 1 1))
    as H1 by reflexivity.
  assert (valid 4%N (Demo.st [Some 7] 1 1) (Demo.vec 1 1 1) [7]) as H2
    by (apply Demo_valid; simpl; (reflexivity || lia)).
  split_and!; try assumption.
  - destruct (@capacity_policy nat Demo.moved 0 4%N false true true Demo.never
                Demo_sizeof_pos Demo_sizeof_max 10 _ [7] _ H1 H2)
      as (Hgrow & _).
    destruct (Hgrow eq_refl 9) as (Hok & _). exact Hok.
  - destruct (@capacity_policy nat Demo.moved 0 4%N false true true Demo.never
                Demo_sizeof_pos Demo_sizeof_max 10 _ [7] _ H1 H2)
      as (Hgrow & _).
    destruct (Hgrow eq_refl 9) as (_ & _ & _ & Hpush).
    apply Hpush; [vm_compute; discriminate | apply Demo_quiet].
  - destruct (@capacity_policy nat Demo.moved 0 4%N false true true Demo.never
                Demo_sizeof_pos Demo_sizeof_max 10 _ [7] _ H1 H2)
      as (_ & Hreserve & _ & _).
    apply Hreserve. unfold Capacity, RawMemory_Capacity. simpl. lia.
Defined.

(** [Vector_copy_ctor_spec]: a vector [[7]] of capacity 2 at address [10] is
    copied to the new address [11]. *)
Lemma Vector_copy_ctor_spec_witness :
  vecs (Demo.st [Some 7; None] 2 1) !! 10 = Some (Demo.vec 1 2 1) ∧
  valid 4%N (Demo.st [Some 7; None] 2 1) (Demo.vec 1 2 1) [7] ∧
  vecs (Demo.st [Some 7; None] 2 1) !! 11 = None ∧
  ∃ st', @Vector_copy_ctor nat 4%N Demo.never 11 10 (Demo.st [Some 7; None] 2 1)
           = Ok tt st'.
Proof.
  assert (vecs (Demo.st [Some 7; None] 2 1) !! 10 = Some (Demo.vec 1 2 1))
    as H1 by reflexivity.
  assert (valid 4%N (Demo.st [Some 7; None] 2 1) (Demo.vec 1 2 1) [7]) as H2
    by (apply Demo_valid; simpl; (reflexivity || lia)).
  assert (vecs (Demo.st [Some 7; None] 2 1) !! 11 = None) as H3 by reflexivity.
  split_and!; try assumption.
  destruct (@Vector_copy_ctor_spec nat 4%N Demo.never
              Demo_sizeof_pos Demo_sizeof_max 11 10 _ [7] _ H1 H2 H3)
    as (_ & Hrun).
  apply Hrun, Demo_quiet.
Defined.

(** The failing input of C1: [9] is appended to the full vector [[7]]; the
    allocation (step 0) and the construction of [9] (step 1) succeed, the
    copy of [7] (step 2) raises.  Two objects have been constructed by then,
    [7] long ago and [9] now; none has been destroyed; and the only block
    left holds [7] alone. *)
Lemma EmplaceBack_relocation_failure_leaks_witness :
  valid 4%N (Demo.st [Some 7] 1 1) (Demo.vec 1 1 1) [7] ∧
  @EmplaceBack nat Demo.moved 4%N false true (Demo.at_step 2) 10 9 (Demo.st [Some 7] 1 1) =
    Throw (mkState {[1 := [Some 7]]} {[10 := Demo.vec 1 1 1]} 3 2 0).
Proof.
  assert (vecs (Demo.st [Some 7] 1 1) !! 10 = Some (Demo.vec 1 1 1))
    as H1 by reflexivity.
  assert (valid 4%N (Demo.st [Some 7] 1 1) (Demo.vec 1 1 1) [7]) as H2
    by (apply Demo_valid; simpl; (reflexivity || lia)).
  assert (∀ j, j < 2 + 0 →
            Demo.at_step 2 (ticks (Demo.st [Some 7] 1 1) + j) = false) as H3.
  { intros [|[|j]] Hj; [reflexivity | reflexivity | lia]. }
  split; [assumption|].
  destruct (@EmplaceBack_relocation_failure_leaks nat Demo.moved 4%N false true
              (Demo.at_step 2) Demo_sizeof_pos Demo_sizeof_max
              10 _ [7] 9 0 _ H1 H2 eq_refl eq_refl
              ltac:(vm_compute; discriminate) ltac:(simpl; lia) H3 eq_refl)
    as (st' & Hrun & _).
  rewrite Hrun. vm_compute in Hrun.
  injection Hrun as <-. reflexivity.
Defined.

(** The failing input of C2: [9] is inserted at position 1 of the full
    vector [[7, 8]]; the allocation (step 0), the construction of [9]
    (step 1) and the copy of [7] (step 2) succeed, the copy of [8] (step 3)
    raises.  Afterwards the vector still has size 2, but slot 0 of its
    block is raw memory: [7] has been destroyed. *)
Lemma Emplace_suffix_failure_destroys_prefix_witness :
  valid 4%N (Demo.st [Some 7; Some 8] 2 2) (Demo.vec 1 2 2) ([7] ++ [8]) ∧
  @Emplace nat Demo.moved 4%N false true true (Demo.at_step 3) 10
     (ptr_add (begin_ (Demo.vec 1 2 2)) 1) 9 (Demo.st [Some 7; Some 8] 2 2) =
    Throw (mkState {[1 := [None; Some 8]]} {[10 := Demo.vec 1 2 2]} 4 4 3).
Proof.
  assert (vecs (Demo.st [Some 7; Some 8] 2 2) !! 10 = Some (Demo.vec 1 2 2))
    as H1 by reflexivity.
  assert (valid 4%N (Demo.st [Some 7; Some 8] 2 2) (Demo.vec 1 2 2) ([7] ++ [8]))
    as H2 by (apply Demo_valid; simpl; (reflexivity || lia)).
  assert (∀ j, j < 2 + length [7] + 0 →
            Demo.at_step 3 (ticks (Demo.st [Some 7; Some 8] 2 2) + j) = false)
    as H3.
  { intros [|[|[|j]]] Hj; [reflexivity | reflexivity | reflexivity | simpl in Hj; lia]. }
  split; [assumption|].
  destruct (@Emplace_suffix_failure_destroys_prefix nat Demo.moved 4%N
              false true true (Demo.at_step 3) Demo_sizeof_pos Demo_sizeof_max
              10 _ [7] [8] 9 0 _ H1 H2 eq_refl eq_refl
              ltac:(vm_compute; discriminate) ltac:(discriminate)
              ltac:(simpl; lia) H3 eq_refl)
    as (b & st' & _ & Hrun & _).
  simpl length in Hrun. rewrite Hrun. vm_compute in Hrun.
  injection Hrun as <-. reflexivity.
Defined.

(** [Vector_at_bounds] at index 1 of a vector [[7, 8]] of capacity 3. *)
Lemma Vector_at_bounds_witness :
  vecs (Demo.st [Some 7; Some 8; None] 3 2) !! 10 = Some (Demo.vec 1 3 2) ∧
  valid 4%N (Demo.st [Some 7; Some 8; None] 3 2) (Demo.vec 1 3 2) [7; 8] ∧
  1 < size_ (Demo.vec 1 3 2) ∧
  Vector_at 10 1 (Demo.st [Some 7; Some 8; None] 3 2) =
    Ok (Some 1, 1) (Demo.st [Some 7; Some 8; None] 3 2) ∧
  load_slot (Some 1, 1) (Demo.st [Some 7; Some 8; None] 3 2) = Some (Some 8).
Proof.
  assert (vecs (Demo.st [Some 7; Some 8; None] 3 2) !! 10 = Some (Demo.vec 1 3 2))
    as H1 by reflexivity.
  assert (valid 4%N (Demo.st [Some 7; Some 8; None] 3 2) (Demo.vec 1 3 2) [7; 8])
    as H2 by (apply Demo_valid; simpl; (reflexivity || lia)).
  assert (1 < size_ (Demo.vec 1 3 2)) as H3 by (vm_compute; lia).
  split_and!; try assumption.
  - destruct (@Vector_at_bounds nat 4%N Demo_sizeof_pos Demo_sizeof_max
                10 _ [7; 8] 1 _ H1 H2) as [Hin _].
    destruct (Hin H3) as (x & _ & Hrun & _). exact Hrun.
  - reflexivity.
Defined.

(** [EmplaceBack_appends] at the full vector [[7, 8]]: the new element goes
    to a new block. *)
Lemma EmplaceBack_appends_witness :
  vecs (Demo.st [Some 7; Some 8] 2 2) !! 10 = Some (Demo.vec 1 2 2) ∧
  valid 4%N (Demo.st [Some 7; Some 8] 2 2) (Demo.vec 1 2 2) [7; 8] ∧
  ∃ t st',
    @EmplaceBack nat Demo.moved 4%N false true Demo.never 10 9
      (Demo.st [Some 7; Some 8] 2 2) = Ok t st'.
Proof.
  assert (vecs (Demo.st [Some 7; Some 8] 2 2) !! 10 = Some (Demo.vec 1 2 2))
    as H1 by reflexivity.
  assert (valid 4%N (Demo.st [Some 7; Some 8] 2 2) (Demo.vec 1 2 2) [7; 8]) as H2
    by (apply Demo_valid; simpl; (reflexivity || lia)).
  split_and!; try assumption.
  destruct (@EmplaceBack_appends nat Demo.moved 4%N false true Demo.never
              Demo_sizeof_pos Demo_sizeof_max 10 _ [7; 8] 9 _ H1 H2)
    as (_ & Hrun).
  apply Hrun; [vm_compute; discriminate | apply Demo_quiet].
Defined.

(** [PushBack_PopBack_round_trip] at the full vector [[7, 8]]. *)
Lemma PushBack_PopBack_round_trip_witness :
  vecs (Demo.st [Some 7; Some 8] 2 2) !! 10 = Some (Demo.vec 1 2 2) ∧
  valid 4%N (Demo.st [Some 7; Some 8] 2 2) (Demo.vec 1 2 2) [7; 8] ∧
  @PushBack nat Demo.moved 4%N false true Demo.never 10 9
    (Demo.st [Some 7; Some 8] 2 2) =
    Ok tt (mkState {[2 := [Some 7; Some 8; Some 9; None]]}
                   {[10 := Demo.vec 2 4 3]} 4 5 2) ∧
  ∃ st2, PopBack 10 (mkState {[2 := [Some 7; Some 8; Some 9; None]]}
                       {[10 := Demo.vec 2 4 3]} 4 5 2) = Ok tt st2.
Proof.
  assert (vecs (Demo.st [Some 7; Some 8] 2 2) !! 10 = Some (Demo.vec 1 2 2))
    as H1 by reflexivity.
  assert (valid 4%N (Demo.st [Some 7; Some 8] 2 2) (Demo.vec 1 2 2) [7; 8]) as H2
    by (apply Demo_valid; simpl; (reflexivity || lia)).
  assert (@PushBack nat Demo.moved 4%N false true Demo.never 10 9
            (Demo.st [Some 7; Some 8] 2 2) =
          Ok tt (mkState {[2 := [Some 7; Some 8; Some 9; None]]}
                         {[10 := Demo.vec 2 4 3]} 4 5 2)) as H3
    by (vm_compute; reflexivity).
  split_and!; try assumption.
  destruct (@PushBack_PopBack_round_trip nat Demo.moved 4%N false true Demo.never
              Demo_sizeof_pos Demo_sizeof_max 10 _ [7; 8] 9 _ _ H1 H2 H3)
    as (st2 & V2 & Hrun & _).
  exists st2. exact Hrun.
Defined.

(** Two vectors [[7]] (capacity 2) and [[8, 9]] (capacity 2) for the
    operations on pairs. *)
Lemma Demo_valid2 :
  valid 4%N (Demo.st2 [Some 7; None] 2 1 [Some 8; Some 9] 2 2) (Demo.vec 1 2 1) [7] ∧
  valid 4%N (Demo.st2 [Some 7; None] 2 1 [Some 8; Some 9] 2 2) (Demo.vec 2 2 2)
    [8; 9].
Proof.
  unfold valid. simpl. split_and!; try done; try lia; vm_compute; discriminate.
Defined.

(** [move_assign_exchanges]: [[7]] at address [10] receives [[8, 9]]. *)
Lemma move_assign_exchanges_witness :
  10 ≠ 11 ∧
  vecs (Demo.st2 [Some 7; None] 2 1 [Some 8; Some 9] 2 2) !! 10 =
    Some (Demo.vec 1 2 1) ∧
  vecs (Demo.st2 [Some 7; None] 2 1 [Some 8; Some 9] 2 2) !! 11 =
    Some (Demo.vec 2 2 2) ∧
  ∃ st', move_assign 10 11 (Demo.st2 [Some 7; None] 2 1 [Some 8; Some 9] 2 2) =
           Ok tt st' ∧
         vecs st' !! 10 = Some (Demo.vec 2 2 2).
Proof.
  assert (10 ≠ 11) as H0 by discriminate.
  assert (vecs (Demo.st2 [Some 7; None] 2 1 [Some 8; Some 9] 2 2) !! 10 =
            Some (Demo.vec 1 2 1)) as H1 by reflexivity.
  assert (vecs (Demo.st2 [Some 7; None] 2 1 [Some 8; Some 9] 2 2) !! 11 =
            Some (Demo.vec 2 2 2)) as H2 by reflexivity.
  split_and!; try assumption.
  destruct (@move_assign_exchanges nat 4%N 10 11 _ _ [7] [8; 9] _ H0 H1 H2
              (proj1 Demo_valid2) (proj2 Demo_valid2))
    as (st' & Hrun & _ & Hthis & _).
  exists st'. split; assumption.
Defined.

(** [Swap_twice] on the same two vectors. *)
Lemma Swap_twice_witness :
  vecs (Demo.st2 [Some 7; None] 2 1 [Some 8; Some 9] 2 2) !! 10 =
    Some (Demo.vec 1 2 1) ∧
  vecs (Demo.st2 [Some 7; None] 2 1 [Some 8; Some 9] 2 2) !! 11 =
    Some (Demo.vec 2 2 2) ∧
  bind (Swap 10 11) (fun _ => Swap 10 11)
    (Demo.st2 [Some 7; None] 2 1 [Some 8; Some 9] 2 2) =
    Ok tt (Demo.st2 [Some 7; None] 2 1 [Some 8; Some 9] 2 2).
Proof.
  assert (vecs (Demo.st2 [Some 7; None] 2 1 [Some 8; Some 9] 2 2) !! 10 =
            Some (Demo.vec 1 2 1)) as H1 by reflexivity.
  assert (vecs (Demo.st2 [Some 7; None] 2 1 [Some 8; Some 9] 2 2) !! 11 =
            Some (Demo.vec 2 2 2)) as H2 by reflexivity.
  split_and!; try assumption.
  exact (proj1 (@Swap_twice nat 10 11 _ _ _ H1 H2)).
Defined.

(** [Reserve_grows]: [Reserve(5)] on [[7, 8]] of capacity 2. *)
Lemma Reserve_grows_witness :
  vecs (Demo.st [Some 7; Some 8] 2 2) !! 10 = Some (Demo.vec 1 2 2) ∧
  valid 4%N (Demo.st [Some 7; Some 8] 2 2) (Demo.vec 1 2 2) [7; 8] ∧
  Capacity (Demo.vec 1 2 2) < 5 ∧
  ∃ st', @Reserve nat Demo.moved 4%N false true Demo.never 10 5
           (Demo.st [Some 7; Some 8] 2 2) = Ok tt st'.
Proof.
  assert (vecs (Demo.st [Some 7; Some 8] 2 2) !! 10 = Some (Demo.vec 1 2 2))
    as H1 by reflexivity.
  assert (valid 4%N (Demo.st [Some 7; Some 8] 2 2) (Demo.vec 1 2 2) [7; 8]) as H2
    by (apply Demo_valid; simpl; (reflexivity || lia)).
  assert (Capacity (Demo.vec 1 2 2) < 5) as H3 by (vm_compute; lia).
  split_and!; try assumption.
  destruct (@Reserve_grows nat Demo.moved 4%N false true Demo.never
              Demo_sizeof_pos Demo_sizeof_max 10 _ [7; 8] 5 _ H1 H2 H3
              ltac:(vm_compute; reflexivity))
    as (_ & Hrun).
  apply Hrun; [vm_compute; discriminate | apply Demo_quiet].
Defined.

(** [Reserve_failure_rolls_back]: [Reserve(5)] on [[7, 8]] where the copy
    of [8] (step 2) raises; the copy of [7] has been destroyed again. *)
Lemma Reserve_failure_rolls_back_witness :
  vecs (Demo.st [Some 7; Some 8] 2 2) !! 10 = Some (Demo.vec 1 2 2) ∧
  valid 4%N (Demo.st [Some 7; Some 8] 2 2) (Demo.vec 1 2 2) [7; 8] ∧
  ∃ st',
    @Reserve nat Demo.moved 4%N false true (Demo.at_step 2) 10 5
      (Demo.st [Some 7; Some 8] 2 2) = Throw st' ∧
    heap st' = heap (Demo.st [Some 7; Some 8] 2 2) ∧
    vecs st' = vecs (Demo.st [Some 7; Some 8] 2 2).
Proof.
  assert (vecs (Demo.st [Some 7; Some 8] 2 2) !! 10 = Some (Demo.vec 1 2 2))
    as H1 by reflexivity.
  assert (valid 4%N (Demo.st [Some 7; Some 8] 2 2) (Demo.vec 1 2 2) [7; 8]) as H2
    by (apply Demo_valid; simpl; (reflexivity || lia)).
  split_and!; try assumption.
  pose proof (@Reserve_failure_rolls_back nat Demo.moved 4%N false true
                (Demo.at_step 2) Demo_sizeof_pos Demo_sizeof_max 10 _ [7; 8] 5 _
                eq_refl H1 H2 ltac:(vm_compute; reflexivity)) as Hspec.
  destruct (@Reserve nat Demo.moved 4%N false true (Demo.at_step 2) 10 5
              (Demo.st [Some 7; Some 8] 2 2)) as [[] st'|st'|] eqn:Hrun.
  - vm_compute in Hrun. discriminate Hrun.
  - exists st'. destruct Hspec as (Hheap & Hvecs & _).
    split_and!; [reflexivity | exact Hheap | exact Hvecs].
  - destruct Hspec.
Defined.

(** [Vector_dtor_spec]: the vector [[7, 8]] of capacity 3 is destroyed. *)
Lemma Vector_dtor_spec_witness :
  vecs (Demo.st [Some 7; Some 8; None] 3 2) !! 10 = Some (Demo.vec 1 3 2) ∧
  valid 4%N (Demo.st [Some 7; Some 8; None] 3 2) (Demo.vec 1 3 2) [7; 8] ∧
  ∃ st', Vector_dtor 10 (Demo.st [Some 7; Some 8; None] 3 2) = Ok tt st' ∧
    dtors st' = 2.
Proof.
  assert (vecs (Demo.st [Some 7; Some 8; None] 3 2) !! 10 = Some (Demo.vec 1 3 2))
    as H1 by reflexivity.
  assert (valid 4%N (Demo.st [Some 7; Some 8; None] 3 2) (Demo.vec 1 3 2) [7; 8])
    as H2 by (apply Demo_valid; simpl; (reflexivity || lia)).
  split_and!; try assumption.
  destruct (@Vector_dtor_spec nat 4%N Demo_sizeof_pos Demo_sizeof_max
              10 _ [7; 8] _ H1 H2)
    as (st' & Hrun & _ & _ & _ & _ & _ & Hd).
  exists st'. split; [exact Hrun | exact Hd].
Defined.

(** [copy_then_destroy]: the vector [[7, 8]] at address [10] is copied to
    address [11] and the copy destroyed. *)
Lemma copy_then_destroy_witness :
  vecs (Demo.st [Some 7; Some 8; None] 3 2) !! 10 = Some (Demo.vec 1 3 2) ∧
  valid 4%N (Demo.st [Some 7; Some 8; None] 3 2) (Demo.vec 1 3 2) [7; 8] ∧
  vecs (Demo.st [Some 7; Some 8; None] 3 2) !! 11 = None ∧
  @Vector_copy_ctor nat 4%N Demo.never 11 10 (Demo.st [Some 7; Some 8; None] 3 2) =
    Ok tt (mkState {[1 := [Some 7; Some 8; None]; 2 := [Some 7; Some 8]]}
                   {[10 := Demo.vec 1 3 2; 11 := Demo.vec 2 2 2]} 3 4 0) ∧
  ∃ st2,
    Vector_dtor 11
      (mkState {[1 := [Some 7; Some 8; None]; 2 := [Some 7; Some 8]]}
               {[10 := Demo.vec 1 3 2; 11 := Demo.vec 2 2 2]} 3 4 0) = Ok tt st2 ∧
    heap st2 = heap (Demo.st [Some 7; Some 8; None] 3 2).
Proof.
  assert (vecs (Demo.st [Some 7; Some 8; None] 3 2) !! 10 = Some (Demo.vec 1 3 2))
    as H1 by reflexivity.
  assert (valid 4%N (Demo.st [Some 7; Some 8; None] 3 2) (Demo.vec 1 3 2) [7; 8])
    as H2 by (apply Demo_valid; simpl; (reflexivity || lia)).
  assert (vecs (Demo.st [Some 7; Some 8; None] 3 2) !! 11 = None) as H3
    by reflexivity.
  assert (@Vector_copy_ctor nat 4%N Demo.never 11 10
            (Demo.st [Some 7; Some 8; None] 3 2) =
          Ok tt (mkState {[1 := [Some 7; Some 8; None]; 2 := [Some 7; Some 8]]}
                   {[10 := Demo.vec 1 3 2; 11 := Demo.vec 2 2 2]} 3 4 0)) as H4
    by (vm_compute; reflexivity).
  split_and!; try assumption.
  destruct (@copy_then_destroy nat 4%N Demo.never Demo_sizeof_pos Demo_sizeof_max
              11 10 _ [7; 8] _ _ H1 H2 H3 H4)
    as (st2 & Hrun & Hheap & _).
  exists st2. split; [exact Hrun | exact Hheap].
Defined.

(** [Vector_size_ctor_spec]: [Vector(3)] where the construction of the
    third element (step 3) raises: nothing is left behind. *)
Lemma Vector_size_ctor_spec_witness :
  (N.of_nat 3 * 4 < SizeT.modulus)%N ∧
  ∃ st',
    @Vector_size_ctor nat 0 4%N (Demo.at_step 3) 11 3
      (Demo.st [Some 7; None] 2 1) = Throw st' ∧
    heap st' = heap (Demo.st [Some 7; None] 2 1) ∧
    vecs st' = vecs (Demo.st [Some 7; None] 2 1).
Proof.
  assert (N.of_nat 3 * 4 < SizeT.modulus)%N as H1 by (vm_compute; reflexivity).
  split; [assumption|].
  pose proof (@Vector_size_ctor_spec nat 0 4%N (Demo.at_step 3)
                Demo_sizeof_pos Demo_sizeof_max 11 3 (Demo.st [Some 7; None] 2 1)
                H1) as Hspec.
  destruct (@Vector_size_ctor nat 0 4%N (Demo.at_step 3) 11 3
              (Demo.st [Some 7; None] 2 1)) as [[] st'|st'|] eqn:Hrun.
  - vm_compute in Hrun. discriminate Hrun.
  - exists st'. destruct Hspec as (Hheap & Hvecs & _).
    split_and!; [reflexivity | exact Hheap | exact Hvecs].
  - destruct Hspec.
Defined.

(** [Resize_shrinks]: [Resize(1)] on [[7, 8, 9]]. *)
Lemma Resize_shrinks_witness :
  vecs (Demo.st [Some 7; Some 8; Some 9] 3 3) !! 10 = Some (Demo.vec 1 3 3) ∧
  valid 4%N (Demo.st [Some 7; Some 8; Some 9] 3 3) (Demo.vec 1 3 3) [7; 8; 9] ∧
  1 ≤ size_ (Demo.vec 1 3 3) ∧
  ∃ st', @Resize nat Demo.moved 0 4%N false true Demo.never 10 1
           (Demo.st [Some 7; Some 8; Some 9] 3 3) = Ok tt st' ∧
    dtors st' = 2.
Proof.
  assert (vecs (Demo.st [Some 7; Some 8; Some 9] 3 3) !! 10 = Some (Demo.vec 1 3 3))
    as H1 by reflexivity.
  assert (valid 4%N (Demo.st [Some 7; Some 8; Some 9] 3 3) (Demo.vec 1 3 3)
            [7; 8; 9]) as H2
    by (apply Demo_valid; simpl; (reflexivity || lia)).
  assert (1 ≤ size_ (Demo.vec 1 3 3)) as H3 by (vm_compute; lia).
  split_and!; try assumption.
  destruct (@Resize_shrinks nat Demo.moved 0 4%N false true Demo.never
              Demo_sizeof_pos Demo_sizeof_max 10 _ [7; 8; 9] 1 _ H1 H2 H3)
    as (st' & Hrun & _ & _ & _ & _ & _ & Hd & _).
  exists st'. split; [exact Hrun | exact Hd].
Defined.

(** [Resize_grows]: [Resize(4)] on [[7]] of capacity 2. *)
Lemma Resize_grows_witness :
  vecs (Demo.st [Some 7; None] 2 1) !! 10 = Some (Demo.vec 1 2 1) ∧
  valid 4%N (Demo.st [Some 7; None] 2 1) (Demo.vec 1 2 1) [7] ∧
  size_ (Demo.vec 1 2 1) < 4 ∧
  ∃ st', @Resize nat Demo.moved 0 4%N false true Demo.never 10 4
           (Demo.st [Some 7; None] 2 1) = Ok tt st'.
Proof.
  assert (vecs (Demo.st [Some 7; None] 2 1) !! 10 = Some (Demo.vec 1 2 1))
    as H1 by reflexivity.
  assert (valid 4%N (Demo.st [Some 7; None] 2 1) (Demo.vec 1 2 1) [7]) as H2
    by (apply Demo_valid; simpl; (reflexivity || lia)).
  assert (size_ (Demo.vec 1 2 1) < 4) as H3 by (vm_compute; lia).
  split_and!; try assumption.
  destruct (@Resize_grows nat Demo.moved 0 4%N false true Demo.never
              Demo_sizeof_pos Demo_sizeof_max 10 _ [7] 4 _ H1 H2 H3
              ltac:(vm_compute; reflexivity))
    as (_ & Hrun).
  apply Hrun; [vm_compute; discriminate | apply Demo_quiet].
Defined.

(** [copy_assign_distinct]: [[7]] (capacity 2) is assigned [[8, 9]]. *)
Lemma copy_assign_distinct_witness :
  10 ≠ 11 ∧
  vecs (Demo.st2 [Some 7; None] 2 1 [Some 8; Some 9] 2 2) !! 10 =
    Some (Demo.vec 1 2 1) ∧
  vecs (Demo.st2 [Some 7; None] 2 1 [Some 8; Some 9] 2 2) !! 11 =
    Some (Demo.vec 2 2 2) ∧
  (∀ b, buffer_ (data_ (Demo.vec 1 2 1)) = Some b →
        buffer_ (data_ (Demo.vec 2 2 2)) ≠ Some b) ∧
  ∃ st', @copy_assign nat 4%N Demo.never 10 11
           (Demo.st2 [Some 7; None] 2 1 [Some 8; Some 9] 2 2) = Ok tt st'.
Proof.
  assert (10 ≠ 11) as H0 by discriminate.
  assert (vecs (Demo.st2 [Some 7; None] 2 1 [Some 8; Some 9] 2 2) !! 10 =
            Some (Demo.vec 1 2 1)) as H1 by reflexivity.
  assert (vecs (Demo.st2 [Some 7; None] 2 1 [Some 8; Some 9] 2 2) !! 11 =
            Some (Demo.vec 2 2 2)) as H2 by reflexivity.
  assert (∀ b, buffer_ (data_ (Demo.vec 1 2 1)) = Some b →
               buffer_ (data_ (Demo.vec 2 2 2)) ≠ Some b) as H3.
  { simpl. intros b Hb Hb'. rewrite <- Hb in Hb'. discriminate Hb'. }
  split_and!; try assumption.
  destruct (@copy_assign_distinct nat 4%N Demo.never Demo_sizeof_pos
              Demo_sizeof_max 10 11 _ _ [7] [8; 9] _ H0 H1 H2
              (proj1 Demo_valid2) (proj2 Demo_valid2) H3)
    as (_ & Hrun).
  apply Hrun, Demo_quiet.
Defined.


(** [Emplace_prefix_failure_rolls_back]: [9] is inserted at position 1 of
    the full vector [[7, 8]]; the copy of [7] (step 2) raises. *)
Lemma Emplace_prefix_failure_rolls_back_witness :
  vecs (Demo.st [Some 7; Some 8] 2 2) !! 10 = Some (Demo.vec 1 2 2) ∧
  valid 4%N (Demo.st [Some 7; Some 8] 2 2) (Demo.vec 1 2 2) ([7] ++ [8]) ∧
  ∃ st',
    @Emplace nat Demo.moved 4%N false true true (Demo.at_step 2) 10 (Some 1, 1) 9
      (Demo.st [Some 7; Some 8] 2 2) = Throw st' ∧
    heap st' = heap (Demo.st [Some 7; Some 8] 2 2) ∧
    ctors st' = 3 ∧ dtors st' = 1.
Proof.
  assert (vecs (Demo.st [Some 7; Some 8] 2 2) !! 10 = Some (Demo.vec 1 2 2))
    as H1 by reflexivity.
  assert (valid 4%N (Demo.st [Some 7; Some 8] 2 2) (Demo.vec 1 2 2) ([7] ++ [8]))
    as H2 by (apply Demo_valid; simpl; (reflexivity || lia)).
  assert (∀ j, j < 2 + 0 →
            Demo.at_step 2 (ticks (Demo.st [Some 7; Some 8] 2 2) + j) = false)
    as H3.
  { intros [|[|j]] Hj; [reflexivity | reflexivity | lia]. }
  split_and!; try assumption.
  destruct (@Emplace_prefix_failure_rolls_back nat Demo.moved 4%N false true true
              (Demo.at_step 2) Demo_sizeof_pos Demo_sizeof_max
              10 _ [7] [8] 9 0 _ H1 H2 eq_refl eq_refl
              ltac:(vm_compute; discriminate) ltac:(discriminate)
              ltac:(simpl; lia) H3 eq_refl)
    as (st' & Hrun & Hheap & _ & Hc & Hd).
  exists st'. split_and!; assumption.
Defined.

(** [Erase_removes]: the element at index 1 of [[7, 8, 9]] is erased. *)
Lemma Erase_removes_witness :
  vecs (Demo.st [Some 7; Some 8; Some 9] 3 3) !! 10 = Some (Demo.vec 1 3 3) ∧
  valid 4%N (Demo.st [Some 7; Some 8; Some 9] 3 3) (Demo.vec 1 3 3) [7; 8; 9] ∧
  1 < size_ (Demo.vec 1 3 3) ∧
  @Erase nat Demo.moved true Demo.never 10 (Some 1, 1)
    (Demo.st [Some 7; Some 8; Some 9] 3 3) =
    Ok (Some 1, 1)
       (mkState {[1 := [Some 7; Some 9; None]]} {[10 := Demo.vec 1 3 2]} 0 3 1) ∧
  ∃ V', valid 4%N
          (mkState {[1 := [Some 7; Some 9; None]]} {[10 := Demo.vec 1 3 2]} 0 3 1)
          V' [7; 9].
Proof.
  assert (vecs (Demo.st [Some 7; Some 8; Some 9] 3 3) !! 10 = Some (Demo.vec 1 3 3))
    as H1 by reflexivity.
  assert (valid 4%N (Demo.st [Some 7; Some 8; Some 9] 3 3) (Demo.vec 1 3 3)
            [7; 8; 9]) as H2
    by (apply Demo_valid; simpl; (reflexivity || lia)).
  assert (1 < size_ (Demo.vec 1 3 3)) as H3 by (vm_compute; lia).
  assert (@Erase nat Demo.moved true Demo.never 10 (Some 1, 1)
            (Demo.st [Some 7; Some 8; Some 9] 3 3) =
          Ok (Some 1, 1)
             (mkState {[1 := [Some 7; Some 9; None]]} {[10 := Demo.vec 1 3 2]}
                0 3 1)) as H4
    by (vm_compute; reflexivity).
  split_and!; try assumption.
  destruct (@Erase_removes nat Demo.moved 4%N true Demo.never
              Demo_sizeof_pos Demo_sizeof_max 10 _ [7; 8; 9] 1 _ H1 H2)
    as [Hin _].
  destruct (Hin H3 _ _ H4) as (V' & _ & Hvalid' & _).
  exists V'. exact Hvalid'.
Defined.

(** [Emplace_in_place]: [9] is inserted at position 1 of [[7, 8]], a vector
    of capacity 4. *)
Lemma Emplace_in_place_witness :
  vecs (Demo.st [Some 7; Some 8; None; None] 4 2) !! 10 = Some (Demo.vec 1 4 2) ∧
  valid 4%N (Demo.st [Some 7; Some 8; None; None] 4 2) (Demo.vec 1 4 2)
    ([7] ++ [8]) ∧
  size_ (Demo.vec 1 4 2) < Capacity (Demo.vec 1 4 2) ∧
  ∃ p st',
    @Emplace nat Demo.moved 4%N false true true Demo.never 10 (Some 1, 1) 9
      (Demo.st [Some 7; Some 8; None; None] 4 2) = Ok p st'.
Proof.
  assert (vecs (Demo.st [Some 7; Some 8; None; None] 4 2) !! 10 =
            Some (Demo.vec 1 4 2)) as H1 by reflexivity.
  assert (valid 4%N (Demo.st [Some 7; Some 8; None; None] 4 2) (Demo.vec 1 4 2)
            ([7] ++ [8])) as H2
    by (apply Demo_valid; simpl; (reflexivity || lia)).
  assert (size_ (Demo.vec 1 4 2) < Capacity (Demo.vec 1 4 2)) as H3
    by (vm_compute; lia).
  split_and!; try assumption.
  destruct (@Emplace_in_place nat Demo.moved 4%N false true true Demo.never
              Demo_sizeof_pos Demo_sizeof_max 10 _ [7] [8] 9 _ H1 H2
              ltac:(discriminate) H3)
    as (_ & Hrun).
  apply Hrun, Demo_quiet.
Defined.

(** [Reserve_nothrow_move]: [Reserve(5)] on [[7, 8]] where the request for
    the block (step 0) is refused. *)
Lemma Reserve_nothrow_move_witness :
  vecs (Demo.st [Some 7; Some 8] 2 2) !! 10 = Some (Demo.vec 1 2 2) ∧
  valid 4%N (Demo.st [Some 7; Some 8] 2 2) (Demo.vec 1 2 2) [7; 8] ∧
  ∃ st',
    @Reserve nat Demo.moved 4%N true true (Demo.at_step 0) 10 5
      (Demo.st [Some 7; Some 8] 2 2) = Throw st' ∧
    heap st' = heap (Demo.st [Some 7; Some 8] 2 2) ∧
    ctors st' = ctors (Demo.st [Some 7; Some 8] 2 2).
Proof.
  assert (vecs (Demo.st [Some 7; Some 8] 2 2) !! 10 = Some (Demo.vec 1 2 2))
    as H1 by reflexivity.
  assert (valid 4%N (Demo.st [Some 7; Some 8] 2 2) (Demo.vec 1 2 2) [7; 8]) as H2
    by (apply Demo_valid; simpl; (reflexivity || lia)).
  split_and!; try assumption.
  pose proof (@Reserve_nothrow_move nat Demo.moved 4%N true true
                (Demo.at_step 0) Demo_sizeof_pos Demo_sizeof_max 10 _ [7; 8] 5 _
                eq_refl H1 H2 ltac:(vm_compute; reflexivity)) as Hspec.
  destruct (@Reserve nat Demo.moved 4%N true true (Demo.at_step 0) 10 5
              (Demo.st [Some 7; Some 8] 2 2)) as [[] st'|st'|] eqn:Hrun.
  - vm_compute in Hrun. discriminate Hrun.
  - exists st'. destruct Hspec as (Hheap & _ & Hc & _).
    split_and!; [reflexivity | exact Hheap | exact Hc].
  - destruct Hspec.
Defined.

(** [EmplaceBack_nothrow_move]: [9] is appended to the full vector
    [[7, 8]] of an element type with a non-raising move constructor; the
    elements are moved to the new block. *)
Lemma EmplaceBack_nothrow_move_witness :
  vecs (Demo.st [Some 7; Some 8] 2 2) !! 10 = Some (Demo.vec 1 2 2) ∧
  valid 4%N (Demo.st [Some 7; Some 8] 2 2) (Demo.vec 1 2 2) [7; 8] ∧
  ∃ t st' V',
    @EmplaceBack nat Demo.moved 4%N true true Demo.never 10 9
      (Demo.st [Some 7; Some 8] 2 2) = Ok t st' ∧
    vecs st' !! 10 = Some V' ∧ valid 4%N st' V' ([7; 8] ++ [9]).
Proof.
  assert (vecs (Demo.st [Some 7; Some 8] 2 2) !! 10 = Some (Demo.vec 1 2 2))
    as H1 by reflexivity.
  assert (valid 4%N (Demo.st [Some 7; Some 8] 2 2) (Demo.vec 1 2 2) [7; 8]) as H2
    by (apply Demo_valid; simpl; (reflexivity || lia)).
  split_and!; try assumption.
  pose proof (@EmplaceBack_nothrow_move nat Demo.moved 4%N true true Demo.never
                Demo_sizeof_pos Demo_sizeof_max 10 _ [7; 8] 9 _ eq_refl H1 H2)
    as Hspec.
  destruct (@EmplaceBack nat Demo.moved 4%N true true Demo.never 10 9
              (Demo.st [Some 7; Some 8] 2 2)) as [t st'|st'|] eqn:Hrun.
  - destruct Hspec as (V' & HV' & Hvalid' & _).
    exists t, st', V'. split_and!; [reflexivity | exact HV' | exact Hvalid'].
  - vm_compute in Hrun. discriminate Hrun.
  - destruct Hspec.
Defined.

(** [Erase_nothrow]: the element at index 0 of [[7, 8]] is erased while
    every fallible step would raise. *)
Lemma Erase_nothrow_witness :
  vecs (Demo.st [Some 7; Some 8] 2 2) !! 10 = Some (Demo.vec 1 2 2) ∧
  valid 4%N (Demo.st [Some 7; Some 8] 2 2) (Demo.vec 1 2 2) [7; 8] ∧
  0 < size_ (Demo.vec 1 2 2) ∧
  ∃ st',
    @Erase nat Demo.moved true (fun _ => true) 10 (Some 1, 0)
      (Demo.st [Some 7; Some 8] 2 2) = Ok (Some 1, 0) st'.
Proof.
  assert (vecs (Demo.st [Some 7; Some 8] 2 2) !! 10 = Some (Demo.vec 1 2 2))
    as H1 by reflexivity.
  assert (valid 4%N (Demo.st [Some 7; Some 8] 2 2) (Demo.vec 1 2 2) [7; 8]) as H2
    by (apply Demo_valid; simpl; (reflexivity || lia)).
  assert (0 < size_ (Demo.vec 1 2 2)) as H3 by (vm_compute; lia).
  split_and!; try assumption.
  destruct (@Erase_nothrow nat Demo.moved 4%N true (fun _ => true)
              Demo_sizeof_pos Demo_sizeof_max 10 _ [7; 8] 0 _ eq_refl H1 H2 H3)
    as (st' & Hrun & _).
  exists st'. exact Hrun.
Defined.

(** [Emplace_nothrow_moves]: [9] is inserted at position 1 of the full
    vector [[7, 8]]; the constructor of [9] (step 1) raises. *)
Lemma Emplace_nothrow_moves_witness :
  vecs (Demo.st [Some 7; Some 8] 2 2) !! 10 = Some (Demo.vec 1 2 2) ∧
  valid 4%N (Demo.st [Some 7; Some 8] 2 2) (Demo.vec 1 2 2) ([7] ++ [8]) ∧
  ∃ st',
    @Emplace nat Demo.moved 4%N true true true (Demo.at_step 1) 10 (Some 1, 1) 9
      (Demo.st [Some 7; Some 8] 2 2) = Throw st' ∧
    heap st' = heap (Demo.st [Some 7; Some 8] 2 2) ∧
    ctors st' = ctors (Demo.st [Some 7; Some 8] 2 2) ∧
    dtors st' = dtors (Demo.st [Some 7; Some 8] 2 2).
Proof.
  assert (vecs (Demo.st [Some 7; Some 8] 2 2) !! 10 = Some (Demo.vec 1 2 2))
    as H1 by reflexivity.
  assert (valid 4%N (Demo.st [Some 7; Some 8] 2 2) (Demo.vec 1 2 2) ([7] ++ [8]))
    as H2 by (apply Demo_valid; simpl; (reflexivity || lia)).
  split_and!; try assumption.
  pose proof (@Emplace_nothrow_moves nat Demo.moved 4%N true true true
                (Demo.at_step 1) Demo_sizeof_pos Demo_sizeof_max
                10 _ [7] [8] 9 _ eq_refl eq_refl H1 H2) as Hspec.
  change (ptr_add (begin_ (Demo.vec 1 2 2)) (length [7])) with (Some 1, 1)
    in Hspec.
  destruct (@Emplace nat Demo.moved 4%N true true true (Demo.at_step 1) 10
              (Some 1, 1) 9 (Demo.st [Some 7; Some 8] 2 2))
    as [p st'|st'|] eqn:Hrun.
  - vm_compute in Hrun. discriminate Hrun.
  - exists st'. destruct Hspec as (Hheap & _ & Hc & Hd).
    split_and!; [reflexivity | exact Hheap | exact Hc | exact Hd].
  - destruct Hspec.
Defined.

(** [RawMemory_ctor_overflow]: four objects of [2^62] bytes each need
    [2^64] bytes, which wraps to a request for [0] bytes. *)
Lemma RawMemory_ctor_overflow_witness :
  (N.of_nat 4 < SizeT.modulus)%N ∧
  (SizeT.modulus ≤ N.of_nat 4 * 4611686018427387904)%N ∧
  (SizeT.wrap (N.of_nat 4 * 4611686018427387904) ≤ SizeT.ptrdiff_max)%N ∧
  ∃ b st',
    @RawMemory_ctor nat 4611686018427387904%N Demo.never 4
      (Demo.st [Some 7; None] 2 1) = Ok (mkRawMemory (Some b) 4) st' ∧
    heap st' !! b = Some [].
Proof.
  assert (N.of_nat 4 < SizeT.modulus)%N as H1 by (vm_compute; reflexivity).
  assert (SizeT.modulus ≤ N.of_nat 4 * 4611686018427387904)%N as H2
    by (vm_compute; discriminate).
  assert (SizeT.wrap (N.of_nat 4 * 4611686018427387904) ≤ SizeT.ptrdiff_max)%N
    as H3 by (vm_compute; discriminate).
  split_and!; try assumption.
  destruct (@RawMemory_ctor_overflow nat 4611686018427387904%N Demo.never
              ltac:(vm_compute; reflexivity) ltac:(vm_compute; discriminate)
              4 (Demo.st [Some 7; None] 2 1) H1 H2 H3 eq_refl)
    as (b & slots & st' & Hrun & _ & Hb & _).
  exists b, st'. split; [exact Hrun|].
  vm_compute in Hrun. injection Hrun as <- <-. reflexivity.
Defined.

(** [DestroyN_spec]: the object in slot 1 of the block [[7, 8, raw]] is
    destroyed. *)
Lemma DestroyN_spec_witness :
  heap (Demo.st [Some 7; Some 8; None] 3 2) !! 1 =
    Some ([Some 7] ++ map Some [8] ++ [None]) ∧
  DestroyN (Some 1, 1) 1 (Demo.st [Some 7; Some 8; None] 3 2) =
    Ok tt (mkState {[1 := [Some 7; None; None]]} {[10 := Demo.vec 1 3 2]} 0 2 1).
Proof.
  assert (heap (Demo.st [Some 7; Some 8; None] 3 2) !! 1 =
            Some ([Some 7] ++ map Some [8] ++ [None])) as H1 by reflexivity.
  split; [assumption|].
  destruct (@DestroyN_spec nat 4%N Demo_sizeof_pos Demo_sizeof_max
              1 [8] [Some 7] [None] _ H1) as [Hrun _].
  etrans; [exact Hrun|]. vm_compute. reflexivity.
Defined.

(** [Emplace_in_place_assignment_failure]: [9] is inserted at position 1 of
    [[7, 8]], a vector of capacity 4; the temporary (step 0) and the move
    construction of [8] into slot 2 (step 1) succeed, the assignment to
    position 1 (step 2) raises.  Slot 2, outside the vector of size 2, then
    holds [8]. *)
Lemma Emplace_in_place_assignment_failure_witness :
  vecs (Demo.st [Some 7; Some 8; None; None] 4 2) !! 10 = Some (Demo.vec 1 4 2) ∧
  valid 4%N (Demo.st [Some 7; Some 8; None; None] 4 2) (Demo.vec 1 4 2)
    ([7] ++ [] ++ [8]) ∧
  size_ (Demo.vec 1 4 2) < Capacity (Demo.vec 1 4 2) ∧
  @Emplace nat Demo.moved 4%N false true false (Demo.at_step 2) 10 (Some 1, 1) 9
    (Demo.st [Some 7; Some 8; None; None] 4 2) =
    Throw (mkState {[1 := [Some 7; Some 0; Some 8; None]]}
                   {[10 := Demo.vec 1 4 2]} 3 4 1).
Proof.
  assert (vecs (Demo.st [Some 7; Some 8; None; None] 4 2) !! 10 =
            Some (Demo.vec 1 4 2)) as H1 by reflexivity.
  assert (valid 4%N (Demo.st [Some 7; Some 8; None; None] 4 2) (Demo.vec 1 4 2)
            ([7] ++ [] ++ [8])) as H2
    by (apply Demo_valid; simpl; (reflexivity || lia)).
  assert (size_ (Demo.vec 1 4 2) < Capacity (Demo.vec 1 4 2)) as H3
    by (vm_compute; lia).
  assert (∀ j, j < 1 + 1 + 0 →
            Demo.at_step 2 (ticks (Demo.st [Some 7; Some 8; None; None] 4 2) + j)
              = false) as H4.
  { intros [|[|j]] Hj; [reflexivity | reflexivity | lia]. }
  split_and!; try assumption.
  destruct (@Emplace_in_place_assignment_failure nat Demo.moved 4%N false true
              false (Demo.at_step 2) Demo_sizeof_pos Demo_sizeof_max
              10 _ [7] [] 8 9 _ H1 H2 H3 eq_refl H4 eq_refl)
    as (b & z & st' & _ & Hrun & _).
  vm_compute in Hrun. injection Hrun as <-. vm_compute. reflexivity.
Defined.
